(** * Family calendar: the ICS ingestion engine and the week bucketizer

    A shallow embedding of [src/utils/ical.ts] and of the calendar hook
    ([useCalendars]) of the family-calendar repository, with the properties
    of its specification stated and proved over the embedding.

    Conventions of the embedding.
    - A JavaScript string is the list of its UTF-16 code units.
    - A [Date] is its time value: milliseconds since the epoch, as an
      integer.  Only valid dates are modelled (no [NaN] time value, and
      [TimeClip] is the identity).
    - The local time zone of the host is the function [LocalTZA] of
      ECMA-262 (21.4.1), a parameter of everything that reads local time.
    - The library ical.js is not part of the repository: what the code
      observes of it is carried by records ([ICALEvent], [VEvent], ...) and
      its text parser is a parameter.
    - A plain object used as a map is the list of its own properties
      ([Obj]); [Object.values] lists them in the order of ECMA-262.  The
      theorems that index such an object with the ids of arbitrary feeds
      take ids that are not names of properties of [Object.prototype]. *)

From Stdlib Require Import ZArith List Bool Lia Ascii String.
From Stdlib Require Import DecimalString DecimalZ Decimal.
From Stdlib Require Import Permutation Sorted.
From stdpp Require Import base decidable option list gmap.

Open Scope Z_scope.

(* ===================================================================== *)
(** * JavaScript strings *)
(* ===================================================================== *)

Module JS.

(** A string is its sequence of UTF-16 code units. *)
Abbreviation jsstring := (list N).

(** The code units of an ASCII literal. *)
Definition lit (s : string) : jsstring :=
List.map N_of_ascii (list_ascii_of_string s).

(** ECMA-262 LineTerminator: LF, CR, LS, PS. *)
Definition isLineTerminator (c : N) : bool :=
(N.eqb c 10 || N.eqb c 13 || N.eqb c 8232 || N.eqb c 8233)%bool.

(** ECMA-262 WhiteSpace: TAB, VT, FF, SP, NBSP, ZWNBSP and category Zs. *)
Definition isWhiteSpace (c : N) : bool :=
(N.eqb c 9 || N.eqb c 11 || N.eqb c 12 || N.eqb c 32 || N.eqb c 160
 || N.eqb c 65279 || N.eqb c 5760
 || (N.leb 8192 c && N.leb c 8202)
 || N.eqb c 8239 || N.eqb c 8287 || N.eqb c 12288)%bool.

(** The regular expression class [\s], also what [trim] strips. *)
Definition isSpace (c : N) : bool := (isWhiteSpace c || isLineTerminator c)%bool.

(** [String.prototype.trimStart]. *)
Fixpoint trimStart (s : jsstring) : jsstring :=
match s with
| c :: r => if isSpace c then trimStart r else s
| [] => []
end.

(** [String.prototype.trimEnd]. *)
Definition trimEnd (s : jsstring) : jsstring := rev (trimStart (rev s)).

(** [String.prototype.trim]. *)
Definition trim (s : jsstring) : jsstring := trimEnd (trimStart s).

(** [String(n)] for an integer [n] (decimal digits, a leading minus sign
  for a negative number). *)
Definition String_of_Z (n : Z) : jsstring :=
lit (NilZero.string_of_int (Z.to_int n)).

(** [s.padStart(n, c)] with a one-unit filler. *)
Definition padStart (n : nat) (c : N) (s : jsstring) : jsstring :=
repeat c (n - length s) ++ s.

(** [s.slice(0, n)]. *)
Definition slice0 (n : nat) (s : jsstring) : jsstring := firstn n s.

(** [s.startsWith(p)]. *)
Fixpoint startsWith (p s : jsstring) : bool :=
match p, s with
| [], _ => true
| _ :: _, [] => false
| a :: p', b :: s' => (N.eqb a b && startsWith p' s')%bool
end.

End JS.
Import JS.

(* ===================================================================== *)
(** * Dates (ECMA-262, 21.4.1) *)
(* ===================================================================== *)

Abbreviation Date := Z (only parsing).

Definition msPerDay : Z := 86400000.

Definition Day (t : Z) : Z := t / msPerDay.
Definition TimeWithinDay (t : Z) : Z := t mod msPerDay.

Definition DayFromYear (y : Z) : Z :=
  365 * (y - 1970) + (y - 1969) / 4 - (y - 1901) / 100 + (y - 1601) / 400.

Definition DaysInYear (y : Z) : Z :=
  if (negb (y mod 4 =? 0)) then 365
  else if (negb (y mod 100 =? 0)) then 366
  else if (negb (y mod 400 =? 0)) then 365 else 366.

(** The largest [y] with [DayFromYear y <= Day t]: the mean-year estimate
    is off by at most one ([YearFromTime_spec] below). *)
Definition YearFromTime (t : Z) : Z :=
  let d := Day t in
  let y := 1970 + (d * 400) / 146097 in
  if d <? DayFromYear y then y - 1
  else if DayFromYear (y + 1) <=? d then y + 1
  else y.

Definition InLeapYear (t : Z) : Z :=
  if DaysInYear (YearFromTime t) =? 366 then 1 else 0.

Definition DayWithinYear (t : Z) : Z := Day t - DayFromYear (YearFromTime t).

(** First day (within the year) of month [m], 0-based. *)
Definition monthStart (leap m : Z) : Z :=
  if m =? 0 then 0 else if m =? 1 then 31
  else if m =? 2 then 59 + leap else if m =? 3 then 90 + leap
  else if m =? 4 then 120 + leap else if m =? 5 then 151 + leap
  else if m =? 6 then 181 + leap else if m =? 7 then 212 + leap
  else if m =? 8 then 243 + leap else if m =? 9 then 273 + leap
  else if m =? 10 then 304 + leap else 334 + leap.

Definition MonthFromTime (t : Z) : Z :=
  let d := DayWithinYear t in
  let l := InLeapYear t in
  if d <? 31 then 0 else if d <? 59 + l then 1
  else if d <? 90 + l then 2 else if d <? 120 + l then 3
  else if d <? 151 + l then 4 else if d <? 181 + l then 5
  else if d <? 212 + l then 6 else if d <? 243 + l then 7
  else if d <? 273 + l then 8 else if d <? 304 + l then 9
  else if d <? 334 + l then 10 else 11.

Definition DateFromTime (t : Z) : Z :=
  DayWithinYear t - monthStart (InLeapYear t) (MonthFromTime t) + 1.

Definition MakeTime (h m s ms : Z) : Z :=
  h * 3600000 + m * 60000 + s * 1000 + ms.

Definition MakeDay (year month date : Z) : Z :=
  let ym := year + month / 12 in
  let mn := month mod 12 in
  let leap := if DaysInYear ym =? 366 then 1 else 0 in
  DayFromYear ym + monthStart leap mn + date - 1.

Definition MakeDate (day time : Z) : Z := day * msPerDay + time.

Section LocalTime.

(** [LocalTZA t true] is the offset of local time at the UTC instant
    [t]; [LocalTZA t false] the offset at the local time [t]. *)
Variable LocalTZA : Z -> bool -> Z.

Definition LocalTime (t : Z) : Z := t + LocalTZA t true.
Definition UTC (t : Z) : Z := t - LocalTZA t false.

Definition getTime (d : Date) : Z := d.
Definition getFullYear (d : Date) : Z := YearFromTime (LocalTime d).
Definition getMonth (d : Date) : Z := MonthFromTime (LocalTime d).
Definition getDate (d : Date) : Z := DateFromTime (LocalTime d).

(** [d.setDate(dt)]. *)
Definition setDate (d : Date) (dt : Z) : Date :=
  let t := LocalTime d in
  UTC (MakeDate (MakeDay (YearFromTime t) (MonthFromTime t) dt)
                (TimeWithinDay t)).

(** [d.setHours(h, m, s, ms)]. *)
Definition setHours (d : Date) (h m s ms : Z) : Date :=
  let t := LocalTime d in
  UTC (MakeDate (Day t) (MakeTime h m s ms)).

(** ** [src/utils/ical.ts]: day helpers *)

Definition startOfDay (d : Date) : Date :=
  let out := d in
  setHours out 0 0 0 0.

(** [YYYY-MM-DD] in local time. *)
Definition toLocalDateKey (d : Date) : jsstring :=
  let y := getFullYear d in
  let m := padStart 2 48 (String_of_Z (getMonth d + 1)) in
  let day := padStart 2 48 (String_of_Z (getDate d)) in
  String_of_Z y ++ lit "-" ++ m ++ lit "-" ++ day.

Definition WEEKDAY_COUNT : Z := 5.

Definition endOfWeekdays (start : Date) : Date :=
  let out := start in
  let out := setDate out (getDate out + WEEKDAY_COUNT) in
  setHours out 23 59 59 999.

End LocalTime.

(** The host in the UTC zone. *)
Definition UTCzone : Z -> bool -> Z := fun _ _ => 0.

(** [new Date(y, m, d, hh, mm)] read in the UTC zone ([m] is 0-based). *)
Definition utcDate (y m d hh mm : Z) : Date :=
  MakeDate (MakeDay y m d) (MakeTime hh mm 0 0).

(* ===================================================================== *)
(** * Events ([src/types.ts]) *)
(* ===================================================================== *)

Record CalendarEvent := {
  ev_id : jsstring;
  ev_title : jsstring;
  ev_start : Date;
  ev_end : Date;
  allDay : bool;
  calendarId : jsstring;
  calendarName : jsstring;
  color : jsstring;
  location : option jsstring;
}.

#[global] Instance CalendarEvent_eq_dec : EqDecision CalendarEvent.
Proof. solve_decision. Defined.

(* ===================================================================== *)
(** * The week bucketizer ([src/utils/ical.ts]) *)
(* ===================================================================== *)

(** [arr.sort((a, b) => a.start.getTime() - b.start.getTime())]: the sort
    of the language is stable, so an event goes before the first event
    that starts strictly later. *)
Fixpoint insertByStart (ev : CalendarEvent) (l : list CalendarEvent)
  : list CalendarEvent :=
  match l with
  | [] => [ev]
  | x :: r =>
      if ev_start ev - ev_start x <=? 0 then ev :: x :: r
      else x :: insertByStart ev r
  end.

Definition sortByStart (l : list CalendarEvent) : list CalendarEvent :=
  foldr insertByStart [] l.

Section Bucketizer.

Variable LocalTZA : Z -> bool -> Z.

Definition filterEventsForWeek (events : list CalendarEvent) (weekStart : Date)
  : list CalendarEvent :=
  let start := startOfDay LocalTZA weekStart in
  let end_ := endOfWeekdays LocalTZA start in
  List.filter
    (fun ev =>
       let evEnd := getTime (ev_end ev) in
       let evStart := getTime (ev_start ev) in
       (getTime start <? evEnd) && (evStart <? getTime end_))
    events.

(** The first loop of [groupEventsByDay]: [map.set(key, [])]. *)
Definition emptyBuckets (dateKeys : list jsstring)
  : gmap jsstring (list CalendarEvent) :=
  foldl (fun m key => <[key := []]> m) ∅ dateKeys.

(** The second loop: [if (map.has(dayKey)) map.get(dayKey).push(ev)]. *)
Definition placeEvent (m : gmap jsstring (list CalendarEvent))
    (ev : CalendarEvent) : gmap jsstring (list CalendarEvent) :=
  let dayKey := toLocalDateKey LocalTZA (ev_start ev) in
  match m !! dayKey with
  | Some arr => <[dayKey := arr ++ [ev]]> m
  | None => m
  end.

(** Group events by day using the exact date keys provided. *)
Definition groupEventsByDay (events : list CalendarEvent)
    (dateKeys : list jsstring) : gmap jsstring (list CalendarEvent) :=
  let map := emptyBuckets dateKeys in
  let map := foldl placeEvent map events in
  sortByStart <$> map.

(** Build the 5 weekday date keys (Mon-Fri) from week start. *)
Definition getWeekDateKeys (weekStart : Date) : list jsstring :=
  let start := setHours LocalTZA weekStart 0 0 0 0 in
  List.map
    (fun i =>
       let d := start in
       let d := setDate LocalTZA d (getDate LocalTZA d + i) in
       toLocalDateKey LocalTZA d)
    (List.map Z.of_nat (seq 0 (Z.to_nat WEEKDAY_COUNT))).

End Bucketizer.

(* ===================================================================== *)
(** * Exceptions *)
(* ===================================================================== *)

(** The result of a call that may throw; [Throws msg] carries the message
    of the exception. *)
Inductive outcome (A : Type) : Type :=
  | Returns (a : A)
  | Throws (msg : jsstring).
Arguments Returns {A} a.
Arguments Throws {A} msg.

(* ===================================================================== *)
(** * ical.js, as the code observes it *)
(* ===================================================================== *)

Module ICAL.

(** An [ICAL.Time]. *)
Record Time := {
  isDate : bool;          (* a bare date, no time of day *)
  toJSDate : Date;
}.

(** An [ICAL.Event], as [pushEvent] and the non-recurring branch read
    it.  [endDate] is only read once [startDate] is known to be set. *)
Record Event := {
  summary : option jsstring;
  uid : option jsstring;
  location : option jsstring;
  startDate : option Time;
  endDate : Time;
}.

(** The result of [event.getOccurrenceDetails(occ)]. *)
Record OccurrenceDetails := {
  item : option Event;    (* the exception that replaces the event *)
  occStartDate : Time;
  occEndDate : Time;
}.

(** One call of [iter.next()], with what [getOccurrenceDetails] does on
    the occurrence it returns. *)
Inductive Next :=
  | Occurrence (occ : Time) (details : outcome OccurrenceDetails)
  | Exhausted               (* a falsy result: the series is over *)
  | NextThrows.             (* the call (or [event.iterator()]) throws *)

(** A [vevent] sub-component, as it stands in its calendar.  [iterator n]
    is the result of the call number [n] (from 0) of [next] on a fresh
    [event.iterator()].  The fields are those of the record inside its
    component: [new ICAL.Event(vevent)] relates the records of the same
    component that have a [RECURRENCE-ID] to the event as its exceptions,
    and [getOccurrenceDetails] answers with them ([item]), so what a series
    yields depends on the overrides that stand beside it.  Nothing below
    takes a record from one component to another. *)
Record VEvent := {
  hasRecurrenceId : bool;             (* vevent.hasProperty('recurrence-id') *)
  event : outcome Event;              (* new ICAL.Event(vevent) *)
  isRecurring : bool;
  iterator : nat -> Next;
}.

(** A parsed calendar: [comp.getAllSubcomponents('vevent')]. *)
Record Component := {
  getAllSubcomponents : outcome (list VEvent);
}.

End ICAL.

(* ===================================================================== *)
(** * The text normalizer ([src/utils/ical.ts]) *)
(* ===================================================================== *)

Module Regex.

(** Canonicalize of a case-insensitive, non-Unicode regular expression,
    on the ASCII letters.  A code unit outside ASCII never canonicalizes
    to an ASCII one, so against the ASCII patterns below this is exact. *)
Definition canon (c : N) : N :=
  if (N.leb 97 c && N.leb c 122)%bool then (c - 32)%N else c.

(** The pattern [p] matches, ignoring case, at the head of [s]: the rest
    of [s] after the match. *)
Fixpoint matchCI (p s : jsstring) : option jsstring :=
  match p, s with
  | [], _ => Some s
  | _ :: _, [] => None
  | a :: p', b :: s' =>
      if N.eqb (canon a) (canon b) then matchCI p' s' else None
  end.

(** Some position of [s] satisfies [f] (the search of [test]). *)
Fixpoint anywhere (f : jsstring -> bool) (s : jsstring) : bool :=
  (f s || match s with [] => false | _ :: r => anywhere f r end)%bool.

(** [\s*$] under the flag [m]: the end of the input or a line terminator
    is reached through white space only. *)
Fixpoint spacesThenLineEnd (s : jsstring) : bool :=
  match s with
  | [] => true
  | c :: r => (isLineTerminator c || (isSpace c && spacesThenLineEnd r))%bool
  end.

(** [/BEGIN:VCALENDAR/i.test(s)]. *)
Definition test_BEGIN_VCALENDAR (s : jsstring) : bool :=
  anywhere (fun u => bool_decide (is_Some (matchCI (lit "BEGIN:VCALENDAR") u))) s.

(** [/END:VCALENDAR\s*$/im.test(s)]. *)
Definition test_END_VCALENDAR_eol (s : jsstring) : bool :=
  anywhere
    (fun u => match matchCI (lit "END:VCALENDAR") u with
              | Some r => spacesThenLineEnd r
              | None => false
              end) s.

(** [/[;:]/.test(s)]. *)
Definition test_semicolon_or_colon (s : jsstring) : bool :=
  existsb (fun c => (N.eqb c 59 || N.eqb c 58)%bool) s.

(** [s.replace(/\s+/g, ' ')]: every maximal run of white space becomes
    one space; [inRun] says that the previous unit was white space. *)
Fixpoint replace_spaces_from (inRun : bool) (s : jsstring) : jsstring :=
  match s with
  | [] => []
  | c :: r =>
      if isSpace c
      then (if inRun then replace_spaces_from true r
            else 32%N :: replace_spaces_from true r)
      else c :: replace_spaces_from false r
  end.

Definition replace_spaces (s : jsstring) : jsstring :=
  replace_spaces_from false s.

(** [w] is, ignoring case, the pattern [p]. *)
Definition Matches (p w : jsstring) : Prop := matchCI p w = Some [].

(** The word [w] occurs in the text [l]. *)
Definition occursIn (w l : jsstring) : Prop := exists pre suf, l = pre ++ w ++ suf.

(** The units of the two markers and of what matches them: the ASCII
    letters and the colon. *)
Definition wordUnit (c : N) : bool :=
  ((N.leb 65 c && N.leb c 90) || (N.leb 97 c && N.leb c 122) || N.eqb c 58)%bool.

End Regex.

(** [lines[lines.length - 1] += suffix]. *)
Fixpoint appendToLast (lines : list jsstring) (suffix : jsstring)
  : list jsstring :=
  match lines with
  | [] => []
  | [x] => [x ++ suffix]
  | x :: r => x :: appendToLast r suffix
  end.

(** The body of the loop of [fixBrokenLineFolding], for one line that a
    line break ends. *)
Definition foldLine (lines : list jsstring) (line : jsstring)
  : list jsstring :=
  let trimmed := trimStart line in
  let isContinuation :=
    match line with
    | c :: _ => (N.eqb c 32 || N.eqb c 9)%bool
    | [] => false
    end in
  let looksLikeProperty := Regex.test_semicolon_or_colon trimmed in
  if (negb looksLikeProperty && negb isContinuation
      && (0 <? length trimmed)%nat && (0 <? length lines)%nat)%bool
  then appendToLast lines ([92%N; 110%N] ++ trimmed)   (* a backslash, then n *)
  else lines ++ [line].

(** The scan of [/\r\n|\n|\r/g] over the text: [line] is the text since
    the last line break, [lines] the array built so far. *)
Fixpoint scanLines (s : jsstring) (line : jsstring) (lines : list jsstring)
  : list jsstring :=
  match s with
  | [] => match line with
          | [] => lines
          | _ :: _ => lines ++ [line]     (* lastIndex < icsText.length *)
          end
  | c :: r =>
      if N.eqb c 13 then
        match r with
        | d :: r' =>
            if N.eqb d 10 then scanLines r' [] (foldLine lines line)
            else scanLines r [] (foldLine lines line)
        | [] => scanLines r [] (foldLine lines line)
        end
      else if N.eqb c 10 then scanLines r [] (foldLine lines line)
      else scanLines r (line ++ [c]) lines
  end.

(** [lines.join('\r\n')]. *)
Fixpoint joinCRLF (lines : list jsstring) : jsstring :=
  match lines with
  | [] => []
  | [x] => x
  | x :: r => x ++ [13%N; 10%N] ++ joinCRLF r
  end.

Definition fixBrokenLineFolding (icsText : jsstring) : jsstring :=
  joinCRLF (scanLines icsText [] []).

(** Normalize ICS text before parsing: strip BOM, fix folding, ensure
    END:VCALENDAR. *)
Definition stripBOM (s : jsstring) : jsstring :=
  match s with
  | c :: r => if N.eqb c 65279 then r else s     (* charCodeAt(0) === 0xfeff *)
  | [] => s
  end.

Definition normalizeICSText (icsText : jsstring) : jsstring :=
  let s := icsText in
  let s := stripBOM s in
  let s := fixBrokenLineFolding s in
  let s := trimEnd s in
  if (Regex.test_BEGIN_VCALENDAR s && negb (Regex.test_END_VCALENDAR_eol s))%bool
  then s ++ [13%N; 10%N] ++ lit "END:VCALENDAR"
  else s.

(* ===================================================================== *)
(** * The parser and the recurrence expander ([src/utils/ical.ts]) *)
(* ===================================================================== *)

(** Expand recurring events up to this many days ahead (and a bit in the
    past). *)
Definition RECURRENCE_EXPAND_DAYS_PAST : Z := 7.
Definition RECURRENCE_EXPAND_DAYS_FUTURE : Z := 90.

Definition maxOccurrences : nat := 500.

(** A string is truthy when it is not empty; [null] and [undefined] are
    falsy. *)
Definition truthy (s : option jsstring) : bool :=
  match s with
  | Some (_ :: _) => true
  | _ => false
  end.

(** [a || b] on strings. *)
Definition orElse (a : option jsstring) (b : jsstring) : jsstring :=
  match a with
  | Some (c :: r) => c :: r
  | _ => b
  end.

Definition pushEvent (events : list CalendarEvent) (event : ICAL.Event)
    (start end_ : Date) (calendarId calendarName color : jsstring)
    (occurrenceId : option jsstring) : outcome (list CalendarEvent) :=
  let summary := orElse (trim <$> ICAL.summary event) (lit "(No title)") in
  let uid :=
    orElse (ICAL.uid event) (String_of_Z (getTime start) ++ lit "-" ++ summary) in
  let id :=
    if truthy occurrenceId
    then calendarId ++ lit "-" ++ uid ++ lit "-" ++ default [] occurrenceId
    else calendarId ++ lit "-" ++ uid in
  let location := trim <$> ICAL.location event in
  match ICAL.startDate event with
  | None => Throws (lit "Cannot read properties of null (reading 'isDate')")
  | Some startDate =>
      Returns
        (events ++
         [ {| ev_id := id;
              ev_title := summary;
              ev_start := start;
              ev_end := end_;
              allDay := ICAL.isDate startDate;
              calendarId := calendarId;
              calendarName := calendarName;
              color := color;
              location := if truthy location then location else None |} ])
  end.

Section Parser.

Variable LocalTZA : Z -> bool -> Z.

(** [ICAL.parse(text)] followed by [new ICAL.Component(jCal)]. *)
Variable ICAL_parse : jsstring -> outcome ICAL.Component.

(** [clock n] is the value of the evaluation number [n] (from 0) of
    [new Date()] during the call. *)
Variable clock : nat -> Date.

Definition rangeEndTime : Z :=
  let rangeEnd := clock 0%nat in
  let rangeEnd :=
    setDate LocalTZA rangeEnd
      (getDate LocalTZA rangeEnd + RECURRENCE_EXPAND_DAYS_FUTURE) in
  getTime rangeEnd.

Definition rangeStartTime : Z :=
  let rangeStart := clock 1%nat in
  let rangeStart :=
    setDate LocalTZA rangeStart
      (getDate LocalTZA rangeStart - RECURRENCE_EXPAND_DAYS_PAST) in
  getTime rangeStart.

Section VEvent.

Variables calendarId calendarName color : jsstring.

(** The [while] loop over the occurrences of a recurring event.
    [budget] is [maxOccurrences - count], so that [count <
    maxOccurrences] reads [budget <> 0]; [count] is also the number of
    calls of [iter.next()] made so far.  An exception leaves the loop
    with the events pushed so far: the [catch] of the caller only logs
    it. *)
Fixpoint expandOccurrences (event : ICAL.Event) (iter : nat -> ICAL.Next)
    (budget count : nat) (events : list CalendarEvent)
  : list CalendarEvent :=
  match budget with
  | O => events
  | S budget' =>
      match iter count with
      | ICAL.Exhausted => events
      | ICAL.NextThrows => events
      | ICAL.Occurrence occ details =>
          let count := S count in
          let occTimeMs := getTime (ICAL.toJSDate occ) in
          if rangeEndTime <? occTimeMs then events            (* break *)
          else if occTimeMs <? rangeStartTime
          then expandOccurrences event iter budget' count events (* continue *)
          else
            match details with
            | Throws _ => events
            | Returns details =>
                let start := ICAL.toJSDate (ICAL.occStartDate details) in
                let end_ := ICAL.toJSDate (ICAL.occEndDate details) in
                match pushEvent events (default event (ICAL.item details))
                        start end_ calendarId calendarName color
                        (Some (String_of_Z occTimeMs)) with
                | Throws _ => events
                | Returns events' =>
                    expandOccurrences event iter budget' count events'
                end
            end
      end
  end.

(** The body of the loop over the [vevent]s, with its [try]/[catch]. *)
Definition parseVEvent (events : list CalendarEvent) (vevent : ICAL.VEvent)
  : list CalendarEvent :=
  if ICAL.hasRecurrenceId vevent then events
  else
    match ICAL.event vevent with
    | Throws _ => events
    | Returns event =>
        match ICAL.startDate event with
        | None => events      (* skip events missing DTSTART *)
        | Some startDate =>
            if ICAL.isRecurring vevent
            then expandOccurrences event (ICAL.iterator vevent)
                   maxOccurrences 0 events
            else
              let start := ICAL.toJSDate startDate in
              let end_ := ICAL.toJSDate (ICAL.endDate event) in
              match pushEvent events event start end_
                      calendarId calendarName color None with
              | Throws _ => events
              | Returns events' => events'
              end
        end
    end.

Definition parseICSEvents (comp : ICAL.Component) : list CalendarEvent :=
  let events := [] in
  match ICAL.getAllSubcomponents comp with
  | Throws _ => events
  | Returns vevents => foldl parseVEvent events vevents
  end.

Definition parseICS (icsText : jsstring) : outcome (list CalendarEvent) :=
  let normalized := normalizeICSText icsText in
  (* Reject obvious non-ICS (e.g. HTML error page) *)
  if negb (Regex.test_BEGIN_VCALENDAR normalized) then
    let preview := Regex.replace_spaces (slice0 200 normalized) in
    Throws
      (lit "Response is not a calendar (expected BEGIN:VCALENDAR). "
       ++ (if startsWith (lit "<") preview
           then lit "Server may have returned HTML." else [])
       ++ lit " Preview: "
       ++ orElse (Some (slice0 80 preview)) (lit "(empty)"))
  else
    match ICAL_parse normalized with
    | Throws msg => Throws (lit "Calendar parse failed: " ++ msg)
    | Returns comp => Returns (parseICSEvents comp)
    end.

End VEvent.

End Parser.

(* ===================================================================== *)
(** * The calendar hook ([useCalendars]) *)
(* ===================================================================== *)

Record CalendarConfig := {
  cfg_id : jsstring;
  cfg_name : jsstring;
  cfg_url : jsstring;
  cfg_color : jsstring;
  refreshMinutes : option Z;
}.

(** A [Record<string, V>]: the own properties of a plain object, in the
    order of their creation.

    [get] and [set] are the accesses [o[k]] and [o[k] = v] on the own
    properties.  They are what JavaScript does for every key but the
    names of the properties of [Object.prototype] ([prototypeNames]
    below): [o[k]] finds an inherited property when [o] has none of its
    own, and [o['__proto__'] = v] creates no property.  The settings page
    draws the ids of the feeds as [Math.random().toString(36).slice(2, 11)],
    at most nine digits and lower case letters, so none of its ids is such
    a name; the theorems on [fetchAll] take that as a hypothesis
    ([plainKey]).  An object literal with a computed key,
    [{...prev, [k]: v}], creates an own property for every key. *)
Module Obj.
Section Obj.
Context {V : Type}.

(** [o[k]]. *)
Fixpoint get (o : list (jsstring * V)) (k : jsstring) : option V :=
match o with
| [] => None
| (k', v) :: r => if decide (k' = k) then Some v else get r k
end.

(** [o[k] = v], and [{...o, [k]: v}]. *)
Fixpoint set (o : list (jsstring * V)) (k : jsstring) (v : V)
: list (jsstring * V) :=
match o with
| [] => [(k, v)]
| (k', v') :: r =>
    if decide (k' = k) then (k, v) :: r else (k', v') :: set r k v
end.

(** The value of a string of decimal digits, after [acc]. *)
Fixpoint digitsValue (acc : N) (s : jsstring) : option N :=
match s with
| [] => Some acc
| c :: r =>
    if (N.leb 48 c && N.leb c 57)%bool
    then digitsValue (acc * 10 + (c - 48)) r
    else None
end.

(** ECMA-262 array index: the key is the canonical decimal numeral of an
    integer from 0 to 2^32 - 2. *)
Definition arrayIndex (k : jsstring) : option N :=
match k with
| [] => None
| [48%N] => Some 0%N
| 48%N :: _ => None
| _ =>
    match digitsValue 0 k with
    | Some n => if N.ltb n 4294967295 then Some n else None
    | None => None
    end
end.

Fixpoint insertByIndex (n : N) (kv : jsstring * V)
  (l : list (N * (jsstring * V))) : list (N * (jsstring * V)) :=
match l with
| [] => [(n, kv)]
| (m, kv') :: r =>
    if N.ltb n m then (n, kv) :: l else (m, kv') :: insertByIndex n kv r
end.

(** The properties whose key is an array index, in ascending order of
    index. *)
Fixpoint indexEntries (o : list (jsstring * V)) : list (N * (jsstring * V)) :=
match o with
| [] => []
| kv :: r =>
    match arrayIndex (fst kv) with
    | Some n => insertByIndex n kv (indexEntries r)
    | None => indexEntries r
    end
end.

(** ECMA-262 OrdinaryOwnPropertyKeys: the array indices in ascending
    order, then the other keys in the order of their creation. *)
Definition entries (o : list (jsstring * V)) : list (jsstring * V) :=
List.map snd (indexEntries o)
++ List.filter
     (fun kv => match arrayIndex (fst kv) with None => true | Some _ => false end) o.

(** [Object.values(o)]. *)
Definition values (o : list (jsstring * V)) : list V := List.map snd (entries o).

(** The own keys, in the order of their creation. *)
Definition keys (o : list (jsstring * V)) : list jsstring := List.map fst o.
End Obj.
End Obj.

(** The names of the properties of [Object.prototype], which every plain
    object inherits (ECMA-262 20.1.3 and B.2.2). *)
Definition prototypeNames : list jsstring :=
  [lit "constructor"; lit "__proto__"; lit "hasOwnProperty";
   lit "isPrototypeOf"; lit "propertyIsEnumerable"; lit "toLocaleString";
   lit "toString"; lit "valueOf"; lit "__defineGetter__";
   lit "__defineSetter__"; lit "__lookupGetter__"; lit "__lookupSetter__"].

(** A key on which a plain object inherits nothing: on such keys [Obj.get]
    and [Obj.set] are [o[k]] and [o[k] = v]. *)
Definition plainKey (k : jsstring) : Prop := k ∉ prototypeNames.

#[global] Instance plainKey_dec (k : jsstring) : Decision (plainKey k).
Proof. unfold plainKey. apply _. Defined.

(** What the relay answers to [fetch('/api/ical?url=...')]. *)
Inductive HttpResult :=
  | NetworkError (msg : jsstring)                 (* the promise rejects *)
  | Response (ok : bool) (status : Z) (text : jsstring).

(** The state of the hook that the refresh cycle writes. *)
Record HookState := {
  eventsByCalendar : list (jsstring * list CalendarEvent);
  error : option jsstring;
  loading : bool;
}.

Section Hook.

Variable LocalTZA : Z -> bool -> Z.
Variable ICAL_parse : jsstring -> outcome ICAL.Component.
Variable clock : nat -> Date.

(** The relay, as a function of the url of the feed. *)
Variable relay : jsstring -> HttpResult.

Definition fetchOneCalendar (cal : CalendarConfig)
  : outcome (list CalendarEvent) :=
  match relay (cfg_url cal) with
  | NetworkError msg => Throws msg
  | Response ok status text =>
      if negb ok then Throws (lit "HTTP " ++ String_of_Z status)
      else parseICS LocalTZA ICAL_parse clock
             (cfg_id cal) (cfg_name cal) (cfg_color cal) text
  end.

(** What a feed is to hold after a refresh cycle: the events just parsed,
    or the events it held before when its fetch or its parse failed. *)
Definition refreshed (prev : list (jsstring * list CalendarEvent))
    (cal : CalendarConfig) : list CalendarEvent :=
  match fetchOneCalendar cal with
  | Returns parsed => parsed
  | Throws _ => default [] (Obj.get prev (cfg_id cal))
  end.

(** [setError((prev) => prev ? `${prev}; ${name} failed` : `Failed: ${name}`)]. *)
Definition addError (prev : option jsstring) (name : jsstring)
  : option jsstring :=
  if truthy prev then Some (default [] prev ++ lit "; " ++ name ++ lit " failed")
  else Some (lit "Failed: " ++ name).

(** The loop of [fetchAll] over the feeds: the successful parses, and the
    error message. *)
Definition fetchStep (acc : list (jsstring * list CalendarEvent) * option jsstring)
    (cal : CalendarConfig)
  : list (jsstring * list CalendarEvent) * option jsstring :=
  let '(updates, err) := acc in
  match fetchOneCalendar cal with
  | Returns parsed => (Obj.set updates (cfg_id cal) parsed, err)
  | Throws _ => (updates, addError err (cfg_name cal))
  end.

(** The updater given to [setEventsByCalendar] at the end of [fetchAll]. *)
Definition mergeUpdates (config : list CalendarConfig)
    (updates prev : list (jsstring * list CalendarEvent))
  : list (jsstring * list CalendarEvent) :=
  foldl
    (fun next cal =>
       Obj.set next (cfg_id cal)
         (default (default [] (Obj.get prev (cfg_id cal)))
                  (Obj.get updates (cfg_id cal))))
    [] config.

(** One refresh cycle of all feeds. *)
Definition fetchAll (config : list CalendarConfig) (st : HookState)
  : HookState :=
  match config with
  | [] => {| eventsByCalendar := []; error := error st; loading := false |}
  | _ :: _ =>
      let '(updates, err) := foldl fetchStep ([], None) config in
      {| eventsByCalendar := mergeUpdates config updates (eventsByCalendar st);
         error := err;
         loading := false |}
  end.

(** The refresh of one feed, on its own timer. *)
Definition fetchCalendar (cal : CalendarConfig) (st : HookState) : HookState :=
  match fetchOneCalendar cal with
  | Returns parsed =>
      {| eventsByCalendar := Obj.set (eventsByCalendar st) (cfg_id cal) parsed;
         error := error st;
         loading := loading st |}
  | Throws _ =>
      {| eventsByCalendar := eventsByCalendar st;
         error := addError (error st) (cfg_name cal);
         loading := loading st |}
  end.

End Hook.

(** [Object.values(eventsByCalendar).flat()]. *)
Definition mergedEvents (eventsByCalendar : list (jsstring * list CalendarEvent))
  : list CalendarEvent :=
  concat (Obj.values eventsByCalendar).

(* ===================================================================== *)
(** * The recurrence cap as the specification words it *)
(* ===================================================================== *)

Section ExpanderSpec.

Variables rangeStartTime rangeEndTime : Z.
Variables calendarId calendarName color : jsstring.

(** The specification's reading of the walk: an occurrence before the
    window start is skipped and does not count against the cap of 500,
    which only the emitted occurrences use up.  [steps] bounds the number
    of occurrences examined. *)
Fixpoint expandOccurrences_spec (event : ICAL.Event) (iter : nat -> ICAL.Next)
    (steps budget count : nat) (events : list CalendarEvent)
  : list CalendarEvent :=
  match steps, budget with
  | O, _ => events
  | _, O => events
  | S steps', S budget' =>
      match iter count with
      | ICAL.Exhausted => events
      | ICAL.NextThrows => events
      | ICAL.Occurrence occ details =>
          let occTimeMs := getTime (ICAL.toJSDate occ) in
          if rangeEndTime <? occTimeMs then events
          else if occTimeMs <? rangeStartTime
          then expandOccurrences_spec event iter steps' budget (S count) events
          else
            match details with
            | Throws _ => events
            | Returns details =>
                let start := ICAL.toJSDate (ICAL.occStartDate details) in
                let end_ := ICAL.toJSDate (ICAL.occEndDate details) in
                match pushEvent events (default event (ICAL.item details))
                        start end_ calendarId calendarName color
                        (Some (String_of_Z occTimeMs)) with
                | Throws _ => events
                | Returns events' =>
                    expandOccurrences_spec event iter steps' budget' (S count)
                      events'
                end
            end
      end
  end.

End ExpanderSpec.

(* ===================================================================== *)
(** * The occurrences that the expander emits *)
(* ===================================================================== *)

(** [emittedAt ... from i ev]: [ev] is the event pushed for the occurrence
    that the call number [i] of [iter.next()] returns; that occurrence lies
    in the window, and no occurrence returned by the calls [from] to
    [i - 1] lies after the end of the window. *)
Definition emittedAt (LocalTZA : Z -> bool -> Z) (clock : nat -> Date)
    (calendarId calendarName color : jsstring)
    (event : ICAL.Event) (iter : nat -> ICAL.Next)
    (from i : nat) (ev : CalendarEvent) : Prop :=
  exists occ d,
    iter i = ICAL.Occurrence occ (Returns d)
    /\ rangeStartTime LocalTZA clock <= ICAL.toJSDate occ
       <= rangeEndTime LocalTZA clock
    /\ (forall j, (from <= j < i)%nat ->
          exists occ' d', iter j = ICAL.Occurrence occ' d'
                          /\ ICAL.toJSDate occ' <= rangeEndTime LocalTZA clock)
    /\ pushEvent [] (default event (ICAL.item d))
         (ICAL.toJSDate (ICAL.occStartDate d))
         (ICAL.toJSDate (ICAL.occEndDate d))
         calendarId calendarName color
         (Some (String_of_Z (ICAL.toJSDate occ)))
       = Returns [ev].

(* ===================================================================== *)
(** * Worked inputs *)
(* ===================================================================== *)

Module Sample.

(** A host whose local time is UTC plus a fixed offset. *)
Definition fixedZone (offset : Z) : Z -> bool -> Z := fun _ _ => offset.

Definition mkEvent (name : string) (start end_ : Date) : CalendarEvent :=
  {| ev_id := lit name; ev_title := lit name;
     ev_start := start; ev_end := end_; allDay := false;
     calendarId := lit "home"; calendarName := lit "Home";
     color := lit "#3b82f6"; location := None |}.

(** Monday 1 January 2024, 00:00. *)
Definition monday : Date := utcDate 2024 0 1 0 0.

(** Saturday 6 January 2024, 10:00 to 11:00. *)
Definition saturdayEvent : CalendarEvent :=
  mkEvent "saturday" (utcDate 2024 0 6 10 0) (utcDate 2024 0 6 11 0).

(** Monday 00:00 to Monday 00:00. *)
Definition zeroAtStart : CalendarEvent := mkEvent "zero" monday monday.

(** Sunday 23:00 to Monday 01:00. *)
Definition crossing : CalendarEvent :=
  mkEvent "crossing" (utcDate 2023 11 31 23 0) (utcDate 2024 0 1 1 0).

(** Sunday 20:00 to Tuesday 06:00. *)
Definition spanning : CalendarEvent :=
  mkEvent "spanning" (utcDate 2023 11 31 20 0) (utcDate 2024 0 2 6 0).

(** Tuesday 09:00 to 10:00. *)
Definition tuesdayEvent : CalendarEvent :=
  mkEvent "tuesday" (utcDate 2024 0 2 9 0) (utcDate 2024 0 2 10 0).

(** Three feeds; the relay fails on the second one. *)
Definition feed (id name url : string) : CalendarConfig :=
  {| cfg_id := lit id; cfg_name := lit name; cfg_url := lit url;
     cfg_color := lit "#3b82f6"; refreshMinutes := None |}.

Definition feed1 : CalendarConfig := feed "f1" "Family" "https://example.org/1.ics".
Definition feed2 : CalendarConfig := feed "f2" "School" "https://example.org/2.ics".
Definition feed3 : CalendarConfig := feed "f3" "Work" "https://example.org/3.ics".

Definition relayDown2 (url : jsstring) : HttpResult :=
  if decide (url = cfg_url feed2) then NetworkError (lit "Failed to fetch")
  else Response true 200 (lit "BEGIN:VCALENDAR" ++ [13%N; 10%N] ++ lit "END:VCALENDAR").

(** The state before the cycle: one cached event for every feed. *)
Definition cached : HookState :=
  {| eventsByCalendar :=
       [(lit "f1", [mkEvent "old1" 0 1]);
        (lit "f2", [mkEvent "old2" 0 1]);
        (lit "f3", [mkEvent "old3" 0 1])];
     error := None;
     loading := false |}.

(** The clock of a host that parses on 1 January 2024 at 12:00. *)
Definition noon2024 : nat -> Date := fun _ => utcDate 2024 0 1 12 0.

Definition timeAt (t : Date) : ICAL.Time :=
  {| ICAL.isDate := false; ICAL.toJSDate := t |}.

(** The occurrence of a series at [t], half an hour long. *)
Definition occurrenceAt (t : Date) : ICAL.Next :=
  ICAL.Occurrence (timeAt t)
    (Returns {| ICAL.item := None;
                ICAL.occStartDate := timeAt t;
                ICAL.occEndDate := timeAt (t + 1800000) |}).

(** A stand-up meeting every day at 09:00 since 1 January 2022, with no
    end. *)
Definition standup : ICAL.Event :=
  {| ICAL.summary := Some (lit "Standup");
     ICAL.uid := Some (lit "standup-1");
     ICAL.location := None;
     ICAL.startDate := Some (timeAt (utcDate 2022 0 1 9 0));
     ICAL.endDate := timeAt (utcDate 2022 0 1 9 30) |}.

Definition daily (n : nat) : ICAL.Next :=
  occurrenceAt (utcDate 2022 0 1 9 0 + Z.of_nat n * msPerDay).

Definition standupVEvent : ICAL.VEvent :=
  {| ICAL.hasRecurrenceId := false;
     ICAL.event := Returns standup;
     ICAL.isRecurring := true;
     ICAL.iterator := daily |}.

(** A class every week for ten weeks from Tuesday 2 January 2024, 18:00. *)
Definition class : ICAL.Event :=
  {| ICAL.summary := Some (lit "Class");
     ICAL.uid := Some (lit "class-7");
     ICAL.location := Some (lit "Hall");
     ICAL.startDate := Some (timeAt (utcDate 2024 0 2 18 0));
     ICAL.endDate := timeAt (utcDate 2024 0 2 18 30) |}.

Definition weekly10 (n : nat) : ICAL.Next :=
  if (n <? 10)%nat
  then occurrenceAt (utcDate 2024 0 2 18 0 + Z.of_nat n * 7 * msPerDay)
  else ICAL.Exhausted.

Definition classVEvent : ICAL.VEvent :=
  {| ICAL.hasRecurrenceId := false;
     ICAL.event := Returns class;
     ICAL.isRecurring := true;
     ICAL.iterator := weekly10 |}.

(** Two single events, a dentist appointment and its copy moved to the
    next day, that the feed gives the same UID; and an all-day event. *)
Definition single (title uid : string) (allday : bool) (start end_ : Date)
  : ICAL.VEvent :=
  {| ICAL.hasRecurrenceId := false;
     ICAL.event :=
       Returns {| ICAL.summary := Some (lit title);
                  ICAL.uid := Some (lit uid);
                  ICAL.location := None;
                  ICAL.startDate :=
                    Some {| ICAL.isDate := allday; ICAL.toJSDate := start |};
                  ICAL.endDate :=
                    {| ICAL.isDate := allday; ICAL.toJSDate := end_ |} |};
     ICAL.isRecurring := false;
     ICAL.iterator := fun _ => ICAL.Exhausted |}.

Definition dentist : ICAL.VEvent :=
  single "Dentist" "appt-42" false (utcDate 2024 0 3 15 0) (utcDate 2024 0 3 16 0).


Definition holiday : ICAL.VEvent :=
  single "Holiday" "day-1" true (utcDate 2024 0 5 0 0) (utcDate 2024 0 6 0 0).

Definition CRLF : jsstring := [13%N; 10%N].

(** A calendar whose transfer was cut before [END:VCALENDAR]. *)
Definition truncatedText : jsstring :=
  lit "BEGIN:VCALENDAR" ++ CRLF ++ lit "VERSION:2.0" ++ CRLF
  ++ lit "BEGIN:VEVENT" ++ CRLF ++ lit "UID:day-1" ++ CRLF
  ++ lit "DTSTART;VALUE=DATE:20240105" ++ CRLF ++ lit "SUMMARY:Holiday" ++ CRLF
  ++ lit "END:VEVENT" ++ CRLF.

(** The page of an HTTP error. *)
Definition htmlText : jsstring :=
  lit "<!DOCTYPE html>" ++ [10%N] ++ lit "<html><body>502 Bad Gateway</body></html>"
  ++ [10%N].

(** A stand-in for the parser of ical.js: it accepts every text and finds
    the given [vevent]s in it. *)
Definition parserFinding (vevents : list ICAL.VEvent)
  : jsstring -> outcome ICAL.Component :=
  fun _ => Returns {| ICAL.getAllSubcomponents := Returns vevents |}.

End Sample.

(* ===================================================================== *)
(** * Week navigation ([useCalendars], [App]) *)
(* ===================================================================== *)

(** ECMA-262 WeekDay: 0 is Sunday; 1 January 1970 was a Thursday. *)
Definition WeekDay (t : Z) : Z := (Day t + 4) mod 7.

Definition DAY_COUNT : Z := 5.

Section Navigation.

Variable LocalTZA : Z -> bool -> Z.

Definition getDay (d : Date) : Z := WeekDay (LocalTime LocalTZA d).

(** The Monday, at 00:00, of the week of [d] (Sunday closes the week). *)
Definition getWeekStart (d : Date) : Date :=
  let day := getDay d in
  let diff := getDate LocalTZA d - day + (if day =? 0 then -6 else 1) in
  let monday := d in
  let monday := setDate LocalTZA monday diff in
  setHours LocalTZA monday 0 0 0 0.

(** The updaters of [goToPrevWeek] and [goToNextWeek]. *)
Definition goToPrevWeek (d : Date) : Date :=
  let n := d in
  setDate LocalTZA n (getDate LocalTZA n - 7).

Definition goToNextWeek (d : Date) : Date :=
  let n := d in
  setDate LocalTZA n (getDate LocalTZA n + 7).

(** [isThisWeek] of [App]: [now] lies between the start of the first and
    the end of the last of the [DAY_COUNT] days. *)
Definition isThisWeek (now weekStart : Date) : bool :=
  let ws := weekStart in
  let ws := setHours LocalTZA ws 0 0 0 0 in
  let we := ws in
  let we := setDate LocalTZA we (getDate LocalTZA we + DAY_COUNT - 1) in
  let we := setHours LocalTZA we 23 59 59 999 in
  (ws <=? now) && (now <=? we).

End Navigation.

(** The effect of [App] that keeps the selected day inside the week shown:
    the new value of [selectedDay]. *)
Definition syncSelectedDay (weekDateKeys : list jsstring)
    (selectedDay todayKey : jsstring) : jsstring :=
  match weekDateKeys with
  | [] => selectedDay                                 (* !weekDateKeys.length *)
  | first :: _ =>
      if bool_decide (selectedDay ∈ weekDateKeys) then selectedDay
      else if bool_decide (todayKey ∈ weekDateKeys) then todayKey
      else first
  end.

(** [days.get(selectedDay) ?? []]. *)
Definition agendaEvents (days : gmap jsstring (list CalendarEvent))
    (selectedDay : jsstring) : list CalendarEvent :=
  default [] (days !! selectedDay).

(** The refresh interval of a feed, for integer numbers of minutes. *)
Definition DEFAULT_REFRESH_MINUTES : Z := 5.
Definition MIN_REFRESH : Z := 1.
Definition MAX_REFRESH : Z := 60.

Definition getRefreshMinutes (cal : CalendarConfig) : Z :=
  match refreshMinutes cal with
  | Some n => if (MIN_REFRESH <=? n) && (n <=? MAX_REFRESH) then n
              else DEFAULT_REFRESH_MINUTES
  | None => DEFAULT_REFRESH_MINUTES
  end.

(** The period, in milliseconds, of the timer of a feed. *)
Definition refreshPeriodMs (cal : CalendarConfig) : Z :=
  getRefreshMinutes cal * 60 * 1000.

(* ===================================================================== *)
(** * Lines of a text *)
(* ===================================================================== *)

(** A line holds no line break of [/\r\n|\n|\r/]. *)
Definition noLineBreak (l : jsstring) : Prop := (10%N ∉ l) /\ (13%N ∉ l).

(** The three line breaks of [/\r\n|\n|\r/]. *)
Definition isBreak (br : jsstring) : Prop :=
  br = [13%N; 10%N] \/ br = [10%N] \/ br = [13%N].

(** The test of [fixBrokenLineFolding] on a line, but for the one on the
    array: the line looks like the rest of a value that a raw line break
    cut. *)
Definition brokenLine (line : jsstring) : bool :=
  let trimmed := trimStart line in
  let isContinuation :=
    match line with
    | c :: _ => (N.eqb c 32 || N.eqb c 9)%bool
    | [] => false
    end in
  (negb (Regex.test_semicolon_or_colon trimmed) && negb isContinuation
   && (0 <? length trimmed)%nat)%bool.

(** A [vevent] that the loop of [parseICSEvents] passes over: a recurrence
    override, a record on which [new ICAL.Event] throws, or a record with
    no start. *)
Definition passedOver (vevent : ICAL.VEvent) : Prop :=
  ICAL.hasRecurrenceId vevent = true
  \/ (exists msg, ICAL.event vevent = Throws msg)
  \/ (exists event, ICAL.event vevent = Returns event
                    /\ ICAL.startDate event = None).

(** What the parser promises of an event of the feed [cid]: it names the
    feed, its title is trimmed and not empty, its location is not the empty
    string, its id starts with the id of the feed. *)
Definition wellFormedEvent (cid cname col : jsstring) (ev : CalendarEvent) : Prop :=
  calendarId ev = cid /\ calendarName ev = cname /\ color ev = col
  /\ ev_title ev <> [] /\ trim (ev_title ev) = ev_title ev
  /\ location ev <> Some []
  /\ exists rest, ev_id ev = cid ++ lit "-" ++ rest.

(** Every event kept under the id of a feed names that feed. *)
Definition storeTagged (eventsByCalendar : list (jsstring * list CalendarEvent))
  : Prop :=
  forall k l ev, (k, l) ∈ eventsByCalendar -> ev ∈ l -> calendarId ev = k.

(** No occurrence of the window among the calls [from] to [i - 1] of
    [iter.next()] raises an exception: its details are returned, and the
    event or the exception that stands for it has a start. *)
Definition noThrowBefore (LocalTZA : Z -> bool -> Z) (clock : nat -> Date)
    (calendarId calendarName color : jsstring)
    (event : ICAL.Event) (iter : nat -> ICAL.Next) (from i : nat) : Prop :=
  forall j occ details,
    (from <= j < i)%nat ->
    iter j = ICAL.Occurrence occ details ->
    rangeStartTime LocalTZA clock <= ICAL.toJSDate occ ->
    exists d e,
      details = Returns d
      /\ pushEvent [] (default event (ICAL.item d))
           (ICAL.toJSDate (ICAL.occStartDate d))
           (ICAL.toJSDate (ICAL.occEndDate d))
           calendarId calendarName color
           (Some (String_of_Z (ICAL.toJSDate occ)))
         = Returns [e].

(** The state of the hook when it is mounted:
    [useState({})], [useState(false)], [useState(null)]. *)
Definition initialHookState : HookState :=
  {| eventsByCalendar := []; error := None; loading := false |}.

(** The states that the refreshes of the hook lead to: any number of
    cycles of [fetchAll] and of timers of [fetchCalendar], each with the
    configuration, the clock and the answers of the relay of its moment.
    The ids of the feeds of a cycle of [fetchAll] are plain keys, on which
    its accesses [updates[cal.id]], [prev[cal.id]] and [next[cal.id] = ...]
    are those of [Obj]; the object literal of [fetchCalendar] needs no such
    condition. *)
Inductive reachable (LocalTZA : Z -> bool -> Z)
    (ICAL_parse : jsstring -> outcome ICAL.Component) : HookState -> Prop :=
  | reach_initial : reachable LocalTZA ICAL_parse initialHookState
  | reach_fetchAll clock relay config st :
      Forall plainKey (List.map cfg_id config) ->
      reachable LocalTZA ICAL_parse st ->
      reachable LocalTZA ICAL_parse
        (fetchAll LocalTZA ICAL_parse clock relay config st)
  | reach_fetchCalendar clock relay cal st :
      reachable LocalTZA ICAL_parse st ->
      reachable LocalTZA ICAL_parse
        (fetchCalendar LocalTZA ICAL_parse clock relay cal st).

(* ===================================================================== *)
(** * The relay of the server ([server/index.js], [/api/ical]) *)
(* ===================================================================== *)

Module Server.

(** [toLowerCase] on the ASCII letters.  No other unit lowers to one of
    the units of [webcal://], so under [startsWith('webcal://')] this is
    exact. *)
Definition lowerASCII (c : N) : N :=
  if (N.leb 65 c && N.leb c 90)%bool then (c + 32)%N else c.

(** Normalize calendar URL: webcal:// -> https:// so fetch() can use it.
    This is the function on a string; [normalizeQueryValue] below is the
    same function on any value. *)
Definition normalizeCalendarUrl (url : jsstring) : jsstring :=
  match url with
  | [] => url                                           (* !url *)
  | _ :: _ =>
      let trimmed := trim url in
      if startsWith (lit "webcal://") (List.map lowerASCII trimmed)
      then lit "https://" ++ skipn 9 trimmed
      else trimmed
  end.

(** What [req.query.url] can be when the parameter is there: a string, or
    what the query parser makes of a repeated or a bracketed parameter, an
    array or an object. *)
#[local] Set Warnings "-register-all".
Inductive QueryValue :=
  | QString (s : jsstring)
  | QArray (items : list QueryValue)
  | QObject (fields : list (jsstring * QueryValue)).
#[local] Set Warnings "register-all".

(** [!rawUrl]: the parameter is missing or the empty string; an array and
    an object are truthy. *)
Definition missing (rawUrl : option QueryValue) : bool :=
  match rawUrl with
  | None => true
  | Some (QString []) => true
  | Some _ => false
  end.

(** [normalizeCalendarUrl] on any value:
    [if (!url || typeof url !== 'string') return url]. *)
Definition normalizeQueryValue (url : QueryValue) : QueryValue :=
  match url with
  | QString s => QString (normalizeCalendarUrl s)
  | QArray _ | QObject _ => url
  end.

(** What the handler answers: a JSON error with its status, or the text
    of the calendar (status 200). *)
Inductive Reply :=
  | Json (status : Z) (error : jsstring) (detail : option jsstring)
  | Calendar (text : jsstring).

(** [/<!DOCTYPE|<\/html>/i.test(s)]. *)
Definition test_DOCTYPE_or_html (s : jsstring) : bool :=
  Regex.anywhere
    (fun u => bool_decide (is_Some (Regex.matchCI (lit "<!DOCTYPE") u))
              || bool_decide (is_Some (Regex.matchCI (lit "</html>") u))) s.

Definition detailHtml : jsstring :=
  lit "The server returned an HTML page (e.g. login or error). Use the public "
  ++ [8220%N] ++ lit "iCal" ++ [8221%N] ++ lit " or "
  ++ [8220%N] ++ lit "Calendar" ++ [8221%N]
  ++ lit " link from iCloud.com, not a page URL.".

Definition detailOther : jsstring :=
  lit "The server did not return a calendar. Use the public calendar link from your calendar provider.".

(** The handler of [GET /api/ical]; [rawUrl] is [req.query.url], and
    [fetch] is the web as the server reaches it: what [fetch(url, ...)]
    answers for the value it is given, a string or not. *)
Definition apiIcal (fetch : QueryValue -> HttpResult) (rawUrl : option QueryValue)
  : Reply :=
  match rawUrl with
  | None => Json 400 (lit "Missing url query parameter") None
  | Some raw =>
      if missing rawUrl
      then Json 400 (lit "Missing url query parameter") None
      else
        let url := normalizeQueryValue raw in
        match fetch url with
        | NetworkError msg => Json 502 (lit "Failed to fetch calendar") (Some msg)
        | Response ok status text =>
            if negb ok
            then Json 502 (lit "Failed to fetch calendar")
                   (Some (lit "HTTP " ++ String_of_Z status))
            else
              let text := stripBOM text in
              let trimmed := trim text in
              if (negb (truthy (Some trimmed))
                  || negb (Regex.test_BEGIN_VCALENDAR trimmed))%bool
              then
                let isHtml :=
                  (startsWith (lit "<") (trimStart trimmed)
                   || test_DOCTYPE_or_html trimmed)%bool in
                Json 502 (lit "Calendar URL did not return valid iCal data")
                  (Some (if isHtml then detailHtml else detailOther))
              else Calendar text
        end
  end.

End Server.

(* ===================================================================== *)
(** * More worked inputs *)
(* ===================================================================== *)

Module Cases.

(** A parser that refuses every text without the envelope of a calendar,
    and one that finds a holiday in every text. *)
Definition strictParser (text : jsstring) : outcome ICAL.Component :=
  if (Regex.test_BEGIN_VCALENDAR text && Regex.test_END_VCALENDAR_eol text)%bool
  then Returns {| ICAL.getAllSubcomponents := Returns [Sample.holiday] |}
  else Throws (lit "invalid ical body").

Definition laxParser : jsstring -> outcome ICAL.Component :=
  Sample.parserFinding [Sample.holiday].

(** Records that the parser passes over: the override of one occurrence
    of the class, a record that ical.js cannot read, a record with no
    [DTSTART]. *)
Definition override : ICAL.VEvent :=
  {| ICAL.hasRecurrenceId := true;
     ICAL.event := Returns Sample.class;
     ICAL.isRecurring := false;
     ICAL.iterator := fun _ => ICAL.Exhausted |}.

Definition unreadable : ICAL.VEvent :=
  {| ICAL.hasRecurrenceId := false;
     ICAL.event := Throws (lit "invalid component");
     ICAL.isRecurring := false;
     ICAL.iterator := fun _ => ICAL.Exhausted |}.

Definition noStart : ICAL.VEvent :=
  {| ICAL.hasRecurrenceId := false;
     ICAL.event :=
       Returns {| ICAL.summary := Some (lit "Cut");
                  ICAL.uid := Some (lit "cut-1");
                  ICAL.location := None;
                  ICAL.startDate := None;
                  ICAL.endDate := Sample.timeAt 0 |};
     ICAL.isRecurring := false;
     ICAL.iterator := fun _ => ICAL.Exhausted |}.

(** A stream of two calendars, the second of which was cut before its
    [END:VCALENDAR]. *)
Definition cutStream : jsstring :=
  lit "BEGIN:VCALENDAR" ++ Sample.CRLF ++ lit "VERSION:2.0" ++ Sample.CRLF
  ++ lit "END:VCALENDAR" ++ Sample.CRLF
  ++ lit "BEGIN:VCALENDAR" ++ Sample.CRLF ++ lit "VERSION:2.0" ++ Sample.CRLF
  ++ lit "BEGIN:VEVENT" ++ Sample.CRLF ++ lit "UID:day-1" ++ Sample.CRLF
  ++ lit "DTSTART;VALUE=DATE:20240105" ++ Sample.CRLF
  ++ lit "SUMMARY:Holiday" ++ Sample.CRLF
  ++ lit "END:VEVENT" ++ Sample.CRLF.

(** A calendar whose transfer was cut inside an event. *)
Definition cutInsideEvent : jsstring :=
  lit "BEGIN:VCALENDAR" ++ Sample.CRLF ++ lit "VERSION:2.0" ++ Sample.CRLF
  ++ lit "BEGIN:VEVENT" ++ Sample.CRLF ++ lit "UID:day-1" ++ Sample.CRLF
  ++ lit "DTSTART;VALUE=DATE:20240105" ++ Sample.CRLF.

End Cases.

(* ===================================================================== *)
(** * Properties of dates *)
(* ===================================================================== *)

Example key_2024_01_01 :
  toLocalDateKey UTCzone (utcDate 2024 0 1 0 0) = lit "2024-01-01".
Proof. vm_compute. reflexivity. Qed.

Example key_leap_day :
  toLocalDateKey UTCzone (utcDate 2024 1 29 23 59) = lit "2024-02-29".
Proof. vm_compute. reflexivity. Qed.

Example key_before_epoch :
  toLocalDateKey UTCzone (utcDate 1969 11 31 12 0) = lit "1969-12-31".
Proof. vm_compute. reflexivity. Qed.

Example key_century :
  toLocalDateKey UTCzone (utcDate 2100 2 1 0 0) = lit "2100-03-01".
Proof. vm_compute. reflexivity. Qed.

Example key_east_of_utc :
  toLocalDateKey (Sample.fixedZone 3600000) (utcDate 2024 0 1 23 30)
  = lit "2024-01-02".
Proof. vm_compute. reflexivity. Qed.

(** The year functions agree with their definition in ECMA-262: a year
    has [DaysInYear] days, and [YearFromTime t] is the year that holds the
    day of [t]. *)
Lemma DayFromYear_succ y : DayFromYear (y + 1) = DayFromYear y + DaysInYear y.
Proof.
  unfold DayFromYear, DaysInYear.
  destruct (Z.eqb_spec (y mod 4) 0); simpl;
  [destruct (Z.eqb_spec (y mod 100) 0); simpl;
   [destruct (Z.eqb_spec (y mod 400) 0); simpl|]|];
  Z.to_euclidean_division_equations; lia.
Qed.

Lemma YearFromTime_spec t :
  DayFromYear (YearFromTime t) <= Day t < DayFromYear (YearFromTime t + 1).
Proof.
  unfold YearFromTime. generalize (Day t). intros d.
  set (y := 1970 + d * 400 / 146097).
  destruct (Z.ltb_spec d (DayFromYear y));
    [|destruct (Z.leb_spec (DayFromYear (y + 1)) d)];
    unfold DayFromYear in *; subst y;
    Z.to_euclidean_division_equations; lia.
Qed.

Lemma DayWithinYear_range t :
  0 <= DayWithinYear t < DaysInYear (YearFromTime t).
Proof.
  unfold DayWithinYear. pose proof (YearFromTime_spec t) as H.
  rewrite DayFromYear_succ in H. lia.
Qed.

Lemma DateFromTime_range t : 1 <= DateFromTime t <= 31.
Proof.
  pose proof (DayWithinYear_range t) as H.
  unfold DateFromTime, MonthFromTime, InLeapYear, monthStart.
  destruct (Z.eqb_spec (DaysInYear (YearFromTime t)) 366) as [E|E].
  - rewrite E in H.
    repeat match goal with
           | |- context [?a <? ?b] => destruct (Z.ltb_spec a b); simpl
           end; lia.
  - assert (DaysInYear (YearFromTime t) = 365).
    { revert E. unfold DaysInYear.
      repeat match goal with |- context [if ?b then _ else _] => destruct b end;
        lia. }
    repeat match goal with
           | |- context [?a <? ?b] => destruct (Z.ltb_spec a b); simpl
           end; lia.
Qed.

Lemma MonthFromTime_range t : 0 <= MonthFromTime t <= 11.
Proof.
  unfold MonthFromTime.
  repeat match goal with |- context [if ?b then _ else _] => destruct b end; lia.
Qed.

(** The day of the month is counted from the first day of the month that
    [MakeDay] starts from: moving the date by [n] moves the day by [n]. *)
Lemma MakeDay_shift t n :
  MakeDay (YearFromTime t) (MonthFromTime t) (DateFromTime t + n) = Day t + n.
Proof.
  pose proof (MonthFromTime_range t) as Hm.
  unfold MakeDay, DateFromTime, DayWithinYear, InLeapYear.
  rewrite (Z.div_small (MonthFromTime t) 12) by lia.
  rewrite (Z.mod_small (MonthFromTime t) 12) by lia.
  rewrite Z.add_0_r. lia.
Qed.

Section FixedZone.

Variable offset : Z.
Let tz := Sample.fixedZone offset.

Lemma Day_MakeDate d time :
  0 <= time < msPerDay -> Day (MakeDate d time) = d.
Proof.
  intros Ht. unfold Day, MakeDate.
  rewrite Z.add_comm, Z.div_add by (unfold msPerDay; lia).
  rewrite Z.div_small by lia. lia.
Qed.

Lemma TimeWithinDay_range t : 0 <= TimeWithinDay t < msPerDay.
Proof. unfold TimeWithinDay. apply Z.mod_pos_bound. unfold msPerDay. lia. Qed.

(** In a zone with a fixed offset, [d.setDate(d.getDate() + n)] keeps the
    time of day and moves the local day by [n]. *)
Lemma setDate_getDate_fixed d n :
  setDate tz d (getDate tz d + n)
  = MakeDate (Day (d + offset) + n) (TimeWithinDay (d + offset)) - offset.
Proof.
  unfold setDate, getDate, UTC, LocalTime, tz, Sample.fixedZone.
  rewrite MakeDay_shift. reflexivity.
Qed.

Lemma startOfDay_fixed d :
  startOfDay tz d = MakeDate (Day (d + offset)) 0 - offset.
Proof. reflexivity. Qed.

(** The end of the week window is the last millisecond of the local day
    that comes [WEEKDAY_COUNT] days after the start: the sixth day of the
    window. *)
Lemma endOfWeekdays_fixed d :
  endOfWeekdays tz (startOfDay tz d)
  = MakeDate (Day (d + offset) + 5) (MakeTime 23 59 59 999) - offset.
Proof.
  unfold endOfWeekdays. rewrite setDate_getDate_fixed.
  unfold setHours, UTC, LocalTime, tz, Sample.fixedZone.
  rewrite startOfDay_fixed.
  replace (MakeDate (Day (d + offset)) 0 - offset + offset)
    with (MakeDate (Day (d + offset)) 0) by lia.
  rewrite Day_MakeDate by (unfold msPerDay; lia).
  replace (MakeDate (Day (d + offset) + WEEKDAY_COUNT)
             (TimeWithinDay (MakeDate (Day (d + offset)) 0)) - offset + offset)
    with (MakeDate (Day (d + offset) + WEEKDAY_COUNT)
             (TimeWithinDay (MakeDate (Day (d + offset)) 0))) by lia.
  rewrite Day_MakeDate by apply TimeWithinDay_range.
  reflexivity.
Qed.

End FixedZone.

(* ===================================================================== *)
(** * Properties of the week bucketizer *)
(* ===================================================================== *)

Lemma insertByStart_Permutation ev l : insertByStart ev l ≡ₚ ev :: l.
Proof.
  induction l as [|x r IH]; simpl; [reflexivity|].
  destruct (ev_start ev - ev_start x <=? 0); [reflexivity|].
  rewrite IH. apply Permutation_swap.
Qed.

Lemma sortByStart_Permutation l : sortByStart l ≡ₚ l.
Proof.
  induction l as [|x r IH]; simpl; [reflexivity|].
  rewrite insertByStart_Permutation, IH. reflexivity.
Qed.

Lemma elem_of_sortByStart ev l : ev ∈ sortByStart l ↔ ev ∈ l.
Proof. rewrite sortByStart_Permutation. reflexivity. Qed.

Lemma insertByStart_sorted ev l :
  StronglySorted (fun a b => ev_start a <= ev_start b) l ->
  StronglySorted (fun a b => ev_start a <= ev_start b) (insertByStart ev l).
Proof.
  induction 1 as [|x r Hr IH Hx]; simpl.
  - repeat constructor.
  - destruct (Z.leb_spec (ev_start ev - ev_start x) 0) as [Hle|Hgt].
    + constructor; [constructor; assumption|].
      constructor; [lia|].
      eapply Forall_impl; [exact Hx|]. simpl. intros; lia.
    + constructor; [assumption|].
      rewrite insertByStart_Permutation. constructor; [lia|assumption].
Qed.

(** Within a bucket the events are in ascending order of start. *)
Lemma sortByStart_sorted l :
  StronglySorted (fun a b => ev_start a <= ev_start b) (sortByStart l).
Proof.
  induction l as [|x r IH]; simpl; [constructor|].
  apply insertByStart_sorted, IH.
Qed.

Section BucketizerFacts.

Variable LocalTZA : Z -> bool -> Z.

Abbreviation dayKeyOf := (fun ev => toLocalDateKey LocalTZA (ev_start ev)).

(** The range filter, as a predicate on one event. *)
Lemma elem_of_filterEventsForWeek (events : list CalendarEvent) weekStart ev :
  ev ∈ filterEventsForWeek LocalTZA events weekStart ↔
  ev ∈ events
  ∧ startOfDay LocalTZA weekStart < ev_end ev
  ∧ ev_start ev < endOfWeekdays LocalTZA (startOfDay LocalTZA weekStart).
Proof.
  unfold filterEventsForWeek, getTime.
  rewrite list_elem_of_In, filter_In, <- list_elem_of_In.
  rewrite andb_true_iff, !Z.ltb_lt. tauto.
Qed.

Lemma emptyBuckets_from_lookup (m : gmap jsstring (list CalendarEvent))
    (dateKeys : list jsstring) (k : jsstring) :
  foldl (fun m key => <[key := []]> m) m dateKeys !! k
  = if decide (k ∈ dateKeys) then Some [] else m !! k.
Proof.
  revert m. induction dateKeys as [|key keys IH]; intros m; cbn [foldl].
  - rewrite decide_False by (apply not_elem_of_nil). reflexivity.
  - rewrite IH. destruct (decide (k ∈ keys)) as [Hin|Hnin].
    + rewrite decide_True by (right; exact Hin). reflexivity.
    + destruct (decide (key = k)) as [->|Hne].
      * rewrite decide_True by left. apply lookup_insert_eq.
      * rewrite decide_False by (rewrite elem_of_cons; intros [?|?]; congruence).
        apply lookup_insert_ne. exact Hne.
Qed.

Lemma emptyBuckets_lookup (dateKeys : list jsstring) (k : jsstring) :
  emptyBuckets dateKeys !! k = if decide (k ∈ dateKeys) then Some [] else None.
Proof. unfold emptyBuckets. rewrite emptyBuckets_from_lookup. reflexivity. Qed.

Lemma placeEvent_lookup (m : gmap jsstring (list CalendarEvent))
    (ev : CalendarEvent) (k : jsstring) :
  placeEvent LocalTZA m ev !! k
  = (fun arr => arr ++ filter (fun e => dayKeyOf e = k) [ev]) <$> (m !! k).
Proof.
  unfold placeEvent.
  destruct (decide (dayKeyOf ev = k)) as [Hk|Hk].
  - rewrite Hk. destruct (m !! k) as [arr|] eqn:Hm; simpl.
    + rewrite lookup_insert_eq. f_equal. f_equal.
      rewrite filter_cons_True by exact Hk. reflexivity.
    + exact Hm.
  - assert (Hf : filter (fun e => dayKeyOf e = k) [ev] = [])
      by (rewrite filter_cons_False by exact Hk; reflexivity).
    rewrite Hf.
    destruct (m !! toLocalDateKey LocalTZA (ev_start ev)) as [arr|].
    + rewrite lookup_insert_ne by exact Hk.
      destruct (m !! k); simpl; [rewrite app_nil_r|]; reflexivity.
    + destruct (m !! k); simpl; [rewrite app_nil_r|]; reflexivity.
Qed.

Lemma placeEvents_lookup (events : list CalendarEvent)
    (m : gmap jsstring (list CalendarEvent))
    (k : jsstring) :
  foldl (placeEvent LocalTZA) m events !! k
  = (fun arr => arr ++ filter (fun e => dayKeyOf e = k) events) <$> (m !! k).
Proof.
  revert m. induction events as [|ev events IH]; intros m; simpl.
  - destruct (m !! k); simpl; [rewrite app_nil_r|]; reflexivity.
  - rewrite IH, placeEvent_lookup.
    destruct (m !! k) as [arr|]; simpl; [|reflexivity].
    f_equal. rewrite <- app_assoc. f_equal.
    destruct (decide (dayKeyOf ev = k)) as [Hk|Hk].
    + rewrite !filter_cons_True by exact Hk. reflexivity.
    + rewrite !filter_cons_False by exact Hk. reflexivity.
Qed.

(** Every bucket of [groupEventsByDay], in closed form: a requested key
    holds the events that start on that day, sorted; any other key is
    absent. *)
Lemma groupEventsByDay_lookup (events : list CalendarEvent)
    (dateKeys : list jsstring) (k : jsstring) :
  groupEventsByDay LocalTZA events dateKeys !! k
  = if decide (k ∈ dateKeys)
    then Some (sortByStart (filter (fun e => dayKeyOf e = k) events))
    else None.
Proof.
  unfold groupEventsByDay.
  rewrite lookup_fmap, placeEvents_lookup, emptyBuckets_lookup.
  destruct (decide (k ∈ dateKeys)); reflexivity.
Qed.

End BucketizerFacts.

(** C10. The map returned by [groupEventsByDay] has exactly the requested
    date keys as its keys: every requested key is present (with a possibly
    empty array), no other key is, and every element of a bucket is an
    input event whose start falls, in local time, on the day of the
    bucket. *)
Theorem groupEventsByDay_keys_and_buckets (LocalTZA : Z -> bool -> Z)
    (events : list CalendarEvent) (dateKeys : list jsstring) :
  dom (groupEventsByDay LocalTZA events dateKeys)
    = (list_to_set dateKeys : gset jsstring)
  ∧ (∀ k : jsstring, k ∈ dateKeys ->
       is_Some (groupEventsByDay LocalTZA events dateKeys !! k))
  ∧ (∀ k : jsstring, k ∉ dateKeys ->
       groupEventsByDay LocalTZA events dateKeys !! k = None)
  ∧ (∀ (k : jsstring) bucket ev,
       groupEventsByDay LocalTZA events dateKeys !! k = Some bucket ->
       ev ∈ bucket ->
       ev ∈ events ∧ toLocalDateKey LocalTZA (ev_start ev) = k).
Proof.
  repeat split.
  - apply set_eq. intros k.
    rewrite elem_of_dom, groupEventsByDay_lookup, elem_of_list_to_set.
    destruct (decide (k ∈ dateKeys)) as [Hin|Hnin].
    + split; [intros _; exact Hin | intros _; eexists; reflexivity].
    + split; [intros [x Hx]; discriminate | intros Hin; contradiction].
  - intros k Hin. rewrite groupEventsByDay_lookup, decide_True by exact Hin.
    eexists; reflexivity.
  - intros k Hnin. rewrite groupEventsByDay_lookup, decide_False by exact Hnin.
    reflexivity.
  - rewrite groupEventsByDay_lookup in H.
    destruct (decide (k ∈ dateKeys)); [|discriminate].
    injection H as <-. rewrite elem_of_sortByStart in H0.
    apply list_elem_of_filter in H0. tauto.
  - rewrite groupEventsByDay_lookup in H.
    destruct (decide (k ∈ dateKeys)); [|discriminate].
    injection H as <-. rewrite elem_of_sortByStart in H0.
    apply list_elem_of_filter in H0. tauto.
Qed.

Lemma groupEventsByDay_keys_and_buckets_witness :
  dom (groupEventsByDay UTCzone [Sample.tuesdayEvent; Sample.spanning]
         (getWeekDateKeys UTCzone Sample.monday))
    = (list_to_set (getWeekDateKeys UTCzone Sample.monday) : gset jsstring)
  ∧ groupEventsByDay UTCzone [Sample.tuesdayEvent; Sample.spanning]
      (getWeekDateKeys UTCzone Sample.monday) !! lit "2024-01-02"
    = Some [Sample.tuesdayEvent]
  ∧ groupEventsByDay UTCzone [Sample.tuesdayEvent; Sample.spanning]
      (getWeekDateKeys UTCzone Sample.monday) !! lit "2024-01-05"
    = Some []
  ∧ groupEventsByDay UTCzone [Sample.tuesdayEvent; Sample.spanning]
      (getWeekDateKeys UTCzone Sample.monday) !! lit "2023-12-31"
    = None.
Proof.
  destruct (groupEventsByDay_keys_and_buckets UTCzone
              [Sample.tuesdayEvent; Sample.spanning]
              (getWeekDateKeys UTCzone Sample.monday)) as (Hdom & _ & Hout & _).
  split; [exact Hdom|].
  split; [vm_compute; reflexivity|].
  split; [vm_compute; reflexivity|].
  apply Hout. apply (bool_decide_unpack _). vm_compute. exact I.
Defined.

(** C3. An event that passes the week range filter but whose start falls,
    in local time, on a day that is not among the requested date keys is in
    no bucket of [groupEventsByDay], although it is in the filtered list. *)
Theorem groupEventsByDay_omits_foreign_start (LocalTZA : Z -> bool -> Z)
    (events : list CalendarEvent) (weekStart : Date)
    (dateKeys : list jsstring) (ev : CalendarEvent) :
  ev ∈ filterEventsForWeek LocalTZA events weekStart ->
  toLocalDateKey LocalTZA (ev_start ev) ∉ dateKeys ->
  ∀ (k : jsstring) bucket,
    groupEventsByDay LocalTZA (filterEventsForWeek LocalTZA events weekStart)
      dateKeys !! k = Some bucket ->
    ev ∉ bucket.
Proof.
  intros _ Hkey k bucket Hk Hin.
  rewrite groupEventsByDay_lookup in Hk.
  destruct (decide (k ∈ dateKeys)) as [Hkin|]; [|discriminate].
  injection Hk as <-. rewrite elem_of_sortByStart in Hin.
  apply list_elem_of_filter in Hin. destruct Hin as [Heq _].
  apply Hkey. rewrite Heq. exact Hkin.
Qed.

(** The scenario of the specification: Sunday 20:00 to Tuesday 06:00 in the
    window that starts on Monday 1 January 2024. *)
Lemma groupEventsByDay_omits_foreign_start_witness :
  Sample.spanning
    ∈ filterEventsForWeek UTCzone [Sample.spanning; Sample.tuesdayEvent]
        Sample.monday
  ∧ toLocalDateKey UTCzone (ev_start Sample.spanning) = lit "2023-12-31"
  ∧ ∀ (k : jsstring) bucket,
      groupEventsByDay UTCzone
        (filterEventsForWeek UTCzone [Sample.spanning; Sample.tuesdayEvent]
           Sample.monday)
        (getWeekDateKeys UTCzone Sample.monday) !! k = Some bucket ->
      Sample.spanning ∉ bucket.
Proof.
  split; [apply (bool_decide_unpack _); vm_compute; exact I|].
  split; [vm_compute; reflexivity|].
  apply groupEventsByDay_omits_foreign_start.
  - apply (bool_decide_unpack _). vm_compute. exact I.
  - apply (bool_decide_unpack _). vm_compute. exact I.
Defined.

(** The two boundary cases of the week filter. *)
Example filterEventsForWeek_zero_duration_at_start :
  filterEventsForWeek UTCzone [Sample.zeroAtStart] Sample.monday = [].
Proof. vm_compute. reflexivity. Qed.

Example filterEventsForWeek_crossing_into_window :
  filterEventsForWeek UTCzone [Sample.crossing] Sample.monday = [Sample.crossing].
Proof. vm_compute. reflexivity. Qed.

(** C2. The window of [filterEventsForWeek] ends at 23:59:59.999 of the day
    that comes [WEEKDAY_COUNT] = 5 days after the start, which is the sixth
    day (Saturday), not the fifth: in the week of Monday 1 January 2024 an
    event on Saturday 6 January from 10:00 to 11:00 is kept, although its
    day is none of the five date keys of the week. *)
Theorem filterEventsForWeek_keeps_saturday :
  filterEventsForWeek UTCzone [Sample.saturdayEvent] Sample.monday
    = [Sample.saturdayEvent]
  ∧ endOfWeekdays UTCzone (startOfDay UTCzone Sample.monday)
    = utcDate 2024 0 6 23 59 + 59999
  ∧ utcDate 2024 0 5 23 59 + 59999 < ev_start Sample.saturdayEvent
  ∧ getWeekDateKeys UTCzone Sample.monday
    = [lit "2024-01-01"; lit "2024-01-02"; lit "2024-01-03";
       lit "2024-01-04"; lit "2024-01-05"]
  ∧ toLocalDateKey UTCzone (ev_start Sample.saturdayEvent) = lit "2024-01-06".
Proof. vm_compute. repeat split; reflexivity. Qed.

(* ===================================================================== *)
(** * Properties of strings *)
(* ===================================================================== *)

Lemma lit_inj s1 s2 : lit s1 = lit s2 -> s1 = s2.
Proof.
  unfold lit. intros H.
  rewrite <- (string_of_list_ascii_of_string s1),
          <- (string_of_list_ascii_of_string s2).
  f_equal.
  revert H. generalize (list_ascii_of_string s1) (list_ascii_of_string s2).
  induction l as [|a l IH]; intros [|b l'] H; simpl in H; try discriminate.
  - reflexivity.
  - injection H as Hab Hl. f_equal; [|apply IH; exact Hl].
    rewrite <- (ascii_N_embedding a), <- (ascii_N_embedding b), Hab.
    reflexivity.
Qed.

Lemma Z_to_int_proper n : Z.to_int n <> Pos Nil /\ Z.to_int n <> Neg Nil.
Proof.
  split; intros H; pose proof (DecimalZ.of_to n) as Hn; rewrite H in Hn;
    simpl in Hn; subst n; discriminate H.
Qed.

(** [String(n)] tells integers apart. *)
Lemma String_of_Z_inj n1 n2 : String_of_Z n1 = String_of_Z n2 -> n1 = n2.
Proof.
  unfold String_of_Z. intros H. apply lit_inj in H.
  apply DecimalZ.to_int_inj.
  destruct (Z_to_int_proper n1) as [Hp1 Hn1].
  destruct (Z_to_int_proper n2) as [Hp2 Hn2].
  pose proof (NilZero.isi _ Hp1 Hn1) as H1.
  pose proof (NilZero.isi _ Hp2 Hn2) as H2.
  rewrite H in H1. rewrite H1 in H2. injection H2 as ->. reflexivity.
Qed.


(* ===================================================================== *)
(** * Properties of the parser and of the recurrence expander *)
(* ===================================================================== *)

Section ParserFacts.

Variable LocalTZA : Z -> bool -> Z.
Variable clock : nat -> Date.
Variables cid cname col : jsstring.

Abbreviation rangeStart := (rangeStartTime LocalTZA clock).
Abbreviation rangeEnd := (rangeEndTime LocalTZA clock).
Abbreviation expand := (expandOccurrences LocalTZA clock cid cname col).
Abbreviation parseOne := (parseVEvent LocalTZA clock cid cname col).

(** [pushEvent] appends one event, which does not depend on the array. *)
Lemma pushEvent_app events event start end_ occurrenceId :
  pushEvent events event start end_ cid cname col occurrenceId
  = match pushEvent [] event start end_ cid cname col occurrenceId with
    | Returns l => Returns (events ++ l)
    | Throws msg => Throws msg
    end.
Proof. unfold pushEvent. destruct (ICAL.startDate event); reflexivity. Qed.

Lemma pushEvent_single event start end_ occurrenceId l :
  pushEvent [] event start end_ cid cname col occurrenceId = Returns l ->
  exists ev, l = [ev].
Proof.
  unfold pushEvent. destruct (ICAL.startDate event); [|discriminate].
  intros [= <-]. eexists; reflexivity.
Qed.


Lemma pushEvent_fields event start end_ occurrenceId ev :
  pushEvent [] event start end_ cid cname col occurrenceId = Returns [ev] ->
  ev_start ev = start /\ ev_end ev = end_
  /\ calendarId ev = cid /\ calendarName ev = cname /\ color ev = col
  /\ exists startDate, ICAL.startDate event = Some startDate
                       /\ allDay ev = ICAL.isDate startDate.
Proof.
  unfold pushEvent. destruct (ICAL.startDate event) as [sd|]; [|discriminate].
  intros [= <-]. simpl. repeat split. exists sd. split; reflexivity.
Qed.

(** The loop only appends to the array it is given. *)
Lemma expandOccurrences_app event iter budget count events :
  expand event iter budget count events
  = events ++ expand event iter budget count [].
Proof.
  revert count events.
  induction budget as [|b IH]; intros count events; simpl.
  - rewrite app_nil_r. reflexivity.
  - destruct (iter count) as [occ details| |]; try (rewrite app_nil_r; reflexivity).
    destruct (rangeEnd <? getTime (ICAL.toJSDate occ));
      [rewrite app_nil_r; reflexivity|].
    destruct (getTime (ICAL.toJSDate occ) <? rangeStart); [apply IH|].
    destruct details as [d|msg]; [|rewrite app_nil_r; reflexivity].
    rewrite pushEvent_app.
    destruct (pushEvent [] _ _ _ _ _ _ _) as [l|msg] eqn:Hpush;
      [|rewrite app_nil_r; reflexivity].
    rewrite (IH (S count) (events ++ l)), (IH (S count) l).
    rewrite app_assoc. reflexivity.
Qed.

(** What the loop emits from the call number [count] on, with [budget]
    calls left: at most [budget] events, each one pushed for an occurrence
    in the window that one of these calls returned. *)
Lemma expandOccurrences_emitted event iter budget count :
  (length (expand event iter budget count []) <= budget)%nat
  /\ Forall
       (fun ev => exists i, (count <= i < count + budget)%nat
                  /\ emittedAt LocalTZA clock cid cname col event iter count i ev)
       (expand event iter budget count []).
Proof.
  revert count. induction budget as [|b IH]; intros count; simpl.
  - split; [lia|constructor].
  - destruct (iter count) as [occ details| |] eqn:Hiter;
      try (split; [simpl; lia|constructor]).
    unfold getTime.
    destruct (Z.ltb_spec rangeEnd (ICAL.toJSDate occ)) as [Hafter|Hend];
      [split; [simpl; lia|constructor]|].
    assert (Hprev : forall i ev,
               emittedAt LocalTZA clock cid cname col event iter (S count) i ev ->
               emittedAt LocalTZA clock cid cname col event iter count i ev).
    { intros i ev (occ' & d' & Hi & Hwin & Hbefore & Hpush).
      exists occ', d'. repeat split; try assumption; try apply Hwin.
      intros j Hj. destruct (decide (j = count)) as [->|Hne].
      - exists occ, details. split; assumption.
      - apply Hbefore. lia. }
    destruct (Z.ltb_spec (ICAL.toJSDate occ) rangeStart) as [Hbefore|Hstart].
    + destruct (IH (S count)) as [Hlen Hall]. split; [lia|].
      eapply Forall_impl; [exact Hall|]. simpl.
      intros ev (i & Hi & Hem). exists i. split; [lia|]. apply Hprev, Hem.
    + destruct details as [d|msg]; [|split; [simpl; lia|constructor]].
      destruct (pushEvent [] _ _ _ _ _ _ _) as [l|msg] eqn:Hpush;
        [|split; [simpl; lia|constructor]].
      destruct (pushEvent_single _ _ _ _ _ Hpush) as [ev ->].
      rewrite expandOccurrences_app.
      destruct (IH (S count)) as [Hlen Hall]. split; [simpl; lia|].
      simpl. constructor.
      * exists count. split; [lia|]. exists occ, d.
        repeat split; try assumption. intros j Hj. lia.
      * eapply Forall_impl; [exact Hall|]. simpl.
        intros ev' (i & Hi & Hem). exists i. split; [lia|]. apply Hprev, Hem.
Qed.

(** A [vevent] only appends to the array. *)
Lemma parseVEvent_app events vevent :
  parseOne events vevent = events ++ parseOne [] vevent.
Proof.
  unfold parseVEvent.
  destruct (ICAL.hasRecurrenceId vevent); [rewrite app_nil_r; reflexivity|].
  destruct (ICAL.event vevent) as [event|msg]; [|rewrite app_nil_r; reflexivity].
  destruct (ICAL.startDate event) as [sd|] eqn:Hsd;
    [|rewrite app_nil_r; reflexivity].
  destruct (ICAL.isRecurring vevent); [apply expandOccurrences_app|].
  rewrite pushEvent_app.
  destruct (pushEvent [] _ _ _ _ _ _ _); [reflexivity|].
  rewrite app_nil_r. reflexivity.
Qed.

Lemma foldl_parseVEvent events vevents :
  foldl parseOne events vevents
  = events ++ concat (List.map (parseOne []) vevents).
Proof.
  revert events. induction vevents as [|v vs IH]; intros events; simpl.
  - rewrite app_nil_r. reflexivity.
  - rewrite IH, parseVEvent_app, app_assoc. reflexivity.
Qed.

End ParserFacts.

(** In a zone with a fixed offset the window runs from 7 days before the
    second reading of the clock to 90 days after the first one. *)
Lemma MakeDate_shift_days d n :
  MakeDate (Day d + n) (TimeWithinDay d) = d + n * msPerDay.
Proof.
  unfold MakeDate, Day, TimeWithinDay.
  pose proof (Z.div_mod d msPerDay ltac:(unfold msPerDay; lia)). lia.
Qed.

Lemma rangeStartTime_fixed (offset : Z) (clock : nat -> Date) :
  rangeStartTime (Sample.fixedZone offset) clock
  = clock 1%nat - 7 * msPerDay.
Proof.
  unfold rangeStartTime, getTime, RECURRENCE_EXPAND_DAYS_PAST.
  replace (getDate (Sample.fixedZone offset) (clock 1%nat) - 7)
    with (getDate (Sample.fixedZone offset) (clock 1%nat) + -7) by lia.
  rewrite setDate_getDate_fixed, MakeDate_shift_days. lia.
Qed.

Lemma rangeEndTime_fixed (offset : Z) (clock : nat -> Date) :
  rangeEndTime (Sample.fixedZone offset) clock
  = clock 0%nat + 90 * msPerDay.
Proof.
  unfold rangeEndTime, getTime, RECURRENCE_EXPAND_DAYS_FUTURE.
  rewrite setDate_getDate_fixed, MakeDate_shift_days. lia.
Qed.

(** X25. For a recurring [vevent] the expander appends at most 500
    events, each of them pushed for an occurrence whose time lies in the
    window from [rangeStartTime] to [rangeEndTime] (now - 7 days to
    now + 90 days); the occurrence is one of the first 500 that the walk
    returns, and no occurrence before it lies after the end of the
    window. *)
Theorem recurring_expansion_window_and_cap (LocalTZA : Z -> bool -> Z)
    (clock : nat -> Date) (cid cname col : jsstring)
    (events : list CalendarEvent) (vevent : ICAL.VEvent) :
  ICAL.isRecurring vevent = true ->
  exists out,
    parseVEvent LocalTZA clock cid cname col events vevent = events ++ out
    /\ (length out <= maxOccurrences)%nat
    /\ Forall
         (fun ev =>
            exists event i,
              ICAL.event vevent = Returns event
              /\ (i < maxOccurrences)%nat
              /\ emittedAt LocalTZA clock cid cname col event
                   (ICAL.iterator vevent) 0 i ev)
         out.
Proof.
  intros Hrec.
  exists (parseVEvent LocalTZA clock cid cname col [] vevent).
  split; [apply parseVEvent_app|].
  unfold parseVEvent. rewrite Hrec.
  destruct (ICAL.hasRecurrenceId vevent); [split; [simpl; lia|constructor]|].
  destruct (ICAL.event vevent) as [event|msg]; [|split; [simpl; lia|constructor]].
  destruct (ICAL.startDate event); [|split; [simpl; lia|constructor]].
  destruct (expandOccurrences_emitted LocalTZA clock cid cname col event
              (ICAL.iterator vevent) maxOccurrences 0) as [Hlen Hall].
  split; [exact Hlen|].
  eapply Forall_impl; [exact Hall|]. simpl.
  intros ev (i & Hi & Hem). exists event, i.
  split; [reflexivity|]. split; [lia|exact Hem].
Qed.

Lemma recurring_expansion_window_and_cap_witness :
  exists out,
    parseVEvent UTCzone Sample.noon2024 (lit "home") (lit "Home") (lit "#3b82f6")
      [] Sample.classVEvent = [] ++ out
    /\ (length out <= maxOccurrences)%nat
    /\ Forall
         (fun ev =>
            exists event i,
              ICAL.event Sample.classVEvent = Returns event
              /\ (i < maxOccurrences)%nat
              /\ emittedAt UTCzone Sample.noon2024 (lit "home") (lit "Home")
                   (lit "#3b82f6") event (ICAL.iterator Sample.classVEvent) 0 i ev)
         out.
Proof.
  apply (recurring_expansion_window_and_cap UTCzone Sample.noon2024
           (lit "home") (lit "Home") (lit "#3b82f6") [] Sample.classVEvent).
  reflexivity.
Defined.

(** Ten weekly occurrences inside the window give ten events. *)
Example weekly_class_ten_events :
  length (parseVEvent UTCzone Sample.noon2024 (lit "home") (lit "Home")
            (lit "#3b82f6") [] Sample.classVEvent) = 10%nat.
Proof. vm_compute. reflexivity. Qed.

(** C1. The code departs from the claim: [count++] runs before the test
    that skips an occurrence before the window start, so the skipped
    occurrences count against the cap of 500.  A daily series that started
    on 1 January 2022, parsed on 1 January 2024, has its first 500
    occurrences before the window start: the code emits nothing, where the
    walk of the claim, which does not count the skipped occurrences, emits
    the 97 occurrences of the window. *)
Lemma recurrence_cap_counts_skipped_occurrences :
  parseVEvent UTCzone Sample.noon2024 (lit "home") (lit "Home") (lit "#3b82f6")
    [] Sample.standupVEvent = []
  /\ length
       (expandOccurrences_spec
          (rangeStartTime UTCzone Sample.noon2024)
          (rangeEndTime UTCzone Sample.noon2024)
          (lit "home") (lit "Home") (lit "#3b82f6")
          Sample.standup Sample.daily 1000 maxOccurrences 0 []) = 97%nat
  /\ parseVEvent UTCzone Sample.noon2024 (lit "home") (lit "Home") (lit "#3b82f6")
       [] Sample.standupVEvent
     <> expandOccurrences_spec
          (rangeStartTime UTCzone Sample.noon2024)
          (rangeEndTime UTCzone Sample.noon2024)
          (lit "home") (lit "Home") (lit "#3b82f6")
          Sample.standup Sample.daily 1000 maxOccurrences 0 [].
Proof.
  assert (H0 : parseVEvent UTCzone Sample.noon2024 (lit "home") (lit "Home")
                 (lit "#3b82f6") [] Sample.standupVEvent = [])
    by (vm_compute; reflexivity).
  assert (H97 : length
       (expandOccurrences_spec
          (rangeStartTime UTCzone Sample.noon2024)
          (rangeEndTime UTCzone Sample.noon2024)
          (lit "home") (lit "Home") (lit "#3b82f6")
          Sample.standup Sample.daily 1000 maxOccurrences 0 []) = 97%nat)
    by (vm_compute; reflexivity).
  split; [exact H0|]. split; [exact H97|].
  rewrite H0. intros Heq. rewrite <- Heq in H97. discriminate H97.
Qed.

Section SeriesIds.

Variable LocalTZA : Z -> bool -> Z.
Variable clock : nat -> Date.
Variables cid cname col : jsstring.
Variable event : ICAL.Event.
Variable iter : nat -> ICAL.Next.
Variable u : jsstring.

Hypothesis event_uid : ICAL.uid event = Some u.
Hypothesis uid_nonempty : u <> [].
Hypothesis items_share_uid :
  forall i occ d x,
    iter i = ICAL.Occurrence occ (Returns d) ->
    ICAL.item d = Some x -> ICAL.uid x = Some u.
Hypothesis chronological :
  forall i j occ_i d_i occ_j d_j,
    (i < j)%nat ->
    iter i = ICAL.Occurrence occ_i d_i ->
    iter j = ICAL.Occurrence occ_j d_j ->
    ICAL.toJSDate occ_i < ICAL.toJSDate occ_j.



End SeriesIds.




(** C6. A [vevent] that has a start, is not recurring and is not a
    recurrence override yields exactly one event, between the events of the
    [vevent]s before it and of those after it: its start and end are the
    start and the end of the record, and it is an all-day event exactly
    when the start of the record is a bare date. *)
Theorem nonrecurring_vevent_one_event (LocalTZA : Z -> bool -> Z)
    (ICAL_parse : jsstring -> outcome ICAL.Component)
    (clock : nat -> Date) (cid cname col : jsstring)
    (icsText : jsstring) (comp : ICAL.Component)
    (before after : list ICAL.VEvent) (vevent : ICAL.VEvent)
    (event : ICAL.Event) (startDate : ICAL.Time) :
  Regex.test_BEGIN_VCALENDAR (normalizeICSText icsText) = true ->
  ICAL_parse (normalizeICSText icsText) = Returns comp ->
  ICAL.getAllSubcomponents comp = Returns (before ++ vevent :: after) ->
  ICAL.hasRecurrenceId vevent = false ->
  ICAL.event vevent = Returns event ->
  ICAL.startDate event = Some startDate ->
  ICAL.isRecurring vevent = false ->
  exists ev,
    parseICS LocalTZA ICAL_parse clock cid cname col icsText
    = Returns
        (concat (List.map (parseVEvent LocalTZA clock cid cname col []) before)
         ++ [ev]
         ++ concat (List.map (parseVEvent LocalTZA clock cid cname col []) after))
    /\ parseVEvent LocalTZA clock cid cname col [] vevent = [ev]
    /\ ev_start ev = ICAL.toJSDate startDate
    /\ ev_end ev = ICAL.toJSDate (ICAL.endDate event)
    /\ (allDay ev = true <-> ICAL.isDate startDate = true).
Proof.
  intros Hbegin Hparse Hsub Hrid Hevent Hstart Hrec.
  assert (Hone : exists ev,
             parseVEvent LocalTZA clock cid cname col [] vevent = [ev]
             /\ ev_start ev = ICAL.toJSDate startDate
             /\ ev_end ev = ICAL.toJSDate (ICAL.endDate event)
             /\ allDay ev = ICAL.isDate startDate).
  { unfold parseVEvent, pushEvent. rewrite Hrid, Hevent, Hstart, Hrec.
    eexists. split; [reflexivity|]. simpl. repeat split. }
  destruct Hone as (ev & Hev & Hs & He & Hall).
  exists ev. split; [|split; [exact Hev|]].
  - unfold parseICS, parseICSEvents. rewrite Hbegin, Hparse, Hsub. simpl.
    f_equal. rewrite foldl_parseVEvent. simpl.
    rewrite map_app, concat_app. simpl. rewrite Hev. reflexivity.
  - split; [exact Hs|]. split; [exact He|]. rewrite Hall. reflexivity.
Qed.

Lemma nonrecurring_vevent_one_event_witness :
  exists ev,
    parseICS UTCzone
      (Sample.parserFinding [Sample.dentist; Sample.holiday; Sample.classVEvent])
      Sample.noon2024 (lit "home") (lit "Home") (lit "#3b82f6")
      Sample.truncatedText
    = Returns
        (concat (List.map (parseVEvent UTCzone Sample.noon2024 (lit "home")
                             (lit "Home") (lit "#3b82f6") []) [Sample.dentist])
         ++ [ev]
         ++ concat (List.map (parseVEvent UTCzone Sample.noon2024 (lit "home")
                                (lit "Home") (lit "#3b82f6") [])
                      [Sample.classVEvent]))
    /\ parseVEvent UTCzone Sample.noon2024 (lit "home") (lit "Home")
         (lit "#3b82f6") [] Sample.holiday = [ev]
    /\ ev_start ev = utcDate 2024 0 5 0 0
    /\ ev_end ev = utcDate 2024 0 6 0 0
    /\ (allDay ev = true <-> true = true).
Proof.
  apply (nonrecurring_vevent_one_event UTCzone
            (Sample.parserFinding
               [Sample.dentist; Sample.holiday; Sample.classVEvent])
            Sample.noon2024 (lit "home") (lit "Home") (lit "#3b82f6")
            Sample.truncatedText
            {| ICAL.getAllSubcomponents :=
                 Returns [Sample.dentist; Sample.holiday; Sample.classVEvent] |}
            [Sample.dentist] [Sample.classVEvent] Sample.holiday
            {| ICAL.summary := Some (lit "Holiday");
               ICAL.uid := Some (lit "day-1");
               ICAL.location := None;
               ICAL.startDate :=
                 Some {| ICAL.isDate := true;
                         ICAL.toJSDate := utcDate 2024 0 5 0 0 |};
               ICAL.endDate :=
                 {| ICAL.isDate := true; ICAL.toJSDate := utcDate 2024 0 6 0 0 |} |}
            {| ICAL.isDate := true; ICAL.toJSDate := utcDate 2024 0 5 0 0 |}).
  - vm_compute. reflexivity.
  - reflexivity.
  - reflexivity.
  - reflexivity.
  - reflexivity.
  - reflexivity.
  - reflexivity.
Defined.

Section ClockReadings.

Variable LocalTZA : Z -> bool -> Z.
Variables clock1 clock2 : nat -> Date.
Variables cid cname col : jsstring.

Hypothesis first_reading : clock1 0%nat = clock2 0%nat.
Hypothesis second_reading : clock1 1%nat = clock2 1%nat.

Lemma rangeEndTime_ext : rangeEndTime LocalTZA clock1 = rangeEndTime LocalTZA clock2.
Proof. unfold rangeEndTime. rewrite first_reading. reflexivity. Qed.

Lemma rangeStartTime_ext :
  rangeStartTime LocalTZA clock1 = rangeStartTime LocalTZA clock2.
Proof. unfold rangeStartTime. rewrite second_reading. reflexivity. Qed.

Lemma expandOccurrences_ext event iter budget count events :
  expandOccurrences LocalTZA clock1 cid cname col event iter budget count events
  = expandOccurrences LocalTZA clock2 cid cname col event iter budget count events.
Proof.
  revert count events. induction budget as [|b IH]; intros count events; simpl.
  - reflexivity.
  - rewrite rangeEndTime_ext, rangeStartTime_ext.
    destruct (iter count) as [occ details| |]; try reflexivity.
    destruct (rangeEndTime LocalTZA clock2 <? getTime (ICAL.toJSDate occ));
      [reflexivity|].
    destruct (getTime (ICAL.toJSDate occ) <? rangeStartTime LocalTZA clock2);
      [apply IH|].
    destruct details as [d|msg]; [|reflexivity].
    destruct (pushEvent events _ _ _ _ _ _ _); [apply IH|reflexivity].
Qed.

Lemma parseVEvent_ext events vevent :
  parseVEvent LocalTZA clock1 cid cname col events vevent
  = parseVEvent LocalTZA clock2 cid cname col events vevent.
Proof.
  unfold parseVEvent.
  destruct (ICAL.hasRecurrenceId vevent); [reflexivity|].
  destruct (ICAL.event vevent) as [event|msg]; [|reflexivity].
  destruct (ICAL.startDate event); [|reflexivity].
  destruct (ICAL.isRecurring vevent); [apply expandOccurrences_ext|reflexivity].
Qed.

Lemma parseICSEvents_ext comp :
  parseICSEvents LocalTZA clock1 cid cname col comp
  = parseICSEvents LocalTZA clock2 cid cname col comp.
Proof.
  unfold parseICSEvents.
  destruct (ICAL.getAllSubcomponents comp) as [vevents|msg]; [|reflexivity].
  generalize (@nil CalendarEvent).
  induction vevents as [|v vs IH]; intros events; cbn [foldl]; [reflexivity|].
  rewrite parseVEvent_ext. apply IH.
Qed.

End ClockReadings.

(** [parseICS] reads the clock twice, for the end and for the start of
    the window, and no more: two clocks that agree on their first two
    readings give the same result. *)
Theorem parseICS_reads_clock_twice (LocalTZA : Z -> bool -> Z)
    (ICAL_parse : jsstring -> outcome ICAL.Component)
    (clock1 clock2 : nat -> Date) (cid cname col : jsstring)
    (icsText : jsstring) :
  clock1 0%nat = clock2 0%nat ->
  clock1 1%nat = clock2 1%nat ->
  parseICS LocalTZA ICAL_parse clock1 cid cname col icsText
  = parseICS LocalTZA ICAL_parse clock2 cid cname col icsText.
Proof.
  intros H0 H1. unfold parseICS.
  destruct (negb (Regex.test_BEGIN_VCALENDAR (normalizeICSText icsText)));
    [reflexivity|].
  destruct (ICAL_parse (normalizeICSText icsText)) as [comp|msg]; [|reflexivity].
  rewrite (parseICSEvents_ext LocalTZA clock1 clock2 cid cname col H0 H1 comp).
  reflexivity.
Qed.

Lemma parseICS_reads_clock_twice_witness :
  parseICS UTCzone (Sample.parserFinding [Sample.dentist; Sample.classVEvent])
    Sample.noon2024 (lit "home") (lit "Home") (lit "#3b82f6") Sample.truncatedText
  = parseICS UTCzone (Sample.parserFinding [Sample.dentist; Sample.classVEvent])
      (fun n => if (n <? 2)%nat then utcDate 2024 0 1 12 0 else utcDate 2024 0 1 12 1)
      (lit "home") (lit "Home") (lit "#3b82f6") Sample.truncatedText.
Proof.
  apply parseICS_reads_clock_twice; reflexivity.
Defined.

(* ===================================================================== *)
(** * Properties of the calendar hook *)
(* ===================================================================== *)

Section ObjFacts.

Context {V : Type}.
Implicit Types (o : list (jsstring * V)) (k : jsstring) (v : V).

Lemma Obj_get_set_eq o k v : Obj.get (Obj.set o k v) k = Some v.
Proof.
  induction o as [|[k' v'] r IH]; simpl.
  - rewrite decide_True by reflexivity. reflexivity.
  - destruct (decide (k' = k)) as [Heq|Hne]; simpl.
    + rewrite decide_True by reflexivity. reflexivity.
    + rewrite decide_False by exact Hne. exact IH.
Qed.

Lemma Obj_get_set_ne o k k' v : k <> k' -> Obj.get (Obj.set o k v) k' = Obj.get o k'.
Proof.
  intros Hkk. induction o as [|[k0 v0] r IH]; simpl.
  - rewrite decide_False by exact Hkk. reflexivity.
  - destruct (decide (k0 = k)) as [->|Hne]; simpl.
    + rewrite !decide_False by exact Hkk. reflexivity.
    + destruct (decide (k0 = k')); [reflexivity|exact IH].
Qed.

Lemma Obj_get_None o k : k ∉ Obj.keys o -> Obj.get o k = None.
Proof.
  induction o as [|[k' v'] r IH]; simpl; [reflexivity|].
  intros Hnin. apply not_elem_of_cons in Hnin. destruct Hnin as [Hne Hnin].
  rewrite decide_False by congruence. apply IH, Hnin.
Qed.

(** A new key goes after the existing ones. *)
Lemma Obj_set_fresh o k v : k ∉ Obj.keys o -> Obj.set o k v = o ++ [(k, v)].
Proof.
  induction o as [|[k' v'] r IH]; simpl; [reflexivity|].
  intros Hnin. apply not_elem_of_cons in Hnin. destruct Hnin as [Hne Hnin].
  rewrite decide_False by congruence. rewrite IH by exact Hnin. reflexivity.
Qed.

Lemma Obj_insertByIndex_Permutation (n : N) (kv : jsstring * V)
    (l : list (N * (jsstring * V))) :
  Obj.insertByIndex n kv l ≡ₚ (n, kv) :: l.
Proof.
  induction l as [|[m kv'] r IH]; cbn [Obj.insertByIndex]; [reflexivity|].
  destruct (N.ltb n m); [reflexivity|].
  rewrite IH. apply Permutation_swap.
Qed.

(** [Object.values] and the like list every own property once. *)
Lemma Obj_entries_Permutation o : Obj.entries o ≡ₚ o.
Proof.
  unfold Obj.entries. induction o as [|kv r IH]; [reflexivity|].
  cbn [Obj.indexEntries List.filter].
  destruct (Obj.arrayIndex kv.1) as [n|].
  - rewrite Obj_insertByIndex_Permutation. cbn [List.map snd app].
    apply Permutation_cons; [reflexivity|exact IH].
  - rewrite <- Permutation_middle.
    apply Permutation_cons; [reflexivity|exact IH].
Qed.

Lemma Obj_values_Permutation o : Obj.values o ≡ₚ List.map snd o.
Proof. unfold Obj.values. apply Permutation_map, Obj_entries_Permutation. Qed.

(** Without array indices among the keys, the order is that of creation. *)
Lemma Obj_values_creation_order o :
  Forall (fun k => Obj.arrayIndex k = None) (Obj.keys o) ->
  Obj.values o = List.map snd o.
Proof.
  unfold Obj.values, Obj.entries, Obj.keys. intros H. f_equal.
  induction o as [|kv r IH]; [reflexivity|].
  cbn [List.map] in H. apply Forall_cons in H. destruct H as [Hkv Hr].
  cbn [Obj.indexEntries List.filter]. rewrite Hkv.
  specialize (IH Hr).
  destruct (Obj.indexEntries r) as [|x l] eqn:Hidx.
  - cbn [List.map app] in *. f_equal. exact IH.
  - exfalso. clear IH.
    assert (Hin : exists k v n, (k, v) ∈ r /\ Obj.arrayIndex k = Some n).
    { clear Hr Hkv. revert x l Hidx. induction r as [|[k v] r IH];
        intros x l Hidx; [discriminate|].
      cbn [Obj.indexEntries fst] in Hidx.
      destruct (Obj.arrayIndex k) as [n|] eqn:Hk.
      - exists k, v, n. split; [left|exact Hk].
      - destruct (IH x l Hidx) as (k' & v' & n & Hin & Hn).
        exists k', v', n. split; [right; exact Hin|exact Hn]. }
    destruct Hin as (k & v & n & Hin & Hn).
    rewrite Forall_forall in Hr.
    assert (Hk : k ∈ List.map fst r).
    { apply list_elem_of_In, in_map_iff. exists (k, v).
      split; [reflexivity|apply list_elem_of_In, Hin]. }
    rewrite (Hr k Hk) in Hn. discriminate.
Qed.

End ObjFacts.

Lemma concat_Permutation_proper {A : Type} (l1 l2 : list (list A)) :
  l1 ≡ₚ l2 -> concat l1 ≡ₚ concat l2.
Proof.
  induction 1 as [|x l l' _ IH|x y l|l l' l'' _ IH1 _ IH2]; simpl.
  - reflexivity.
  - rewrite IH. reflexivity.
  - rewrite !app_assoc. apply Permutation_app_tail, Permutation_app_comm.
  - rewrite IH1. exact IH2.
Qed.

(** The merged list holds, as a collection, the events of the feeds. *)
Lemma mergedEvents_concat (o : list (jsstring * list CalendarEvent)) :
  mergedEvents o ≡ₚ concat (List.map snd o).
Proof.
  unfold mergedEvents. apply concat_Permutation_proper, Obj_values_Permutation.
Qed.

(** The merged list does not depend, as a collection, on the order of the
    feeds in the object. *)
Lemma mergedEvents_Permutation (o1 o2 : list (jsstring * list CalendarEvent)) :
  o1 ≡ₚ o2 -> mergedEvents o1 ≡ₚ mergedEvents o2.
Proof.
  intros H. rewrite !mergedEvents_concat.
  apply concat_Permutation_proper, Permutation_map, H.
Qed.

(** C9. Merging is commutative in the order of the feeds: the events of
    the feeds [A] and [B] merged in the order [A, B] are, as an unordered
    collection, the events merged in the order [B, A]. *)
Theorem mergedEvents_commutative (idA idB : jsstring) (A B : list CalendarEvent) :
  mergedEvents [(idA, A); (idB, B)] ≡ₚ mergedEvents [(idB, B); (idA, A)].
Proof. apply mergedEvents_Permutation, Permutation_swap. Qed.

Section HookFacts.

Variable LocalTZA : Z -> bool -> Z.
Variable ICAL_parse : jsstring -> outcome ICAL.Component.
Variable clock : nat -> Date.
Variable relay : jsstring -> HttpResult.

Abbreviation fetchOne := (fetchOneCalendar LocalTZA ICAL_parse clock relay).
Abbreviation step := (fetchStep LocalTZA ICAL_parse clock relay).

Lemma fetchStep_other (config : list CalendarConfig)
    (updates : list (jsstring * list CalendarEvent)) (err : option jsstring)
    (k : jsstring) :
  k ∉ List.map cfg_id config ->
  Obj.get (foldl step (updates, err) config).1 k = Obj.get updates k.
Proof.
  revert updates err. induction config as [|cal config IH];
    intros updates err Hk; cbn [foldl]; [reflexivity|].
  cbn [List.map] in Hk. apply not_elem_of_cons in Hk. destruct Hk as [Hne Hk].
  unfold fetchStep at 2. destruct (fetchOne cal) as [parsed|msg].
  - rewrite IH by exact Hk. apply Obj_get_set_ne. congruence.
  - apply IH, Hk.
Qed.

Lemma fetchStep_lookup (config : list CalendarConfig)
    (updates : list (jsstring * list CalendarEvent)) (err : option jsstring)
    (cal : CalendarConfig) :
  NoDup (List.map cfg_id config) ->
  cal ∈ config ->
  Obj.get (foldl step (updates, err) config).1 (cfg_id cal)
  = match fetchOne cal with
    | Returns parsed => Some parsed
    | Throws _ => Obj.get updates (cfg_id cal)
    end.
Proof.
  revert updates err. induction config as [|c config IH];
    intros updates err Hnd Hin; [inversion Hin|].
  cbn [List.map] in Hnd. apply NoDup_cons in Hnd. destruct Hnd as [Hc Hnd].
  cbn [foldl]. apply elem_of_cons in Hin. destruct Hin as [->|Hin].
  - unfold fetchStep at 2. destruct (fetchOne c) as [parsed|msg].
    + rewrite fetchStep_other by exact Hc. apply Obj_get_set_eq.
    + apply fetchStep_other, Hc.
  - assert (Hne : cfg_id c <> cfg_id cal).
    { intros Heq. apply Hc. rewrite Heq.
      apply (list_elem_of_fmap_2 cfg_id), Hin. }
    unfold fetchStep at 2. destruct (fetchOne c) as [parsed|msg].
    + rewrite IH by assumption.
      destruct (fetchOne cal); [reflexivity|].
      apply Obj_get_set_ne, Hne.
    + apply IH; assumption.
Qed.

Lemma mergeUpdates_from (config : list CalendarConfig)
    (updates prev next : list (jsstring * list CalendarEvent)) :
  NoDup (List.map cfg_id config) ->
  (forall k, k ∈ List.map cfg_id config -> k ∉ Obj.keys next) ->
  foldl
    (fun next cal =>
       Obj.set next (cfg_id cal)
         (default (default [] (Obj.get prev (cfg_id cal)))
                  (Obj.get updates (cfg_id cal))))
    next config
  = next
    ++ List.map
         (fun cal =>
            (cfg_id cal,
             default (default [] (Obj.get prev (cfg_id cal)))
                     (Obj.get updates (cfg_id cal))))
         config.
Proof.
  revert next. induction config as [|c config IH]; intros next Hnd Hfresh;
    cbn [foldl List.map].
  - rewrite app_nil_r. reflexivity.
  - cbn [List.map] in Hnd, Hfresh.
    apply NoDup_cons in Hnd. destruct Hnd as [Hc Hnd].
    rewrite Obj_set_fresh by (apply Hfresh; left).
    rewrite IH; [rewrite <- app_assoc; reflexivity|exact Hnd|].
    intros k Hk. unfold Obj.keys. rewrite map_app. cbn [List.map fst].
    rewrite elem_of_app, list_elem_of_singleton. intros [Hin| ->].
    + revert Hin. apply Hfresh. right. exact Hk.
    + contradiction.
Qed.

End HookFacts.

Lemma Obj_get_map_NoDup {V : Type} (f : CalendarConfig -> V)
    (config : list CalendarConfig) (cal : CalendarConfig) :
  NoDup (List.map cfg_id config) ->
  cal ∈ config ->
  Obj.get (List.map (fun c => (cfg_id c, f c)) config) (cfg_id cal) = Some (f cal).
Proof.
  induction config as [|c config IH]; intros Hnd Hin; [inversion Hin|].
  cbn [List.map] in *. apply NoDup_cons in Hnd. destruct Hnd as [Hc Hnd].
  simpl. apply elem_of_cons in Hin. destruct Hin as [->|Hin].
  - rewrite decide_True by reflexivity. reflexivity.
  - rewrite decide_False; [apply IH; assumption|].
    intros Heq. apply Hc. rewrite Heq. apply (list_elem_of_fmap_2 cfg_id), Hin.
Qed.

(** [Object.values] lists the array indices first, in ascending order,
    whatever the order of creation. *)
Example Obj_values_index_order :
  Obj.values [(lit "b", 1); (lit "10", 2); (lit "9", 3); (lit "a", 4); (lit "07", 5)]
  = [3; 2; 1; 4; 5].
Proof. reflexivity. Qed.

(** C4. After a refresh cycle over feeds with distinct ids, none of which
    is the name of a property that a plain object inherits, every feed
    holds the events just fetched when its fetch and parse succeeded, and
    the events it held before when they failed, whatever the other feeds
    did; the state holds the feeds of the configuration and no other; and
    the merged list is made of these lists: it is a permutation of their
    concatenation, and the concatenation itself, in the order of the
    configuration, when no id is an array index. *)
Theorem fetchAll_stale_retention (LocalTZA : Z -> bool -> Z)
    (ICAL_parse : jsstring -> outcome ICAL.Component)
    (clock : nat -> Date) (relay : jsstring -> HttpResult)
    (config : list CalendarConfig) (st : HookState) :
  NoDup (List.map cfg_id config) ->
  Forall plainKey (List.map cfg_id config) ->
  (forall cal,
     cal ∈ config ->
     Obj.get
       (eventsByCalendar (fetchAll LocalTZA ICAL_parse clock relay config st))
       (cfg_id cal)
     = Some (refreshed LocalTZA ICAL_parse clock relay (eventsByCalendar st) cal))
  /\ (forall k : jsstring,
        k ∈ Obj.keys
              (eventsByCalendar
                 (fetchAll LocalTZA ICAL_parse clock relay config st))
        <-> k ∈ List.map cfg_id config)
  /\ mergedEvents
       (eventsByCalendar (fetchAll LocalTZA ICAL_parse clock relay config st))
     ≡ₚ concat
          (List.map
             (refreshed LocalTZA ICAL_parse clock relay (eventsByCalendar st))
             config)
  /\ (Forall (fun k => Obj.arrayIndex k = None) (List.map cfg_id config) ->
      mergedEvents
        (eventsByCalendar (fetchAll LocalTZA ICAL_parse clock relay config st))
      = concat
          (List.map
             (refreshed LocalTZA ICAL_parse clock relay (eventsByCalendar st))
             config))
  /\ (forall cal parsed,
        cal ∈ config ->
        fetchOneCalendar LocalTZA ICAL_parse clock relay cal = Returns parsed ->
        Obj.get
          (eventsByCalendar (fetchAll LocalTZA ICAL_parse clock relay config st))
          (cfg_id cal)
        = Some parsed)
  /\ (forall cal msg,
        cal ∈ config ->
        fetchOneCalendar LocalTZA ICAL_parse clock relay cal = Throws msg ->
        Obj.get
          (eventsByCalendar (fetchAll LocalTZA ICAL_parse clock relay config st))
          (cfg_id cal)
        = Some (default [] (Obj.get (eventsByCalendar st) (cfg_id cal)))).
Proof.
  intros Hnd _.
  assert (Hmap :
    eventsByCalendar (fetchAll LocalTZA ICAL_parse clock relay config st)
    = List.map
        (fun cal =>
           (cfg_id cal,
            refreshed LocalTZA ICAL_parse clock relay (eventsByCalendar st) cal))
        config).
  { unfold fetchAll. destruct config as [|c0 config0] eqn:Hconfig;
      [reflexivity|]. rewrite <- Hconfig in *. clear Hconfig c0 config0.
    destruct (foldl (fetchStep LocalTZA ICAL_parse clock relay) ([], None) config)
      as [updates err] eqn:Hfold.
    cbn [eventsByCalendar]. unfold mergeUpdates.
    rewrite mergeUpdates_from;
      [|exact Hnd|intros k _; apply not_elem_of_nil].
    cbn [app]. apply map_ext_in. intros cal Hin. f_equal.
    apply list_elem_of_In in Hin.
    pose proof (fetchStep_lookup LocalTZA ICAL_parse clock relay
                  config [] None cal Hnd Hin) as Hget.
    rewrite Hfold in Hget. cbn [fst] in Hget. rewrite Hget.
    unfold refreshed.
    destruct (fetchOneCalendar LocalTZA ICAL_parse clock relay cal);
      reflexivity. }
  assert (Hkeys :
    Obj.keys (eventsByCalendar (fetchAll LocalTZA ICAL_parse clock relay config st))
    = List.map cfg_id config).
  { rewrite Hmap. unfold Obj.keys. rewrite map_map. reflexivity. }
  split; [|split; [|split; [|split; [|split]]]].
  - intros cal Hin. rewrite Hmap. apply (Obj_get_map_NoDup _ config cal Hnd Hin).
  - intros k. rewrite Hkeys. reflexivity.
  - rewrite mergedEvents_concat, Hmap, map_map. reflexivity.
  - intros Hplain. unfold mergedEvents.
    rewrite Obj_values_creation_order by (rewrite Hkeys; exact Hplain).
    rewrite Hmap, map_map. reflexivity.
  - intros cal parsed Hin Hok. rewrite Hmap.
    rewrite (Obj_get_map_NoDup _ config cal Hnd Hin).
    unfold refreshed. rewrite Hok. reflexivity.
  - intros cal msg Hin Hfail. rewrite Hmap.
    rewrite (Obj_get_map_NoDup _ config cal Hnd Hin).
    unfold refreshed. rewrite Hfail. reflexivity.
Qed.

(** Three feeds, the second of which cannot be fetched: the first gets
    the holiday just parsed, the second keeps its cached event. *)
Lemma fetchAll_stale_retention_witness :
  Obj.get
    (eventsByCalendar
       (fetchAll UTCzone (Sample.parserFinding [Sample.holiday]) Sample.noon2024
          Sample.relayDown2
          [Sample.feed1; Sample.feed2; Sample.feed3] Sample.cached))
    (cfg_id Sample.feed2)
  = Some [Sample.mkEvent "old2" 0 1]
  /\ List.map ev_title
       <$> Obj.get
             (eventsByCalendar
                (fetchAll UTCzone (Sample.parserFinding [Sample.holiday])
                   Sample.noon2024 Sample.relayDown2
                   [Sample.feed1; Sample.feed2; Sample.feed3] Sample.cached))
             (cfg_id Sample.feed1)
     = Some [lit "Holiday"].
Proof.
  destruct (fetchAll_stale_retention UTCzone (Sample.parserFinding [Sample.holiday])
              Sample.noon2024 Sample.relayDown2
              [Sample.feed1; Sample.feed2; Sample.feed3] Sample.cached)
    as (Hget & _).
  - apply (bool_decide_unpack _). vm_compute. exact I.
  - apply (bool_decide_unpack _). vm_compute. exact I.
  - split.
    + rewrite (Hget Sample.feed2) by (right; left). vm_compute. reflexivity.
    + rewrite (Hget Sample.feed1) by left. vm_compute. reflexivity.
Defined.

(* ===================================================================== *)
(** * Properties of the text normalizer *)
(* ===================================================================== *)

Section Occurrences.

Import Regex.

Lemma anywhere_true (f : jsstring -> bool) (s : jsstring) :
  anywhere f s = true <-> exists pre suf, s = pre ++ suf /\ f suf = true.
Proof.
  induction s as [|c r IH]; simpl.
  - rewrite orb_false_r. split.
    + intros H. exists [], []. split; [reflexivity|exact H].
    + intros (pre & suf & Heq & H).
      symmetry in Heq. apply app_eq_nil in Heq. destruct Heq as [_ ->]. exact H.
  - rewrite orb_true_iff, IH. split.
    + intros [H|(pre & suf & -> & H)].
      * exists [], (c :: r). split; [reflexivity|exact H].
      * exists (c :: pre), suf. split; [reflexivity|exact H].
    + intros (pre & suf & Heq & H). destruct pre as [|c' pre]; simpl in Heq.
      * left. rewrite Heq. exact H.
      * injection Heq as -> ->. right. exists pre, suf. split; [reflexivity|exact H].
Qed.

Lemma matchCI_Some (p u r : jsstring) :
  matchCI p u = Some r <-> exists w, u = w ++ r /\ Matches p w.
Proof.
  unfold Matches. revert u. induction p as [|a p IH]; intros u; simpl.
  - split.
    + intros [= ->]. exists []. split; reflexivity.
    + intros (w & -> & Hw). destruct w; [reflexivity|discriminate].
  - destruct u as [|b u].
    + split; [discriminate|].
      intros (w & Heq & Hw). symmetry in Heq. apply app_eq_nil in Heq.
      destruct Heq as [-> _]. discriminate.
    + destruct (N.eqb (canon a) (canon b)) eqn:Hab.
      * rewrite IH. split.
        -- intros (w & -> & Hw). exists (b :: w). simpl. rewrite Hab.
           split; [reflexivity|exact Hw].
        -- intros (w & Heq & Hw). destruct w as [|b' w]; [discriminate|].
           simpl in Heq. injection Heq as <- ->. simpl in Hw.
           rewrite Hab in Hw. exists w. split; [reflexivity|exact Hw].
      * split; [discriminate|].
        intros (w & Heq & Hw). destruct w as [|b' w]; [discriminate|].
        simpl in Heq. injection Heq as <- ->. simpl in Hw.
        rewrite Hab in Hw. discriminate.
Qed.

(** A unit that canonicalizes like a word unit is a word unit; like the
    colon, it is the colon. *)
Lemma canon_wordUnit a b :
  wordUnit a = true -> canon a = canon b -> wordUnit b = true.
Proof.
  unfold wordUnit, canon. intros Ha Hab.
  repeat match type of Hab with
         | context [N.leb ?x ?y] => destruct (N.leb_spec x y); simpl in Hab
         end;
  repeat match type of Ha with
         | context [N.leb ?x ?y] => destruct (N.leb_spec x y); simpl in Ha
         | context [N.eqb ?x ?y] => destruct (N.eqb_spec x y); simpl in Ha
         end;
  repeat match goal with
         | |- context [N.leb ?x ?y] => destruct (N.leb_spec x y); simpl
         | |- context [N.eqb ?x ?y] => destruct (N.eqb_spec x y); simpl
         end; try reflexivity; try discriminate; lia.
Qed.

Lemma canon_colon b : canon 58 = canon b -> b = 58%N.
Proof.
  unfold canon. simpl.
  destruct (N.leb_spec 97 b); destruct (N.leb_spec b 122); simpl; lia.
Qed.

Lemma Matches_wordUnits p w :
  Matches p w -> Forall (fun c => wordUnit c = true) p ->
  Forall (fun c => wordUnit c = true) w.
Proof.
  unfold Matches. revert w. induction p as [|a p IH]; intros w Hw Hp; simpl in Hw.
  - injection Hw as ->. constructor.
  - destruct w as [|b w]; [discriminate|].
    destruct (N.eqb_spec (canon a) (canon b)) as [Hab|]; [|discriminate].
    apply Forall_cons in Hp. destruct Hp as [Ha Hp].
    constructor; [eapply canon_wordUnit; eassumption|apply IH; assumption].
Qed.

Lemma Matches_colon p w : Matches p w -> 58%N ∈ p -> 58%N ∈ w.
Proof.
  unfold Matches. revert w. induction p as [|a p IH]; intros w Hw Hp; simpl in Hw.
  - inversion Hp.
  - destruct w as [|b w]; [discriminate|].
    destruct (N.eqb_spec (canon a) (canon b)) as [Hab|]; [|discriminate].
    apply elem_of_cons in Hp. destruct Hp as [<-|Hp].
    + apply canon_colon in Hab. subst b. left.
    + right. apply IH; assumption.
Qed.

Lemma Matches_nonempty p w : Matches p w -> p <> [] -> w <> [].
Proof. unfold Matches. intros Hw Hp ->. destruct p; [contradiction|discriminate]. Qed.

(** The tests of the two markers, as occurrences. *)
Lemma test_BEGIN_VCALENDAR_true s :
  test_BEGIN_VCALENDAR s = true
  <-> exists pre w suf, s = pre ++ w ++ suf /\ Matches (lit "BEGIN:VCALENDAR") w.
Proof.
  unfold test_BEGIN_VCALENDAR. rewrite anywhere_true. split.
  - intros (pre & u & -> & Hu). apply bool_decide_eq_true in Hu.
    destruct Hu as [r Hr]. apply matchCI_Some in Hr. destruct Hr as (w & -> & Hw).
    exists pre, w, r. split; [reflexivity|exact Hw].
  - intros (pre & w & suf & -> & Hw). exists pre, (w ++ suf).
    split; [reflexivity|]. apply bool_decide_eq_true. exists suf.
    apply matchCI_Some. exists w. split; [reflexivity|exact Hw].
Qed.

Lemma test_END_VCALENDAR_eol_true s :
  test_END_VCALENDAR_eol s = true
  <-> exists pre w suf, s = pre ++ w ++ suf
                        /\ Matches (lit "END:VCALENDAR") w
                        /\ spacesThenLineEnd suf = true.
Proof.
  unfold test_END_VCALENDAR_eol. rewrite anywhere_true. split.
  - intros (pre & u & -> & Hu).
    destruct (matchCI (lit "END:VCALENDAR") u) as [r|] eqn:Hr; [|discriminate].
    apply matchCI_Some in Hr. destruct Hr as (w & -> & Hw).
    exists pre, w, r. repeat split; assumption.
  - intros (pre & w & suf & -> & Hw & Hsuf). exists pre, (w ++ suf).
    split; [reflexivity|].
    assert (Hm : matchCI (lit "END:VCALENDAR") (w ++ suf) = Some suf)
      by (apply matchCI_Some; exists w; split; [reflexivity|exact Hw]).
    rewrite Hm. exact Hsuf.
Qed.

End Occurrences.

Section Separators.

Import Regex.

(** A word that does not contain the unit [c] lies on one side of it. *)
Lemma occurrence_beside (c : N) (a b pre w suf : jsstring) :
  pre ++ w ++ suf = a ++ c :: b ->
  c ∉ w ->
  (exists suf1, a = pre ++ w ++ suf1 /\ suf = suf1 ++ c :: b)
  \/ (exists pre2, b = pre2 ++ w ++ suf /\ pre = a ++ c :: pre2).
Proof.
  revert pre w. induction a as [|x a IH]; intros pre w Heq Hc.
  - destruct pre as [|y pre]; simpl in Heq.
    + destruct w as [|y w]; simpl in Heq.
      * left. exists []. split; [reflexivity|exact Heq].
      * injection Heq as -> _. exfalso. apply Hc. left.
    + injection Heq as -> Heq. right. exists pre. split; [symmetry; exact Heq|reflexivity].
  - destruct pre as [|y pre]; simpl in Heq.
    + destruct w as [|y w]; simpl in Heq.
      * left. exists (x :: a). split; [reflexivity|exact Heq].
      * injection Heq as -> Heq.
        destruct (IH [] w Heq) as [(suf1 & Ha & Hsuf)|(pre2 & _ & Hpre)].
        -- intros Hin. apply Hc. right. exact Hin.
        -- left. exists suf1. simpl in Ha. rewrite Ha. split; [reflexivity|exact Hsuf].
        -- destruct a; discriminate Hpre.
    + injection Heq as -> Heq.
      destruct (IH pre w Heq Hc) as [(suf1 & Ha & Hsuf)|(pre2 & Hb & Hpre)].
      * left. exists suf1. rewrite Ha. split; [reflexivity|exact Hsuf].
      * right. exists pre2. rewrite Hpre. split; [exact Hb|reflexivity].
Qed.

Lemma wordUnits_not_elem (w : jsstring) (c : N) :
  Forall (fun c => wordUnit c = true) w -> wordUnit c = false -> c ∉ w.
Proof.
  intros Hw Hc Hin. rewrite Forall_forall in Hw. rewrite (Hw c Hin) in Hc.
  discriminate.
Qed.

Lemma wordUnit_not_space c : wordUnit c = true -> isSpace c = false.
Proof.
  unfold wordUnit, isSpace, isWhiteSpace, isLineTerminator. intros H.
  repeat match type of H with
         | context [N.leb ?x ?y] => destruct (N.leb_spec x y); simpl in H
         | context [N.eqb ?x ?y] => destruct (N.eqb_spec x y); simpl in H
         end; try discriminate;
  repeat match goal with
         | |- context [N.leb ?x ?y] => destruct (N.leb_spec x y); simpl
         | |- context [N.eqb ?x ?y] => destruct (N.eqb_spec x y); simpl
         end; try reflexivity; lia.
Qed.

(** ** White space up to the end of a line *)

Lemma spacesThenLineEnd_prefix a b :
  spacesThenLineEnd (a ++ b) = true -> spacesThenLineEnd a = true.
Proof.
  induction a as [|c a IH]; simpl; [reflexivity|].
  destruct (isLineTerminator c); [reflexivity|]. simpl.
  destruct (isSpace c); [exact IH|discriminate].
Qed.

Lemma spacesThenLineEnd_app a b :
  spacesThenLineEnd a = true -> spacesThenLineEnd b = true ->
  spacesThenLineEnd (a ++ b) = true.
Proof.
  intros Ha Hb. induction a as [|c a IH]; simpl in *; [exact Hb|].
  destruct (isLineTerminator c); [reflexivity|]. simpl in *.
  destruct (isSpace c); [apply IH, Ha|discriminate].
Qed.

Lemma spacesThenLineEnd_spaces ws :
  Forall (fun c => isSpace c = true) ws -> spacesThenLineEnd ws = true.
Proof.
  induction 1 as [|c ws Hc _ IH]; simpl; [reflexivity|].
  rewrite Hc, IH. apply orb_true_r.
Qed.

(** ** Trimming *)

Lemma trimStart_split s :
  exists ws, s = ws ++ trimStart s /\ Forall (fun c => isSpace c = true) ws.
Proof.
  induction s as [|c r (ws & Hr & Hws)]; simpl.
  - exists []. split; [reflexivity|constructor].
  - destruct (isSpace c) eqn:Hc.
    + exists (c :: ws). split; [simpl; f_equal; exact Hr|constructor; assumption].
    + exists []. split; [reflexivity|constructor].
Qed.

Lemma trimEnd_split s :
  exists ws, s = trimEnd s ++ ws /\ Forall (fun c => isSpace c = true) ws.
Proof.
  unfold trimEnd. destruct (trimStart_split (rev s)) as (ws & Hs & Hws).
  exists (rev ws). split.
  - rewrite <- rev_app_distr, <- Hs, rev_involutive. reflexivity.
  - apply Forall_rev. exact Hws.
Qed.

Lemma trimStart_keeps_colon s : 58%N ∈ s -> 58%N ∈ trimStart s.
Proof.
  induction s as [|c r IH]; simpl; intros Hin; [exact Hin|].
  destruct (isSpace c) eqn:Hc; [|exact Hin].
  apply elem_of_cons in Hin. destruct Hin as [<-|Hin]; [discriminate Hc|].
  apply IH, Hin.
Qed.

Lemma test_semicolon_or_colon_colon s :
  58%N ∈ s -> test_semicolon_or_colon s = true.
Proof.
  unfold test_semicolon_or_colon. intros Hin.
  apply existsb_exists. exists 58%N. split; [|reflexivity].
  apply list_elem_of_In, Hin.
Qed.

End Separators.

Section FoldingFacts.

Import Regex.

Lemma appendToLast_elem_of (lines : list jsstring) (sfx l : jsstring) :
  l ∈ lines -> exists l', l' ∈ appendToLast lines sfx /\ (l' = l \/ l' = l ++ sfx).
Proof.
  induction lines as [|x r IH]; intros Hin; [inversion Hin|].
  apply elem_of_cons in Hin. destruct r as [|y r].
  - destruct Hin as [->|Hin]; [|inversion Hin].
    exists (x ++ sfx). split; [left|right; reflexivity].
  - destruct Hin as [->|Hin].
    + exists x. split; [left|left; reflexivity].
    + destruct (IH Hin) as (l' & Hl' & Hor). exists l'. split; [right; exact Hl'|exact Hor].
Qed.

Lemma appendToLast_elem_of_inv (lines : list jsstring) (sfx l' : jsstring) :
  l' ∈ appendToLast lines sfx -> exists l, l ∈ lines /\ (l' = l \/ l' = l ++ sfx).
Proof.
  induction lines as [|x r IH]; intros Hin; [inversion Hin|].
  destruct r as [|y r].
  - apply list_elem_of_singleton in Hin. exists x. split; [left|right; exact Hin].
  - change (appendToLast (x :: y :: r) sfx) with (x :: appendToLast (y :: r) sfx) in Hin.
    apply elem_of_cons in Hin. destruct Hin as [->|Hin].
    + exists x. split; [left|left; reflexivity].
    + destruct (IH Hin) as (l & Hl & Hor). exists l. split; [right; exact Hl|exact Hor].
Qed.

Lemma joinCRLF_cons (x : jsstring) (r : list jsstring) :
  joinCRLF (x :: r)
  = x ++ match r with [] => [] | _ :: _ => [13%N; 10%N] ++ joinCRLF r end.
Proof. destruct r; simpl; [rewrite app_nil_r|]; reflexivity. Qed.

(** ** A word made of word units, with a colon, survives the repair *)

Section Forward.

Variable w : jsstring.
Hypothesis w_units : Forall (fun c => wordUnit c = true) w.
Hypothesis w_colon : 58%N ∈ w.

Lemma w_nonempty : w <> [].
Proof. intros Hw. rewrite Hw in w_colon. inversion w_colon. Qed.

Lemma occursIn_colon l : occursIn w l -> 58%N ∈ l.
Proof.
  intros (pre & suf & ->). rewrite !elem_of_app. right. left. exact w_colon.
Qed.

Lemma occursIn_app_l l x : occursIn w l -> occursIn w (l ++ x).
Proof.
  intros (pre & suf & ->). exists pre, (suf ++ x). rewrite <- !app_assoc. reflexivity.
Qed.

Lemma occursIn_app_r l x : occursIn w l -> occursIn w (x ++ l).
Proof.
  intros (pre & suf & ->). exists (x ++ pre), suf. rewrite <- !app_assoc. reflexivity.
Qed.

Lemma occursIn_beside c a b :
  wordUnit c = false -> occursIn w (a ++ c :: b) -> occursIn w a \/ occursIn w b.
Proof.
  intros Hc (pre & suf & Heq). symmetry in Heq.
  destruct (occurrence_beside c a b pre w suf Heq
              (wordUnits_not_elem w c w_units Hc))
    as [(suf1 & -> & _)|(pre2 & -> & _)].
  - left. exists pre, suf1. reflexivity.
  - right. exists pre2, suf. reflexivity.
Qed.

Lemma occursIn_tail c b : wordUnit c = false -> occursIn w (c :: b) -> occursIn w b.
Proof.
  intros Hc H. destruct (occursIn_beside c [] b Hc H) as [(pre & suf & Heq)|Hb];
    [|exact Hb].
  exfalso. apply w_nonempty.
  symmetry in Heq. apply app_eq_nil in Heq. destruct Heq as [_ Heq].
  apply app_eq_nil in Heq. tauto.
Qed.

Lemma foldLine_keeps lines line :
  (exists l, l ∈ lines /\ occursIn w l) ->
  exists l, l ∈ foldLine lines line /\ occursIn w l.
Proof.
  intros (l & Hin & Hl). unfold foldLine.
  destruct (_ && _)%bool.
  - destruct (appendToLast_elem_of lines ([92%N; 110%N] ++ trimStart line) l Hin)
      as (l' & Hl' & [->| ->]).
    + exists l. split; assumption.
    + eexists. split; [exact Hl'|]. apply occursIn_app_l, Hl.
  - exists l. split; [apply elem_of_app; left; exact Hin|exact Hl].
Qed.

Lemma foldLine_adds lines line :
  occursIn w line -> exists l, l ∈ foldLine lines line /\ occursIn w l.
Proof.
  intros Hl. unfold foldLine.
  rewrite (test_semicolon_or_colon_colon (trimStart line))
    by (apply trimStart_keeps_colon, occursIn_colon, Hl).
  simpl. exists line. split; [apply elem_of_app; right; left|exact Hl].
Qed.

Lemma scanLines_keeps_bounded (n : nat) s line lines :
  (length s <= n)%nat ->
  occursIn w (line ++ s) \/ (exists l, l ∈ lines /\ occursIn w l) ->
  exists l, l ∈ scanLines s line lines /\ occursIn w l.
Proof.
  revert s line lines. induction n as [|n IH]; intros s line lines Hlen H.
  - destruct s; [|simpl in Hlen; lia].
    simpl. rewrite app_nil_r in H. destruct line as [|x line].
    + destruct H as [(pre & suf & Heq)|H]; [|exact H].
      exfalso. apply w_nonempty.
      symmetry in Heq. apply app_eq_nil in Heq. destruct Heq as [_ Heq].
      apply app_eq_nil in Heq. tauto.
    + destruct H as [H|(l & Hin & Hl)].
      * exists (x :: line). split; [apply elem_of_app; right; left|exact H].
      * exists l. split; [apply elem_of_app; left; exact Hin|exact Hl].
  - destruct s as [|c r]; [apply (IH []); [simpl; lia|exact H]|].
    simpl in Hlen.
    assert (Hbreak : wordUnit c = false ->
              occursIn w ([] ++ r)
              \/ (exists l, l ∈ foldLine lines line /\ occursIn w l)).
    { intros Hc. destruct H as [H|H].
      - destruct (occursIn_beside c line r Hc H) as [Hline|Hr].
        + right. apply foldLine_adds, Hline.
        + left. exact Hr.
      - right. apply foldLine_keeps, H. }
    cbn [scanLines]. destruct (N.eqb_spec c 13) as [->|Hc13].
    + specialize (Hbreak eq_refl). destruct r as [|d r'].
      * apply IH; [simpl; lia|exact Hbreak].
      * destruct (N.eqb_spec d 10) as [->|Hd];
          [|apply IH; [simpl in *; lia|exact Hbreak]].
        apply IH; [simpl in *; lia|].
        destruct Hbreak as [Hr|Hl]; [left|right; exact Hl].
        apply (occursIn_tail 10); [reflexivity|exact Hr].
    + destruct (N.eqb_spec c 10) as [->|Hc10].
      * apply IH; [lia|exact (Hbreak eq_refl)].
      * apply IH; [lia|]. rewrite <- app_assoc. exact H.
Qed.

Lemma fixBrokenLineFolding_keeps s :
  occursIn w s -> occursIn w (fixBrokenLineFolding s).
Proof.
  intros Hs. unfold fixBrokenLineFolding.
  destruct (scanLines_keeps_bounded (length s) s [] []) as (l & Hin & Hl);
    [lia|left; exact Hs|].
  revert Hin. generalize (scanLines s [] []). intros lines.
  induction lines as [|x r IH]; intros Hin; [inversion Hin|].
  rewrite joinCRLF_cons. apply elem_of_cons in Hin. destruct Hin as [<-|Hin].
  - apply occursIn_app_l, Hl.
  - apply occursIn_app_r. destruct r as [|y r]; [inversion Hin|].
    apply occursIn_app_r, IH, Hin.
Qed.

Lemma trimEnd_keeps s : occursIn w s -> occursIn w (trimEnd s).
Proof.
  intros (pre & suf & Heq).
  destruct (trimEnd_split s) as (ws & Hs & Hws).
  destruct ws as [|c ws].
  - rewrite app_nil_r in Hs. rewrite <- Hs. exists pre, suf. exact Heq.
  - rewrite Heq in Hs at 1. apply Forall_cons in Hws. destruct Hws as [Hc Hws].
    assert (Hcw : c ∉ w).
    { intros Hin. rewrite Forall_forall in w_units.
      apply w_units, wordUnit_not_space in Hin. congruence. }
    destruct (occurrence_beside c (trimEnd s) ws pre w suf Hs Hcw)
      as [(suf1 & Ht & _)|(pre2 & Hws' & _)].
    + exists pre, suf1. exact Ht.
    + exfalso.
      assert (Hhead : exists x w', w = x :: w').
      { pose proof w_nonempty as Hne. clear -Hne.
        destruct w as [|x w']; [contradiction|]. exists x, w'. reflexivity. }
      destruct Hhead as (x & w' & Hw).
      rewrite Forall_forall in Hws.
      assert (Hx : isSpace x = true).
      { apply Hws. rewrite Hws', Hw, !elem_of_app. right. left. left. }
      assert (Hux : wordUnit x = true).
      { pose proof w_units as Hu. rewrite Forall_forall in Hu.
        apply Hu. rewrite Hw. left. }
      apply wordUnit_not_space in Hux. congruence.
Qed.

Lemma stripBOM_keeps s : occursIn w s -> occursIn w (stripBOM s).
Proof.
  intros Hs. unfold stripBOM. destruct s as [|c r]; [exact Hs|].
  destruct (N.eqb_spec c 65279) as [->|]; [|exact Hs].
  apply (occursIn_tail 65279); [reflexivity|exact Hs].
Qed.

End Forward.

(** ** The repair creates no line that ends with [END:VCALENDAR] *)

Lemma END_units : Forall (fun c => wordUnit c = true) (lit "END:VCALENDAR").
Proof. repeat constructor. Qed.

Lemma END_colon : 58%N ∈ lit "END:VCALENDAR".
Proof. apply (bool_decide_unpack _). vm_compute. exact I. Qed.

Lemma BEGIN_units : Forall (fun c => wordUnit c = true) (lit "BEGIN:VCALENDAR").
Proof. repeat constructor. Qed.

Lemma BEGIN_colon : 58%N ∈ lit "BEGIN:VCALENDAR".
Proof. apply (bool_decide_unpack _). vm_compute. exact I. Qed.

(** A line that ends with the marker still does inside a text, when the
    line stops at a line break or at the end of the text. *)
Lemma eol_inside (pre line post : jsstring) :
  test_END_VCALENDAR_eol line = true ->
  spacesThenLineEnd post = true ->
  test_END_VCALENDAR_eol (pre ++ line ++ post) = true.
Proof.
  rewrite !test_END_VCALENDAR_eol_true.
  intros (p & w & suf & -> & Hw & Hsuf) Hpost.
  exists (pre ++ p), w, (suf ++ post). split; [|split].
  - rewrite <- !app_assoc. reflexivity.
  - exact Hw.
  - apply spacesThenLineEnd_app; assumption.
Qed.

(** What [foldLine] appends to a line, a backslash and text without a
    colon, does not make the line end with the marker. *)
Lemma eol_merged (x rest : jsstring) :
  test_END_VCALENDAR_eol (x ++ 92%N :: rest) = true ->
  58%N ∉ rest ->
  test_END_VCALENDAR_eol x = true.
Proof.
  rewrite !test_END_VCALENDAR_eol_true.
  intros (pre & w & suf & Heq & Hw & Hsuf) Hrest. symmetry in Heq.
  pose proof (Matches_wordUnits _ _ Hw END_units) as Hunits.
  destruct (occurrence_beside 92 x rest pre w suf Heq
              (wordUnits_not_elem w 92 Hunits eq_refl))
    as [(suf1 & -> & ->)|(pre2 & -> & _)].
  - exists pre, w, suf1. repeat split; [exact Hw|].
    eapply spacesThenLineEnd_prefix. exact Hsuf.
  - exfalso. apply Hrest. rewrite !elem_of_app. right. left.
    apply (Matches_colon _ _ Hw END_colon).
Qed.

Lemma test_semicolon_or_colon_false s :
  test_semicolon_or_colon s = false -> 58%N ∉ s.
Proof.
  intros Hs Hin. rewrite test_semicolon_or_colon_colon in Hs by exact Hin.
  discriminate.
Qed.

Section Backward.

Variable G : Prop.

Lemma foldLine_eol (lines : list jsstring) (line : jsstring) :
  (forall l, l ∈ lines -> test_END_VCALENDAR_eol l = true -> G) ->
  (test_END_VCALENDAR_eol line = true -> G) ->
  forall l, l ∈ foldLine lines line -> test_END_VCALENDAR_eol l = true -> G.
Proof.
  intros Hlines Hline l. unfold foldLine.
  destruct (test_semicolon_or_colon (trimStart line)) eqn:Hprop; simpl.
  - rewrite elem_of_app, list_elem_of_singleton. intros [Hin| ->].
    + apply Hlines, Hin.
    + exact Hline.
  - destruct (_ && _)%bool.
    + intros Hin Hl.
      destruct (appendToLast_elem_of_inv _ _ _ Hin) as (l0 & Hl0 & [->| ->]).
      * eapply Hlines; eassumption.
      * apply (Hlines l0 Hl0). apply (eol_merged l0 (110%N :: trimStart line)).
        -- exact Hl.
        -- intros H58. apply elem_of_cons in H58. destruct H58 as [H58|H58].
           ++ discriminate H58.
           ++ revert H58. apply test_semicolon_or_colon_false, Hprop.
    + rewrite elem_of_app, list_elem_of_singleton. intros [Hin| ->].
      * apply Hlines, Hin.
      * exact Hline.
Qed.

End Backward.

Lemma scanLines_eol_bounded (text : jsstring) (n : nat) :
  forall s line lines pre,
    (length s <= n)%nat ->
    text = pre ++ line ++ s ->
    (forall l, l ∈ lines -> test_END_VCALENDAR_eol l = true ->
               test_END_VCALENDAR_eol text = true) ->
    forall l, l ∈ scanLines s line lines ->
              test_END_VCALENDAR_eol l = true ->
              test_END_VCALENDAR_eol text = true.
Proof.
  induction n as [|n IH]; intros s line lines pre Hlen Htext Hlines.
  - destruct s; [|simpl in Hlen; lia]. simpl.
    destruct line as [|x line]; [exact Hlines|].
    intros l. rewrite elem_of_app, list_elem_of_singleton. intros [Hin| ->].
    + apply Hlines, Hin.
    + intros Hl. rewrite Htext. apply eol_inside; [exact Hl|reflexivity].
  - destruct s as [|c r];
      [apply (IH [] line lines pre); [simpl; lia|exact Htext|exact Hlines]|].
    simpl in Hlen.
    assert (Hbreak : isLineTerminator c = true ->
              forall l, l ∈ foldLine lines line ->
                        test_END_VCALENDAR_eol l = true ->
                        test_END_VCALENDAR_eol text = true).
    { intros Hc. apply foldLine_eol; [exact Hlines|].
      intros Hl. rewrite Htext. apply eol_inside; [exact Hl|].
      simpl. rewrite Hc. reflexivity. }
    cbn [scanLines]. destruct (N.eqb_spec c 13) as [->|Hc13].
    + specialize (Hbreak eq_refl). destruct r as [|d r'].
      * apply (IH [] [] _ (pre ++ line ++ [13%N])); [simpl; lia| |exact Hbreak].
        rewrite Htext, <- !app_assoc. reflexivity.
      * destruct (N.eqb_spec d 10) as [->|Hd].
        -- apply (IH r' [] _ (pre ++ line ++ [13%N; 10%N]));
             [simpl in *; lia| |exact Hbreak].
           rewrite Htext, <- !app_assoc. reflexivity.
        -- apply (IH (d :: r') [] _ (pre ++ line ++ [13%N]));
             [simpl in *; lia| |exact Hbreak].
           rewrite Htext, <- !app_assoc. reflexivity.
    + destruct (N.eqb_spec c 10) as [->|Hc10].
      * apply (IH r [] _ (pre ++ line ++ [10%N])); [lia| |exact (Hbreak eq_refl)].
        rewrite Htext, <- !app_assoc. reflexivity.
      * apply (IH r (line ++ [c]) lines pre); [lia| |exact Hlines].
        rewrite Htext, <- !app_assoc. reflexivity.
Qed.

Lemma joinCRLF_eol (lines : list jsstring) :
  test_END_VCALENDAR_eol (joinCRLF lines) = true ->
  exists l, l ∈ lines /\ test_END_VCALENDAR_eol l = true.
Proof.
  induction lines as [|x r IH]; [discriminate|].
  rewrite joinCRLF_cons. destruct r as [|y r].
  - rewrite app_nil_r. intros Hx. exists x. split; [left|exact Hx].
  - intros H. apply test_END_VCALENDAR_eol_true in H.
    destruct H as (pre & w & suf & Heq & Hw & Hsuf). symmetry in Heq.
    pose proof (Matches_wordUnits _ _ Hw END_units) as Hunits.
    change ([13%N; 10%N] ++ joinCRLF (y :: r))
      with (13%N :: 10%N :: joinCRLF (y :: r)) in Heq.
    destruct (occurrence_beside 13 x _ pre w suf Heq
                (wordUnits_not_elem w 13 Hunits eq_refl))
      as [(suf1 & -> & ->)|(pre2 & Hrest & _)].
    + exists (pre ++ w ++ suf1). split; [left|].
      apply test_END_VCALENDAR_eol_true. exists pre, w, suf1.
      repeat split; [exact Hw|]. eapply spacesThenLineEnd_prefix. exact Hsuf.
    + symmetry in Hrest.
      destruct (occurrence_beside 10 [] _ pre2 w suf Hrest
                  (wordUnits_not_elem w 10 Hunits eq_refl))
        as [(suf1 & Hnil & _)|(pre3 & Hrest' & _)].
      * exfalso. symmetry in Hnil. apply app_eq_nil in Hnil.
        destruct Hnil as [_ Hnil]. apply app_eq_nil in Hnil.
        destruct Hnil as [Hnil _].
        revert Hnil. apply (Matches_nonempty _ _ Hw). discriminate.
      * destruct IH as (l & Hin & Hl).
        -- apply test_END_VCALENDAR_eol_true. exists pre3, w, suf.
           repeat split; assumption.
        -- exists l. split; [right; exact Hin|exact Hl].
Qed.

(** No line of the repaired text ends with [END:VCALENDAR] unless a line
    of the text does. *)
Lemma repaired_eol (text : jsstring) :
  test_END_VCALENDAR_eol (trimEnd (fixBrokenLineFolding (stripBOM text))) = true ->
  test_END_VCALENDAR_eol text = true.
Proof.
  intros H.
  assert (Hfix : test_END_VCALENDAR_eol (fixBrokenLineFolding (stripBOM text)) = true).
  { destruct (trimEnd_split (fixBrokenLineFolding (stripBOM text)))
      as (ws & Hs & Hws).
    rewrite Hs. apply (eol_inside [] _ ws); [exact H|].
    apply spacesThenLineEnd_spaces, Hws. }
  apply joinCRLF_eol in Hfix. destruct Hfix as (l & Hin & Hl).
  assert (Hbom : test_END_VCALENDAR_eol (stripBOM text) = true).
  { apply (scanLines_eol_bounded (stripBOM text) (length (stripBOM text))
             (stripBOM text) [] [] [] ltac:(lia) eq_refl)
      with (l := l).
    - intros l0 Hl0. inversion Hl0.
    - exact Hin.
    - exact Hl. }
  unfold stripBOM in Hbom. destruct text as [|c r]; [exact Hbom|].
  destruct (N.eqb c 65279); [|exact Hbom].
  rewrite <- (app_nil_r r). apply (eol_inside [c] r []); [exact Hbom|reflexivity].
Qed.

(** A text that holds [BEGIN:VCALENDAR] still does once repaired. *)
Lemma repaired_begin (text : jsstring) :
  test_BEGIN_VCALENDAR text = true ->
  test_BEGIN_VCALENDAR (trimEnd (fixBrokenLineFolding (stripBOM text))) = true.
Proof.
  rewrite !test_BEGIN_VCALENDAR_true.
  intros (pre & w & suf & Heq & Hw).
  pose proof (Matches_wordUnits _ _ Hw BEGIN_units) as Hunits.
  pose proof (Matches_colon _ _ Hw BEGIN_colon) as Hcolon.
  destruct (trimEnd_keeps w Hunits Hcolon _
              (fixBrokenLineFolding_keeps w Hunits Hcolon _
                 (stripBOM_keeps w Hunits Hcolon text
                    (ex_intro _ pre (ex_intro _ suf Heq)))))
    as (pre' & suf' & Heq').
  exists pre', w, suf'. split; [exact Heq'|exact Hw].
Qed.

End FoldingFacts.

Lemma test_BEGIN_VCALENDAR_app (s x : jsstring) :
  Regex.test_BEGIN_VCALENDAR s = true -> Regex.test_BEGIN_VCALENDAR (s ++ x) = true.
Proof.
  rewrite !test_BEGIN_VCALENDAR_true. intros (pre & w & suf & -> & Hw).
  exists pre, w, (suf ++ x). split; [|exact Hw].
  rewrite <- !app_assoc. reflexivity.
Qed.

(** C7 (amended). A text that holds the marker [BEGIN:VCALENDAR] and no
    line of which ends with [END:VCALENDAR] gets the terminator appended by
    the normalizer, and is then handed to the parser of ical.js: when that
    parser accepts the repaired text, [parseICS] returns the events of the
    calendar, and when it throws, [parseICS] throws the parse failure with
    its message.  A text that holds no [BEGIN:VCALENDAR] once normalized
    makes [parseICS] throw the not-a-calendar error whatever the parser is:
    the parser is not called. *)
Theorem normalize_repairs_or_rejects (LocalTZA : Z -> bool -> Z)
    (ICAL_parse : jsstring -> outcome ICAL.Component)
    (clock : nat -> Date) (cid cname col : jsstring) (icsText : jsstring) :
  (Regex.test_BEGIN_VCALENDAR icsText = true ->
   Regex.test_END_VCALENDAR_eol icsText = false ->
   normalizeICSText icsText
   = trimEnd (fixBrokenLineFolding (stripBOM icsText))
     ++ [13%N; 10%N] ++ lit "END:VCALENDAR"
   /\ (forall comp,
         ICAL_parse (normalizeICSText icsText) = Returns comp ->
         parseICS LocalTZA ICAL_parse clock cid cname col icsText
         = Returns (parseICSEvents LocalTZA clock cid cname col comp))
   /\ (forall msg,
         ICAL_parse (normalizeICSText icsText) = Throws msg ->
         parseICS LocalTZA ICAL_parse clock cid cname col icsText
         = Throws (lit "Calendar parse failed: " ++ msg)))
  /\ (Regex.test_BEGIN_VCALENDAR (normalizeICSText icsText) = false ->
      exists preview,
        forall parser : jsstring -> outcome ICAL.Component,
          parseICS LocalTZA parser clock cid cname col icsText
          = Throws
              (lit "Response is not a calendar (expected BEGIN:VCALENDAR). "
               ++ preview)).
Proof.
  split.
  - intros Hbegin Hend.
    assert (Hnorm : normalizeICSText icsText
                    = trimEnd (fixBrokenLineFolding (stripBOM icsText))
                      ++ [13%N; 10%N] ++ lit "END:VCALENDAR").
    { unfold normalizeICSText.
      rewrite (repaired_begin icsText Hbegin).
      destruct (Regex.test_END_VCALENDAR_eol
                  (trimEnd (fixBrokenLineFolding (stripBOM icsText)))) eqn:Hrep;
        [|reflexivity].
      apply repaired_eol in Hrep. congruence. }
    assert (Hok : Regex.test_BEGIN_VCALENDAR (normalizeICSText icsText) = true).
    { rewrite Hnorm. apply test_BEGIN_VCALENDAR_app, repaired_begin, Hbegin. }
    split; [exact Hnorm|]. split.
    + intros comp Hcomp. unfold parseICS. rewrite Hok, Hcomp. reflexivity.
    + intros msg Hmsg. unfold parseICS. rewrite Hok, Hmsg. reflexivity.
  - intros Hno. eexists. intros parser. unfold parseICS. rewrite Hno.
    cbn [negb]. reflexivity.
Qed.

(** A calendar cut after its last event is repaired and parsed; the page
    of an HTTP error is refused. *)
Lemma normalize_repairs_or_rejects_witness :
  (normalizeICSText Sample.truncatedText
   = trimEnd (fixBrokenLineFolding (stripBOM Sample.truncatedText))
     ++ [13%N; 10%N] ++ lit "END:VCALENDAR"
   /\ parseICS UTCzone (Sample.parserFinding [Sample.holiday]) Sample.noon2024
        (lit "home") (lit "Home") (lit "#3b82f6") Sample.truncatedText
      = Returns
          (parseICSEvents UTCzone Sample.noon2024 (lit "home") (lit "Home")
             (lit "#3b82f6")
             {| ICAL.getAllSubcomponents := Returns [Sample.holiday] |}))
  /\ exists preview,
       forall parser : jsstring -> outcome ICAL.Component,
         parseICS UTCzone parser Sample.noon2024
           (lit "home") (lit "Home") (lit "#3b82f6") Sample.htmlText
         = Throws
             (lit "Response is not a calendar (expected BEGIN:VCALENDAR). "
              ++ preview).
Proof.
  split.
  - destruct (normalize_repairs_or_rejects UTCzone
                (Sample.parserFinding [Sample.holiday]) Sample.noon2024
                (lit "home") (lit "Home") (lit "#3b82f6") Sample.truncatedText)
      as [Hrepair _].
    destruct Hrepair as (Hnorm & Hparse & _);
      [vm_compute; reflexivity|vm_compute; reflexivity|].
    split; [exact Hnorm|]. apply Hparse. reflexivity.
  - destruct (normalize_repairs_or_rejects UTCzone
                (Sample.parserFinding []) Sample.noon2024
                (lit "home") (lit "Home") (lit "#3b82f6") Sample.htmlText)
      as [_ Hreject].
    apply Hreject. vm_compute. reflexivity.
Defined.

(** C7, as stated, fails.  A stream whose first calendar is complete and
    whose second was cut before its [END:VCALENDAR] holds the marker
    [BEGIN:VCALENDAR] and misses its terminator, yet the normalizer appends
    nothing, because a line of the text ends with [END:VCALENDAR]: what it
    returns does not end with the terminator.  And a calendar cut inside an
    event gets the terminator, but is not parsed for that: whenever the
    parser refuses the repaired text (ical.js refuses a component that
    began and did not end), [parseICS] throws. *)
Lemma missing_terminator_not_always_repaired :
  Regex.test_BEGIN_VCALENDAR Cases.cutStream = true
  /\ normalizeICSText Cases.cutStream = trimEnd Cases.cutStream
  /\ (forall pre : jsstring,
        normalizeICSText Cases.cutStream <> pre ++ lit "END:VCALENDAR")
  /\ normalizeICSText Cases.cutInsideEvent
     = trimEnd Cases.cutInsideEvent ++ [13%N; 10%N] ++ lit "END:VCALENDAR"
  /\ (forall (parser : jsstring -> outcome ICAL.Component) (msg : jsstring),
        parser (normalizeICSText Cases.cutInsideEvent) = Throws msg ->
        parseICS UTCzone parser Sample.noon2024
          (lit "home") (lit "Home") (lit "#3b82f6") Cases.cutInsideEvent
        = Throws (lit "Calendar parse failed: " ++ msg)).
Proof.
  split; [vm_compute; reflexivity|].
  split; [vm_compute; reflexivity|].
  split.
  - intros pre H. apply (f_equal (@rev N)) in H. rewrite rev_app_distr in H.
    vm_compute in H. discriminate H.
  - split; [vm_compute; reflexivity|].
    intros parser msg Hmsg. unfold parseICS.
    assert (Hok : Regex.test_BEGIN_VCALENDAR (normalizeICSText Cases.cutInsideEvent)
                  = true) by (vm_compute; reflexivity).
    rewrite Hok, Hmsg. reflexivity.
Qed.

(** The error of an HTML page says so.  (The line break of the page was
    merged by the repair of the folding into a backslash and an [n].) *)
Example parseICS_html_page :
  parseICS UTCzone (Sample.parserFinding []) Sample.noon2024
    (lit "home") (lit "Home") (lit "#3b82f6") Sample.htmlText
  = Throws
      (lit "Response is not a calendar (expected BEGIN:VCALENDAR). "
       ++ lit "Server may have returned HTML."
       ++ lit " Preview: "
       ++ lit "<!DOCTYPE html>\n<html><body>502 Bad Gateway</body></html>").
Proof. vm_compute. reflexivity. Qed.

(* ===================================================================== *)
(** * Date keys and local days *)
(* ===================================================================== *)

(** A number below 100, padded to two units, is its two decimal digits. *)
Lemma padStart_two_digits n :
  0 <= n < 100 ->
  padStart 2 48 (String_of_Z n) = [Z.to_N (48 + n / 10); Z.to_N (48 + n mod 10)].
Proof.
  intros Hn.
  assert (Hall : forallb
            (fun k => bool_decide
               (padStart 2 48 (String_of_Z (Z.of_nat k))
                = [Z.to_N (48 + Z.of_nat k / 10); Z.to_N (48 + Z.of_nat k mod 10)]))
            (seq 0 100) = true) by (vm_compute; reflexivity).
  rewrite forallb_forall in Hall.
  specialize (Hall (Z.to_nat n)).
  rewrite Z2Nat.id in Hall by lia.
  apply bool_decide_eq_true in Hall; [exact Hall|].
  apply in_seq. lia.
Qed.

Lemma padStart_two_digits_inj n1 n2 :
  0 <= n1 < 100 -> 0 <= n2 < 100 ->
  padStart 2 48 (String_of_Z n1) = padStart 2 48 (String_of_Z n2) -> n1 = n2.
Proof.
  intros H1 H2. rewrite !padStart_two_digits by assumption.
  intros [= Ha Hb].
  apply Z2N.inj in Ha; [|Z.to_euclidean_division_equations; lia..].
  apply Z2N.inj in Hb; [|Z.to_euclidean_division_equations; lia..].
  Z.to_euclidean_division_equations. lia.
Qed.

(** The date fields are those of the day. *)
Lemma YearFromTime_Day t1 t2 : Day t1 = Day t2 -> YearFromTime t1 = YearFromTime t2.
Proof. unfold YearFromTime. intros ->. reflexivity. Qed.

Lemma MonthFromTime_Day t1 t2 : Day t1 = Day t2 -> MonthFromTime t1 = MonthFromTime t2.
Proof.
  intros H. unfold MonthFromTime, DayWithinYear, InLeapYear.
  rewrite (YearFromTime_Day _ _ H), H. reflexivity.
Qed.

Lemma DateFromTime_Day t1 t2 : Day t1 = Day t2 -> DateFromTime t1 = DateFromTime t2.
Proof.
  intros H. unfold DateFromTime, DayWithinYear, InLeapYear.
  rewrite (MonthFromTime_Day _ _ H), (YearFromTime_Day _ _ H), H. reflexivity.
Qed.

(** Conversely the year, the month and the date give the day back. *)
Lemma Day_from_fields t :
  Day t = DayFromYear (YearFromTime t)
          + monthStart (InLeapYear t) (MonthFromTime t) + DateFromTime t - 1.
Proof. unfold DateFromTime, DayWithinYear. lia. Qed.

Lemma toLocalDateKey_fields (LocalTZA : Z -> bool -> Z) (d1 d2 : Date) :
  toLocalDateKey LocalTZA d1 = toLocalDateKey LocalTZA d2 ->
  getFullYear LocalTZA d1 = getFullYear LocalTZA d2
  /\ getMonth LocalTZA d1 = getMonth LocalTZA d2
  /\ getDate LocalTZA d1 = getDate LocalTZA d2.
Proof.
  unfold toLocalDateKey, getFullYear, getMonth, getDate.
  set (t1 := LocalTime LocalTZA d1). set (t2 := LocalTime LocalTZA d2).
  pose proof (MonthFromTime_range t1) as Hm1.
  pose proof (MonthFromTime_range t2) as Hm2.
  pose proof (DateFromTime_range t1) as Hd1.
  pose proof (DateFromTime_range t2) as Hd2.
  rewrite (padStart_two_digits (MonthFromTime t1 + 1)) by lia.
  rewrite (padStart_two_digits (MonthFromTime t2 + 1)) by lia.
  rewrite (padStart_two_digits (DateFromTime t1)) by lia.
  rewrite (padStart_two_digits (DateFromTime t2)) by lia.
  intros Heq. apply app_inj_2 in Heq; [|reflexivity].
  destruct Heq as [Hy Hrest]. apply String_of_Z_inj in Hy.
  injection Hrest as Hm10 Hm01 Hd10 Hd01.
  apply Z2N.inj in Hm10; [|Z.to_euclidean_division_equations; lia..].
  apply Z2N.inj in Hm01; [|Z.to_euclidean_division_equations; lia..].
  apply Z2N.inj in Hd10; [|Z.to_euclidean_division_equations; lia..].
  apply Z2N.inj in Hd01; [|Z.to_euclidean_division_equations; lia..].
  split; [exact Hy|].
  split; Z.to_euclidean_division_equations; lia.
Qed.

(** X1. Two instants have the same date key exactly when they fall on the
    same local day. *)
Theorem toLocalDateKey_same_day (LocalTZA : Z -> bool -> Z) (d1 d2 : Date) :
  toLocalDateKey LocalTZA d1 = toLocalDateKey LocalTZA d2
  <-> Day (LocalTime LocalTZA d1) = Day (LocalTime LocalTZA d2).
Proof.
  split.
  - intros Heq. apply toLocalDateKey_fields in Heq.
    destruct Heq as (Hy & Hm & Hd).
    unfold getFullYear, getMonth, getDate in *.
    rewrite (Day_from_fields (LocalTime LocalTZA d1)),
            (Day_from_fields (LocalTime LocalTZA d2)).
    unfold InLeapYear. rewrite Hy, Hm, Hd. reflexivity.
  - intros Hday. unfold toLocalDateKey, getFullYear, getMonth, getDate.
    rewrite (YearFromTime_Day _ _ Hday), (MonthFromTime_Day _ _ Hday),
            (DateFromTime_Day _ _ Hday).
    reflexivity.
Qed.

Section FixedZoneWeek.

Variable offset : Z.
Abbreviation zone := (Sample.fixedZone offset).

Lemma Day_shift_days d n : Day (d + n * msPerDay) = Day d + n.
Proof. unfold Day. apply Z.div_add. unfold msPerDay. lia. Qed.

Lemma LocalTime_fixed d : LocalTime zone d = d + offset.
Proof. reflexivity. Qed.

Lemma setHours_fixed d h m s ms :
  setHours zone d h m s ms = MakeDate (Day (d + offset)) (MakeTime h m s ms) - offset.
Proof. reflexivity. Qed.

Lemma Day_setHours_fixed d h m s ms :
  0 <= MakeTime h m s ms < msPerDay ->
  Day (setHours zone d h m s ms + offset) = Day (d + offset).
Proof.
  intros Ht. rewrite setHours_fixed.
  replace (MakeDate (Day (d + offset)) (MakeTime h m s ms) - offset + offset)
    with (MakeDate (Day (d + offset)) (MakeTime h m s ms)) by lia.
  apply Day_MakeDate, Ht.
Qed.

Lemma setDate_shift_fixed d n :
  setDate zone d (getDate zone d + n) = d + n * msPerDay.
Proof. rewrite setDate_getDate_fixed, MakeDate_shift_days. lia. Qed.

(** The day [i] of the week shown has the key of the instant [i] days
    after the start of the week. *)
Lemma weekDay_key weekStart i :
  toLocalDateKey zone
    (setDate zone (setHours zone weekStart 0 0 0 0)
       (getDate zone (setHours zone weekStart 0 0 0 0) + i))
  = toLocalDateKey zone (weekStart + i * msPerDay).
Proof.
  apply toLocalDateKey_same_day. rewrite setDate_shift_fixed, !LocalTime_fixed.
  replace (setHours zone weekStart 0 0 0 0 + i * msPerDay + offset)
    with (setHours zone weekStart 0 0 0 0 + offset + i * msPerDay) by lia.
  replace (weekStart + i * msPerDay + offset)
    with (weekStart + offset + i * msPerDay) by lia.
  rewrite !Day_shift_days, Day_setHours_fixed; [reflexivity|].
  unfold MakeTime, msPerDay. lia.
Qed.

Lemma getWeekDateKeys_fixed weekStart :
  getWeekDateKeys zone weekStart
  = List.map (fun i => toLocalDateKey zone (weekStart + i * msPerDay))
      [0; 1; 2; 3; 4].
Proof.
  unfold getWeekDateKeys.
  change (List.map Z.of_nat (seq 0 (Z.to_nat WEEKDAY_COUNT))) with [0; 1; 2; 3; 4].
  cbn [List.map]. rewrite !weekDay_key. reflexivity.
Qed.

Lemma elem_of_getWeekDateKeys_fixed weekStart t :
  toLocalDateKey zone t ∈ getWeekDateKeys zone weekStart
  <-> Day (weekStart + offset) <= Day (t + offset) <= Day (weekStart + offset) + 4.
Proof.
  rewrite getWeekDateKeys_fixed, list_elem_of_In, in_map_iff. split.
  - intros (i & Hkey & Hi). symmetry in Hkey.
    apply toLocalDateKey_same_day in Hkey. rewrite !LocalTime_fixed in Hkey.
    replace (weekStart + i * msPerDay + offset)
      with (weekStart + offset + i * msPerDay) in Hkey by lia.
    rewrite Day_shift_days in Hkey.
    simpl in Hi. intuition lia.
  - intros Hday. exists (Day (t + offset) - Day (weekStart + offset)). split.
    + apply toLocalDateKey_same_day. rewrite !LocalTime_fixed.
      replace (weekStart + (Day (t + offset) - Day (weekStart + offset)) * msPerDay
               + offset)
        with (weekStart + offset
              + (Day (t + offset) - Day (weekStart + offset)) * msPerDay) by lia.
      rewrite Day_shift_days. lia.
    + assert (Hcases : Day (t + offset) - Day (weekStart + offset) = 0
                       \/ Day (t + offset) - Day (weekStart + offset) = 1
                       \/ Day (t + offset) - Day (weekStart + offset) = 2
                       \/ Day (t + offset) - Day (weekStart + offset) = 3
                       \/ Day (t + offset) - Day (weekStart + offset) = 4) by lia.
      simpl. intuition (rewrite H0 || rewrite H || idtac; eauto).
Qed.

End FixedZoneWeek.

(** X2. In a zone with a fixed offset, the date keys of a week are five
    different keys, and the key of an instant is one of them exactly when
    the instant falls on one of the five local days that start with the day
    of [weekStart]. *)
Theorem getWeekDateKeys_five_days (offset : Z) (weekStart : Date) :
  length (getWeekDateKeys (Sample.fixedZone offset) weekStart) = 5%nat
  /\ NoDup (getWeekDateKeys (Sample.fixedZone offset) weekStart)
  /\ forall t : Date,
       toLocalDateKey (Sample.fixedZone offset) t
         ∈ getWeekDateKeys (Sample.fixedZone offset) weekStart
       <-> Day (weekStart + offset) <= Day (t + offset)
           <= Day (weekStart + offset) + 4.
Proof.
  split; [reflexivity|]. split; [|apply elem_of_getWeekDateKeys_fixed].
  rewrite getWeekDateKeys_fixed.
  apply (NoDup_fmap_2_strong
           (fun i => toLocalDateKey (Sample.fixedZone offset)
                       (weekStart + i * msPerDay))).
  - intros i j _ _ Hkey. apply toLocalDateKey_same_day in Hkey.
    rewrite !LocalTime_fixed in Hkey.
    replace (weekStart + i * msPerDay + offset)
      with (weekStart + offset + i * msPerDay) in Hkey by lia.
    replace (weekStart + j * msPerDay + offset)
      with (weekStart + offset + j * msPerDay) in Hkey by lia.
    rewrite !Day_shift_days in Hkey. lia.
  - apply (bool_decide_unpack _). vm_compute. exact I.
Qed.

(** X3. Every bucket of [groupEventsByDay] holds, in ascending order of
    start, exactly the input events that start on its day: it is a sorted
    permutation of them, so no such event is lost or repeated. *)
Theorem groupEventsByDay_bucket_sorted (LocalTZA : Z -> bool -> Z)
    (events : list CalendarEvent) (dateKeys : list jsstring) (k : jsstring) :
  k ∈ dateKeys ->
  exists bucket,
    groupEventsByDay LocalTZA events dateKeys !! k = Some bucket
    /\ bucket ≡ₚ filter (fun e => toLocalDateKey LocalTZA (ev_start e) = k) events
    /\ StronglySorted (fun a b => ev_start a <= ev_start b) bucket.
Proof.
  intros Hk. rewrite groupEventsByDay_lookup, decide_True by exact Hk.
  eexists. split; [reflexivity|].
  split; [apply sortByStart_Permutation|apply sortByStart_sorted].
Qed.

Lemma groupEventsByDay_bucket_sorted_witness :
  exists bucket,
    groupEventsByDay UTCzone
      [Sample.mkEvent "late" (utcDate 2024 0 2 15 0) (utcDate 2024 0 2 16 0);
       Sample.spanning; Sample.tuesdayEvent]
      (getWeekDateKeys UTCzone Sample.monday) !! lit "2024-01-02" = Some bucket
    /\ bucket
       ≡ₚ filter (fun e => toLocalDateKey UTCzone (ev_start e) = lit "2024-01-02")
            [Sample.mkEvent "late" (utcDate 2024 0 2 15 0) (utcDate 2024 0 2 16 0);
             Sample.spanning; Sample.tuesdayEvent]
    /\ StronglySorted (fun a b => ev_start a <= ev_start b) bucket.
Proof.
  apply groupEventsByDay_bucket_sorted.
  apply (bool_decide_unpack _). vm_compute. exact I.
Defined.

(** X4. In a zone with a fixed offset, an event of the list given to
    [groupEventsByDay] with the keys of a week lands in a bucket exactly
    when it starts on one of the five local days of the week, and then in
    the bucket of that day. *)
Theorem bucketed_iff_starts_in_week (offset : Z) (events : list CalendarEvent)
    (weekStart : Date) (ev : CalendarEvent) :
  ev ∈ events ->
  ((exists (k : jsstring) bucket,
      groupEventsByDay (Sample.fixedZone offset) events
        (getWeekDateKeys (Sample.fixedZone offset) weekStart) !! k = Some bucket
      /\ ev ∈ bucket)
   <-> Day (weekStart + offset) <= Day (ev_start ev + offset)
       <= Day (weekStart + offset) + 4)
  /\ forall (k : jsstring) bucket,
       groupEventsByDay (Sample.fixedZone offset) events
         (getWeekDateKeys (Sample.fixedZone offset) weekStart) !! k = Some bucket ->
       ev ∈ bucket ->
       k = toLocalDateKey (Sample.fixedZone offset) (ev_start ev).
Proof.
  intros Hin.
  assert (Hbucket : forall (k : jsstring) bucket,
             groupEventsByDay (Sample.fixedZone offset) events
               (getWeekDateKeys (Sample.fixedZone offset) weekStart) !! k
             = Some bucket ->
             ev ∈ bucket ->
             k ∈ getWeekDateKeys (Sample.fixedZone offset) weekStart
             /\ k = toLocalDateKey (Sample.fixedZone offset) (ev_start ev)).
  { intros k bucket Hk Hev. rewrite groupEventsByDay_lookup in Hk.
    destruct (decide (k ∈ _)) as [Hkin|]; [|discriminate].
    injection Hk as <-. rewrite elem_of_sortByStart in Hev.
    apply list_elem_of_filter in Hev. destruct Hev as [Hkey _].
    split; [exact Hkin|symmetry; exact Hkey]. }
  split; [|intros k bucket Hk Hev; apply (Hbucket k bucket Hk Hev)].
  rewrite <- elem_of_getWeekDateKeys_fixed. split.
  - intros (k & bucket & Hk & Hev).
    destruct (Hbucket k bucket Hk Hev) as [Hkin ->]. exact Hkin.
  - intros Hkin. eexists. eexists. split.
    + rewrite groupEventsByDay_lookup, decide_True by exact Hkin. reflexivity.
    + rewrite elem_of_sortByStart. apply list_elem_of_filter.
      split; [reflexivity|exact Hin].
Qed.

Lemma bucketed_iff_starts_in_week_witness :
  ((exists (k : jsstring) bucket,
      groupEventsByDay (Sample.fixedZone 3600000)
        [Sample.spanning; Sample.tuesdayEvent]
        (getWeekDateKeys (Sample.fixedZone 3600000) Sample.monday) !! k
      = Some bucket
      /\ Sample.tuesdayEvent ∈ bucket)
   <-> Day (Sample.monday + 3600000) <= Day (ev_start Sample.tuesdayEvent + 3600000)
       <= Day (Sample.monday + 3600000) + 4)
  /\ forall (k : jsstring) bucket,
       groupEventsByDay (Sample.fixedZone 3600000)
         [Sample.spanning; Sample.tuesdayEvent]
         (getWeekDateKeys (Sample.fixedZone 3600000) Sample.monday) !! k
       = Some bucket ->
       Sample.tuesdayEvent ∈ bucket ->
       k = toLocalDateKey (Sample.fixedZone 3600000) (ev_start Sample.tuesdayEvent).
Proof.
  apply bucketed_iff_starts_in_week.
  apply (bool_decide_unpack _). vm_compute. exact I.
Defined.

(* ===================================================================== *)
(** * Properties of the week navigation *)
(* ===================================================================== *)

Section NavigationFacts.

Variable offset : Z.
Abbreviation zone := (Sample.fixedZone offset).

Lemma MakeDate_Day_bounds d : MakeDate (Day d) 0 <= d < MakeDate (Day d + 1) 0.
Proof.
  unfold MakeDate, Day.
  pose proof (Z.div_mod d msPerDay ltac:(unfold msPerDay; lia)) as H.
  pose proof (Z.mod_pos_bound d msPerDay ltac:(unfold msPerDay; lia)) as Hm.
  lia.
Qed.

Lemma getWeekStart_fixed d :
  getWeekStart zone d
  = MakeDate (Day (d + offset)
              + (if WeekDay (d + offset) =? 0 then -6
                 else 1 - WeekDay (d + offset))) 0 - offset.
Proof.
  unfold getWeekStart, getDay. rewrite LocalTime_fixed.
  set (n := if WeekDay (d + offset) =? 0 then -6 else 1 - WeekDay (d + offset)).
  replace (getDate zone d - WeekDay (d + offset)
           + (if WeekDay (d + offset) =? 0 then -6 else 1))
    with (getDate zone d + n)
    by (subst n; destruct (Z.eqb_spec (WeekDay (d + offset)) 0); lia).
  rewrite setDate_shift_fixed, setHours_fixed.
  replace (d + n * msPerDay + offset) with (d + offset + n * msPerDay) by lia.
  rewrite Day_shift_days. reflexivity.
Qed.

Lemma goToNextWeek_fixed d : goToNextWeek zone d = d + 7 * msPerDay.
Proof. unfold goToNextWeek. apply setDate_shift_fixed. Qed.

Lemma goToPrevWeek_fixed d : goToPrevWeek zone d = d - 7 * msPerDay.
Proof.
  unfold goToPrevWeek.
  replace (getDate zone d - 7) with (getDate zone d + -7) by lia.
  rewrite setDate_shift_fixed. lia.
Qed.

Lemma isThisWeek_fixed now weekStart :
  isThisWeek zone now weekStart = true
  <-> Day (weekStart + offset) <= Day (now + offset) <= Day (weekStart + offset) + 4.
Proof.
  unfold isThisWeek.
  replace (getDate zone (setHours zone weekStart 0 0 0 0) + DAY_COUNT - 1)
    with (getDate zone (setHours zone weekStart 0 0 0 0) + 4)
    by (unfold DAY_COUNT; lia).
  rewrite setDate_shift_fixed.
  rewrite (setHours_fixed offset (setHours zone weekStart 0 0 0 0 + 4 * msPerDay)).
  replace (setHours zone weekStart 0 0 0 0 + 4 * msPerDay + offset)
    with (setHours zone weekStart 0 0 0 0 + offset + 4 * msPerDay) by lia.
  rewrite Day_shift_days, Day_setHours_fixed by (unfold MakeTime, msPerDay; lia).
  rewrite setHours_fixed, andb_true_iff, !Z.leb_le.
  pose proof (MakeDate_Day_bounds (now + offset)) as Hnow.
  unfold MakeDate, MakeTime, msPerDay in *. split; intros H; nia.
Qed.

End NavigationFacts.

(** X5. In a zone with a fixed offset, [getWeekStart] returns a Monday at
    local midnight, not after the instant given and less than seven days
    before it. *)
Theorem getWeekStart_monday (offset : Z) (d : Date) :
  getDay (Sample.fixedZone offset) (getWeekStart (Sample.fixedZone offset) d) = 1
  /\ startOfDay (Sample.fixedZone offset) (getWeekStart (Sample.fixedZone offset) d)
     = getWeekStart (Sample.fixedZone offset) d
  /\ getWeekStart (Sample.fixedZone offset) d <= d
     < getWeekStart (Sample.fixedZone offset) d + 7 * msPerDay.
Proof.
  rewrite getWeekStart_fixed.
  set (D := Day (d + offset)).
  set (n := if WeekDay (d + offset) =? 0 then -6 else 1 - WeekDay (d + offset)).
  assert (Hn : -6 <= n <= 0 /\ (D + n + 4) mod 7 = 1).
  { subst n. unfold WeekDay. fold D.
    destruct (Z.eqb_spec ((D + 4) mod 7) 0);
      Z.to_euclidean_division_equations; lia. }
  assert (Hday : Day (MakeDate (D + n) 0 - offset + offset) = D + n).
  { replace (MakeDate (D + n) 0 - offset + offset) with (MakeDate (D + n) 0) by lia.
    apply Day_MakeDate. unfold msPerDay. lia. }
  split; [|split].
  - unfold getDay, WeekDay. rewrite LocalTime_fixed, Hday. apply Hn.
  - unfold startOfDay. rewrite setHours_fixed, Hday. reflexivity.
  - pose proof (MakeDate_Day_bounds (d + offset)) as Hd. fold D in Hd.
    unfold MakeDate, msPerDay in *. lia.
Qed.

(** X6. In a zone with a fixed offset, going to the next week and back
    gives the same instant, either way; the next week starts on the same
    day of the week, and shares no date key with the week left. *)
Theorem week_navigation_round_trip (offset : Z) (d : Date) :
  goToPrevWeek (Sample.fixedZone offset) (goToNextWeek (Sample.fixedZone offset) d) = d
  /\ goToNextWeek (Sample.fixedZone offset) (goToPrevWeek (Sample.fixedZone offset) d)
     = d
  /\ getDay (Sample.fixedZone offset) (goToNextWeek (Sample.fixedZone offset) d)
     = getDay (Sample.fixedZone offset) d
  /\ forall k : jsstring,
       k ∈ getWeekDateKeys (Sample.fixedZone offset)
             (goToNextWeek (Sample.fixedZone offset) d) ->
       k ∉ getWeekDateKeys (Sample.fixedZone offset) d.
Proof.
  rewrite !goToNextWeek_fixed, !goToPrevWeek_fixed.
  split; [lia|]. split; [lia|]. split.
  - unfold getDay, WeekDay. rewrite !LocalTime_fixed.
    replace (d + 7 * msPerDay + offset) with (d + offset + 7 * msPerDay) by lia.
    rewrite Day_shift_days. Z.to_euclidean_division_equations. lia.
  - intros k Hk. rewrite getWeekDateKeys_fixed in Hk.
    apply list_elem_of_In, in_map_iff in Hk. destruct Hk as (i & <- & Hi).
    rewrite elem_of_getWeekDateKeys_fixed.
    replace (d + 7 * msPerDay + i * msPerDay + offset)
      with (d + offset + (7 + i) * msPerDay) by lia.
    rewrite Day_shift_days. simpl in Hi. intuition lia.
Qed.

(** X7. In a zone with a fixed offset, [isThisWeek] of [App] holds exactly
    when the date key of the present instant is one of the date keys of the
    week shown. *)
Theorem isThisWeek_iff_today_in_keys (offset : Z) (now weekStart : Date) :
  isThisWeek (Sample.fixedZone offset) now weekStart = true
  <-> toLocalDateKey (Sample.fixedZone offset) now
        ∈ getWeekDateKeys (Sample.fixedZone offset) weekStart.
Proof. rewrite isThisWeek_fixed, elem_of_getWeekDateKeys_fixed. reflexivity. Qed.

(** X8. In a zone with a fixed offset, the week that [getWeekStart] gives
    for the present instant is "this week" exactly from Monday to Friday:
    on a Saturday or a Sunday the week shown is the one that has just
    ended, and [isThisWeek] is false. *)
Theorem this_week_only_on_weekdays (offset : Z) (now : Date) :
  isThisWeek (Sample.fixedZone offset) now
    (getWeekStart (Sample.fixedZone offset) now) = true
  <-> 1 <= getDay (Sample.fixedZone offset) now <= 5.
Proof.
  rewrite isThisWeek_fixed, getWeekStart_fixed.
  unfold getDay. rewrite LocalTime_fixed.
  set (D := Day (now + offset)).
  set (n := if WeekDay (now + offset) =? 0 then -6 else 1 - WeekDay (now + offset)).
  replace (MakeDate (D + n) 0 - offset + offset) with (MakeDate (D + n) 0) by lia.
  rewrite Day_MakeDate by (unfold msPerDay; lia).
  subst n. unfold WeekDay. fold D.
  destruct (Z.eqb_spec ((D + 4) mod 7) 0);
    Z.to_euclidean_division_equations; lia.
Qed.

(** X9. In a zone with a fixed offset, the week filter and the date keys
    depend on [weekStart] only through its local day. *)
Theorem week_depends_on_local_day (offset : Z) (events : list CalendarEvent)
    (weekStart1 weekStart2 : Date) :
  Day (weekStart1 + offset) = Day (weekStart2 + offset) ->
  filterEventsForWeek (Sample.fixedZone offset) events weekStart1
  = filterEventsForWeek (Sample.fixedZone offset) events weekStart2
  /\ getWeekDateKeys (Sample.fixedZone offset) weekStart1
     = getWeekDateKeys (Sample.fixedZone offset) weekStart2.
Proof.
  intros Hday. split.
  - unfold filterEventsForWeek. rewrite !endOfWeekdays_fixed, !startOfDay_fixed.
    rewrite Hday. reflexivity.
  - rewrite !getWeekDateKeys_fixed. apply map_ext. intros i.
    apply toLocalDateKey_same_day. rewrite !LocalTime_fixed.
    replace (weekStart1 + i * msPerDay + offset)
      with (weekStart1 + offset + i * msPerDay) by lia.
    replace (weekStart2 + i * msPerDay + offset)
      with (weekStart2 + offset + i * msPerDay) by lia.
    rewrite !Day_shift_days, Hday. reflexivity.
Qed.

Lemma week_depends_on_local_day_witness :
  filterEventsForWeek (Sample.fixedZone 3600000)
    [Sample.crossing; Sample.saturdayEvent] (utcDate 2024 0 1 9 30)
  = filterEventsForWeek (Sample.fixedZone 3600000)
      [Sample.crossing; Sample.saturdayEvent] (utcDate 2024 0 1 22 0)
  /\ getWeekDateKeys (Sample.fixedZone 3600000) (utcDate 2024 0 1 9 30)
     = getWeekDateKeys (Sample.fixedZone 3600000) (utcDate 2024 0 1 22 0).
Proof.
  apply week_depends_on_local_day. vm_compute. reflexivity.
Defined.

(** X10. Once the effect of [App] has run on a week with date keys, the
    selected day is one of them (the one selected before when it still
    is), so the agenda shows a bucket of [groupEventsByDay]; running the
    effect again changes nothing. *)
Theorem syncSelectedDay_in_week (LocalTZA : Z -> bool -> Z)
    (events : list CalendarEvent) (weekDateKeys : list jsstring)
    (selectedDay todayKey : jsstring) :
  weekDateKeys <> [] ->
  syncSelectedDay weekDateKeys selectedDay todayKey ∈ weekDateKeys
  /\ (selectedDay ∈ weekDateKeys ->
      syncSelectedDay weekDateKeys selectedDay todayKey = selectedDay)
  /\ groupEventsByDay LocalTZA events weekDateKeys
       !! syncSelectedDay weekDateKeys selectedDay todayKey
     = Some (agendaEvents (groupEventsByDay LocalTZA events weekDateKeys)
               (syncSelectedDay weekDateKeys selectedDay todayKey))
  /\ syncSelectedDay weekDateKeys
       (syncSelectedDay weekDateKeys selectedDay todayKey) todayKey
     = syncSelectedDay weekDateKeys selectedDay todayKey.
Proof.
  intros Hne.
  assert (Hin : syncSelectedDay weekDateKeys selectedDay todayKey ∈ weekDateKeys).
  { unfold syncSelectedDay. destruct weekDateKeys as [|first rest]; [contradiction|].
    destruct (bool_decide_reflect (selectedDay ∈ first :: rest)); [assumption|].
    destruct (bool_decide_reflect (todayKey ∈ first :: rest)); [assumption|left]. }
  assert (Hkeep : forall sel, sel ∈ weekDateKeys ->
                    syncSelectedDay weekDateKeys sel todayKey = sel).
  { intros sel Hsel. unfold syncSelectedDay.
    destruct weekDateKeys as [|first rest]; [reflexivity|].
    rewrite bool_decide_eq_true_2 by exact Hsel. reflexivity. }
  split; [exact Hin|]. split; [apply Hkeep|]. split; [|apply Hkeep, Hin].
  unfold agendaEvents. rewrite groupEventsByDay_lookup, decide_True by exact Hin.
  reflexivity.
Qed.

Lemma syncSelectedDay_in_week_witness :
  syncSelectedDay (getWeekDateKeys UTCzone Sample.monday)
    (lit "2023-12-29") (lit "2024-01-03")
  = lit "2024-01-03"
  /\ groupEventsByDay UTCzone [Sample.tuesdayEvent]
       (getWeekDateKeys UTCzone Sample.monday)
       !! syncSelectedDay (getWeekDateKeys UTCzone Sample.monday)
            (lit "2023-12-29") (lit "2024-01-03")
     = Some [].
Proof.
  destruct (syncSelectedDay_in_week UTCzone [Sample.tuesdayEvent]
              (getWeekDateKeys UTCzone Sample.monday)
              (lit "2023-12-29") (lit "2024-01-03"))
    as (_ & _ & Hbucket & _).
  - vm_compute. discriminate.
  - split; [vm_compute; reflexivity|].
    rewrite Hbucket. vm_compute. reflexivity.
Defined.

(* ===================================================================== *)
(** * The repair of the folding, line by line *)
(* ===================================================================== *)

Section LineByLine.

Lemma scanLines_line (l s line : jsstring) (acc : list jsstring) :
  noLineBreak l ->
  scanLines (l ++ s) line acc = scanLines s (line ++ l) acc.
Proof.
  revert line. induction l as [|c l IH]; intros line [H10 H13].
  - rewrite app_nil_r. reflexivity.
  - apply not_elem_of_cons in H10. apply not_elem_of_cons in H13.
    destruct H10 as [Hc10 H10]. destruct H13 as [Hc13 H13].
    cbn [app scanLines].
    destruct (N.eqb_spec c 13) as [->|_]; [contradiction|].
    destruct (N.eqb_spec c 10) as [->|_]; [contradiction|].
    rewrite IH by (split; assumption). rewrite <- app_assoc. reflexivity.
Qed.

Lemma scanLines_break (br s line : jsstring) (acc : list jsstring) :
  isBreak br ->
  (br = [13%N] -> forall r, s <> 10%N :: r) ->
  scanLines (br ++ s) line acc = scanLines s [] (foldLine acc line).
Proof.
  intros [->|[->| ->]] Hs; cbn [app scanLines N.eqb Pos.eqb]; try reflexivity.
  destruct s as [|d s]; [reflexivity|].
  destruct (N.eqb_spec d 10) as [->|]; [|reflexivity].
  exfalso. exact (Hs eq_refl s eq_refl).
Qed.

(** The text of the lines [L], each followed by the line break [br]. *)
Lemma linesWithBreaks_head (br : jsstring) (L : list jsstring) (last r : jsstring) :
  isBreak br -> Forall noLineBreak L -> noLineBreak last -> br = [13%N] ->
  concat (List.map (fun l => l ++ br) L) ++ last <> 10%N :: r.
Proof.
  intros _ HL [Hlast _] -> Heq. destruct L as [|l L]; cbn in Heq.
  - rewrite Heq in Hlast. apply Hlast. left.
  - apply Forall_cons in HL. destruct HL as [[Hl _] _].
    destruct l as [|c l]; cbn in Heq; [discriminate|].
    injection Heq as -> _. apply Hl. left.
Qed.

Lemma scanLines_lines (br : jsstring) (L : list jsstring) (last : jsstring)
    (acc : list jsstring) :
  isBreak br -> Forall noLineBreak L -> noLineBreak last ->
  scanLines (concat (List.map (fun l => l ++ br) L) ++ last) [] acc
  = scanLines last [] (foldl foldLine acc L).
Proof.
  intros Hbr HL Hlast. revert acc.
  induction HL as [|l L Hl HL IH]; intros acc; [reflexivity|].
  cbn [List.map concat foldl]. rewrite <- !app_assoc.
  rewrite scanLines_line by exact Hl. cbn [app].
  rewrite scanLines_break; [apply IH|exact Hbr|].
  intros Hcr r. apply linesWithBreaks_head; assumption.
Qed.

Lemma scanLines_last (last : jsstring) (acc : list jsstring) :
  noLineBreak last ->
  scanLines last [] acc = match last with [] => acc | _ :: _ => acc ++ [last] end.
Proof.
  intros Hlast. rewrite <- (app_nil_r last) at 1.
  rewrite scanLines_line by exact Hlast. reflexivity.
Qed.

Lemma foldLine_sound (acc : list jsstring) (line : jsstring) :
  brokenLine line = false -> foldLine acc line = acc ++ [line].
Proof.
  unfold brokenLine, foldLine. intros ->. reflexivity.
Qed.

Lemma foldLine_broken (acc : list jsstring) (line : jsstring) :
  brokenLine line = true -> acc <> [] ->
  foldLine acc line = appendToLast acc ([92%N; 110%N] ++ trimStart line).
Proof.
  unfold brokenLine, foldLine. intros -> Hacc.
  destruct acc; [contradiction|reflexivity].
Qed.

Lemma foldLine_first (line : jsstring) : foldLine [] line = [line].
Proof. unfold foldLine. rewrite !andb_false_r. reflexivity. Qed.

Lemma foldl_foldLine_sound (acc L : list jsstring) :
  Forall (fun l => brokenLine l = false) L -> foldl foldLine acc L = acc ++ L.
Proof.
  intros HL. revert acc. induction HL as [|l L Hl _ IH]; intros acc; cbn [foldl].
  - rewrite app_nil_r. reflexivity.
  - rewrite foldLine_sound by exact Hl. rewrite IH, <- app_assoc. reflexivity.
Qed.

Lemma joinCRLF_snoc (L : list jsstring) (last : jsstring) :
  joinCRLF (L ++ [last])
  = concat (List.map (fun l => l ++ [13%N; 10%N]) L) ++ last.
Proof.
  induction L as [|l L IH]; [reflexivity|].
  cbn [app List.map concat]. rewrite joinCRLF_cons.
  destruct (L ++ [last]) as [|x r] eqn:HL; [destruct L; discriminate|].
  rewrite IH, <- !app_assoc. reflexivity.
Qed.

Lemma noLineBreak_app (a b : jsstring) :
  noLineBreak a -> noLineBreak b -> noLineBreak (a ++ b).
Proof.
  intros [Ha10 Ha13] [Hb10 Hb13]. split; rewrite elem_of_app; tauto.
Qed.

Lemma noLineBreak_trimStart (l : jsstring) : noLineBreak l -> noLineBreak (trimStart l).
Proof.
  destruct (trimStart_split l) as (ws & Hl & _). intros [H10 H13].
  rewrite Hl in H10, H13. rewrite elem_of_app in H10, H13. split; tauto.
Qed.

Lemma appendToLast_noLineBreak (acc : list jsstring) (sfx : jsstring) :
  Forall noLineBreak acc -> noLineBreak sfx ->
  Forall noLineBreak (appendToLast acc sfx).
Proof.
  intros Hacc Hsfx. rewrite Forall_forall. intros l Hl.
  destruct (appendToLast_elem_of_inv _ _ _ Hl) as (l0 & Hl0 & [->| ->]);
    rewrite Forall_forall in Hacc.
  - apply Hacc, Hl0.
  - apply noLineBreak_app; [apply Hacc, Hl0|exact Hsfx].
Qed.

Lemma foldLine_noLineBreak (acc : list jsstring) (line : jsstring) :
  Forall noLineBreak acc -> noLineBreak line ->
  Forall noLineBreak (foldLine acc line).
Proof.
  intros Hacc Hline. unfold foldLine. destruct (_ && _)%bool.
  - apply appendToLast_noLineBreak; [exact Hacc|].
    apply noLineBreak_app; [|apply noLineBreak_trimStart, Hline].
    split; intros H; apply (bool_decide_pack _) in H; vm_compute in H; exact H.
  - apply Forall_app. split; [exact Hacc|]. constructor; [exact Hline|constructor].
Qed.

Lemma noLineBreak_snoc (line : jsstring) (c : N) :
  noLineBreak line -> c <> 10%N -> c <> 13%N -> noLineBreak (line ++ [c]).
Proof.
  intros Hline H10 H13. apply noLineBreak_app; [exact Hline|].
  split; rewrite list_elem_of_singleton; congruence.
Qed.

Lemma scanLines_noLineBreak_bounded (n : nat) :
  forall (s line : jsstring) (acc : list jsstring),
    (length s <= n)%nat ->
    noLineBreak line -> Forall noLineBreak acc ->
    Forall noLineBreak (scanLines s line acc).
Proof.
  induction n as [|n IH]; intros s line acc Hlen Hline Hacc.
  - destruct s; [|simpl in Hlen; lia]. simpl.
    destruct line; [exact Hacc|].
    apply Forall_app. split; [exact Hacc|]. constructor; [exact Hline|constructor].
  - destruct s as [|c r]; [apply (IH []); [simpl; lia|assumption..]|].
    simpl in Hlen.
    assert (Hempty : noLineBreak []) by (split; apply not_elem_of_nil).
    pose proof (foldLine_noLineBreak acc line Hacc Hline) as Hfold.
    cbn [scanLines]. destruct (N.eqb_spec c 13) as [->|Hc13].
    + destruct r as [|d r']; [apply IH; [simpl; lia|assumption..]|].
      destruct (N.eqb_spec d 10) as [->|Hd];
        apply IH; simpl in *; try lia; assumption.
    + destruct (N.eqb_spec c 10) as [->|Hc10].
      * apply IH; [lia|assumption..].
      * apply IH; [lia| |exact Hacc]. apply noLineBreak_snoc; assumption.
Qed.

End LineByLine.

(** X11. A text whose lines hold no line break of their own and none of
    which looks broken comes out of [fixBrokenLineFolding] with the same
    lines, joined by CRLF, whichever of the three line breaks ends them;
    written with CRLF and a last line that is not empty, it comes out as it
    went in. *)
Theorem fixBrokenLineFolding_sound_text (br : jsstring) (L : list jsstring) :
  isBreak br ->
  Forall (fun l => noLineBreak l /\ brokenLine l = false) L ->
  fixBrokenLineFolding (concat (List.map (fun l => l ++ br) L)) = joinCRLF L
  /\ forall last,
       noLineBreak last -> last <> [] ->
       fixBrokenLineFolding (joinCRLF (L ++ [last])) = joinCRLF (L ++ [last]).
Proof.
  intros Hbr HL.
  assert (HL1 : Forall noLineBreak L)
    by (eapply Forall_impl; [exact HL|]; simpl; tauto).
  assert (HL2 : Forall (fun l => brokenLine l = false) L)
    by (eapply Forall_impl; [exact HL|]; simpl; tauto).
  assert (Hempty : noLineBreak []) by (split; apply not_elem_of_nil).
  split.
  - unfold fixBrokenLineFolding.
    rewrite <- (app_nil_r (concat _)).
    rewrite (scanLines_lines br L [] []) by assumption.
    rewrite foldl_foldLine_sound by exact HL2. reflexivity.
  - intros last Hlast Hne. unfold fixBrokenLineFolding.
    rewrite joinCRLF_snoc at 1.
    rewrite (scanLines_lines [13%N; 10%N] L last []);
      [|left; reflexivity|exact HL1|exact Hlast].
    rewrite scanLines_last by exact Hlast.
    rewrite foldl_foldLine_sound by exact HL2.
    destruct last; [contradiction|reflexivity].
Qed.

Lemma fixBrokenLineFolding_sound_text_witness :
  fixBrokenLineFolding
    (concat (List.map (fun l => l ++ [10%N])
               [lit "BEGIN:VCALENDAR"; lit "DESCRIPTION:a long"; lit " folded line";
                []; lit "END:VCALENDAR"]))
  = joinCRLF [lit "BEGIN:VCALENDAR"; lit "DESCRIPTION:a long"; lit " folded line";
              []; lit "END:VCALENDAR"].
Proof.
  apply (fixBrokenLineFolding_sound_text [10%N]).
  - right. left. reflexivity.
  - repeat constructor; intros H; apply (bool_decide_pack _) in H;
      vm_compute in H; exact H.
Defined.

(** X12. A line that looks broken (no semicolon and no colon, no leading
    space or tab, not blank) and that a line break ends is merged into the
    line before it, after a backslash and an [n], without its leading white
    space; when it ends the text with no line break after it, it is left
    alone. *)
Theorem fixBrokenLineFolding_merges (br a b : jsstring) :
  isBreak br -> noLineBreak a -> noLineBreak b -> brokenLine b = true ->
  fixBrokenLineFolding (a ++ br ++ b ++ br) = a ++ [92%N; 110%N] ++ trimStart b
  /\ fixBrokenLineFolding (a ++ br ++ b) = a ++ [13%N; 10%N] ++ b.
Proof.
  intros Hbr Ha Hb Hbroken. unfold fixBrokenLineFolding. split.
  - replace (a ++ br ++ b ++ br)
      with (concat (List.map (fun l => l ++ br) [a; b]) ++ [])
      by (cbn; rewrite <- !app_assoc, !app_nil_r; reflexivity).
    rewrite (scanLines_lines br [a; b] [] []);
      [|exact Hbr
       |constructor; [exact Ha|constructor; [exact Hb|constructor]]
       |split; apply not_elem_of_nil].
    cbn [foldl]. rewrite foldLine_first, foldLine_broken by (exact Hbroken || discriminate).
    cbn [scanLines appendToLast joinCRLF]. reflexivity.
  - replace (a ++ br ++ b)
      with (concat (List.map (fun l => l ++ br) [a]) ++ b)
      by (cbn; rewrite <- !app_assoc; reflexivity).
    rewrite (scanLines_lines br [a] b []);
      [|exact Hbr|constructor; [exact Ha|constructor]|exact Hb].
    rewrite scanLines_last by exact Hb.
    cbn [foldl]. rewrite foldLine_first.
    destruct b as [|c b]; [discriminate Hbroken|]. reflexivity.
Qed.

(** The example of the source: a location cut by a raw line break. *)
Lemma fixBrokenLineFolding_merges_witness :
  fixBrokenLineFolding
    (lit "LOCATION:123 Main St" ++ [10%N] ++ lit "Calgary Alberta" ++ [10%N])
  = lit "LOCATION:123 Main St" ++ [92%N; 110%N] ++ lit "Calgary Alberta"
  /\ fixBrokenLineFolding
       (lit "LOCATION:123 Main St" ++ [10%N] ++ lit "Calgary Alberta")
     = lit "LOCATION:123 Main St" ++ [13%N; 10%N] ++ lit "Calgary Alberta".
Proof.
  apply (fixBrokenLineFolding_merges [10%N]
           (lit "LOCATION:123 Main St") (lit "Calgary Alberta")).
  - right. left. reflexivity.
  - split; intros H; apply (bool_decide_pack _) in H; vm_compute in H; exact H.
  - split; intros H; apply (bool_decide_pack _) in H; vm_compute in H; exact H.
  - reflexivity.
Defined.

(** X13. Whatever the text, what [fixBrokenLineFolding] returns is made of
    lines joined by CRLF, none of which holds a carriage return or a line
    feed: no other line break is left. *)
Theorem fixBrokenLineFolding_only_CRLF (icsText : jsstring) :
  exists lines,
    fixBrokenLineFolding icsText = joinCRLF lines /\ Forall noLineBreak lines.
Proof.
  exists (scanLines icsText [] []). split; [reflexivity|].
  apply (scanLines_noLineBreak_bounded (length icsText)).
  - lia.
  - split; apply not_elem_of_nil.
  - constructor.
Qed.

(* ===================================================================== *)
(** * What the normalizer hands to the parser *)
(* ===================================================================== *)

Lemma trimStart_idempotent (s : jsstring) : trimStart (trimStart s) = trimStart s.
Proof.
  induction s as [|c r IH]; [reflexivity|]. simpl.
  destruct (isSpace c) eqn:Hc; [exact IH|]. simpl. rewrite Hc. reflexivity.
Qed.

Lemma trimEnd_idempotent (s : jsstring) : trimEnd (trimEnd s) = trimEnd s.
Proof.
  unfold trimEnd. rewrite rev_involutive, trimStart_idempotent. reflexivity.
Qed.

Lemma trimEnd_snoc (s : jsstring) (c : N) :
  isSpace c = false -> trimEnd (s ++ [c]) = s ++ [c].
Proof.
  intros Hc. unfold trimEnd. rewrite rev_app_distr. simpl. rewrite Hc.
  simpl. rewrite rev_involutive. reflexivity.
Qed.

Lemma Matches_END : Regex.Matches (lit "END:VCALENDAR") (lit "END:VCALENDAR").
Proof. reflexivity. Qed.

Lemma normalizeICSText_begin (icsText : jsstring) :
  Regex.test_BEGIN_VCALENDAR icsText = true ->
  Regex.test_BEGIN_VCALENDAR (normalizeICSText icsText) = true.
Proof.
  intros H. apply repaired_begin in H. unfold normalizeICSText.
  destruct (_ && _)%bool; [apply test_BEGIN_VCALENDAR_app|]; exact H.
Qed.

(** X14. The normalized text ends with no white space; and when it holds
    [BEGIN:VCALENDAR], so whenever it is given to the parser, one of its
    lines ends with [END:VCALENDAR]. *)
Theorem normalizeICSText_envelope (icsText : jsstring) :
  trimEnd (normalizeICSText icsText) = normalizeICSText icsText
  /\ (Regex.test_BEGIN_VCALENDAR (normalizeICSText icsText) = true ->
      Regex.test_END_VCALENDAR_eol (normalizeICSText icsText) = true).
Proof.
  unfold normalizeICSText.
  set (s := trimEnd (fixBrokenLineFolding (stripBOM icsText))).
  destruct (Regex.test_BEGIN_VCALENDAR s) eqn:Hb;
    destruct (Regex.test_END_VCALENDAR_eol s) eqn:He; simpl.
  - split; [apply trimEnd_idempotent|intros _; exact He].
  - split.
    + change (s ++ 13%N :: 10%N :: lit "END:VCALENDAR")
        with (s ++ ([13%N; 10%N] ++ lit "END:VCALENDA") ++ [82%N]).
      rewrite !app_assoc. apply trimEnd_snoc. reflexivity.
    + intros _. apply test_END_VCALENDAR_eol_true.
      exists (s ++ [13%N; 10%N]), (lit "END:VCALENDAR"), [].
      split; [rewrite <- app_assoc; reflexivity|].
      split; [exact Matches_END|reflexivity].
  - split; [apply trimEnd_idempotent|congruence].
  - split; [apply trimEnd_idempotent|congruence].
Qed.

Lemma normalizeICSText_envelope_witness :
  trimEnd (normalizeICSText Sample.truncatedText)
  = normalizeICSText Sample.truncatedText
  /\ Regex.test_END_VCALENDAR_eol (normalizeICSText Sample.truncatedText) = true.
Proof.
  destruct (normalizeICSText_envelope Sample.truncatedText) as [Htrim Hend].
  split; [exact Htrim|]. apply Hend. vm_compute. reflexivity.
Defined.

(** X15. [parseICS] gives to the parser of ical.js only a text that holds
    [BEGIN:VCALENDAR] and a line that ends with [END:VCALENDAR]: two
    parsers that agree on such texts give the same result. *)
Theorem parseICS_parser_sees_envelope (LocalTZA : Z -> bool -> Z)
    (parser1 parser2 : jsstring -> outcome ICAL.Component)
    (clock : nat -> Date) (cid cname col : jsstring) (icsText : jsstring) :
  (forall text,
     Regex.test_BEGIN_VCALENDAR text = true ->
     Regex.test_END_VCALENDAR_eol text = true ->
     parser1 text = parser2 text) ->
  parseICS LocalTZA parser1 clock cid cname col icsText
  = parseICS LocalTZA parser2 clock cid cname col icsText.
Proof.
  intros Hagree. unfold parseICS.
  destruct (Regex.test_BEGIN_VCALENDAR (normalizeICSText icsText)) eqn:Hb;
    [|reflexivity].
  cbn [negb]. rewrite (Hagree _ Hb); [reflexivity|].
  apply normalizeICSText_envelope, Hb.
Qed.

Lemma parseICS_parser_sees_envelope_witness :
  parseICS UTCzone Cases.strictParser Sample.noon2024
    (lit "home") (lit "Home") (lit "#3b82f6") Sample.truncatedText
  = parseICS UTCzone Cases.laxParser Sample.noon2024
      (lit "home") (lit "Home") (lit "#3b82f6") Sample.truncatedText.
Proof.
  apply parseICS_parser_sees_envelope.
  intros text Hb He. unfold Cases.strictParser. rewrite Hb, He. reflexivity.
Defined.

(* ===================================================================== *)
(** * More on the parser *)
(* ===================================================================== *)

Lemma length_trimStart (s : jsstring) : (length (trimStart s) <= length s)%nat.
Proof.
  induction s as [|c r IH]; simpl; [lia|]. destruct (isSpace c); simpl; lia.
Qed.

Lemma trimStart_fixpoint (s : jsstring) :
  trimStart s = s <-> s = [] \/ exists c r, s = c :: r /\ isSpace c = false.
Proof.
  destruct s as [|c r]; simpl.
  - split; [left; reflexivity|reflexivity].
  - destruct (isSpace c) eqn:Hc.
    + split.
      * intros H. pose proof (length_trimStart r) as Hlen. rewrite H in Hlen.
        simpl in Hlen. lia.
      * intros [H|(c' & r' & [= <- <-] & H)]; congruence.
    + split; [right; exists c, r; tauto|reflexivity].
Qed.

Lemma trimStart_trimEnd (u : jsstring) :
  trimStart u = u -> trimStart (trimEnd u) = trimEnd u.
Proof.
  intros Hu. apply trimStart_fixpoint in Hu. apply trimStart_fixpoint.
  destruct Hu as [->|(c & r & -> & Hc)]; [left; reflexivity|].
  destruct (trimEnd_split (c :: r)) as (ws & Hsplit & Hws).
  destruct (trimEnd (c :: r)) as [|c' t]; [left; reflexivity|].
  right. exists c', t. split; [reflexivity|].
  simpl in Hsplit. injection Hsplit as <- _. exact Hc.
Qed.

(** [trim] leaves a trimmed string as it is. *)
Lemma trim_idempotent (s : jsstring) : trim (trim s) = trim s.
Proof.
  unfold trim. rewrite trimStart_trimEnd by apply trimStart_idempotent.
  apply trimEnd_idempotent.
Qed.


Lemma orElse_placeholder (a : option jsstring) :
  orElse (trim <$> a) (lit "(No title)") <> []
  /\ trim (orElse (trim <$> a) (lit "(No title)"))
     = orElse (trim <$> a) (lit "(No title)").
Proof.
  destruct a as [s|]; simpl; [|split; [discriminate|reflexivity]].
  destruct (trim s) as [|c r] eqn:Hs; [split; [discriminate|reflexivity]|].
  split; [discriminate|]. rewrite <- Hs. apply trim_idempotent.
Qed.

Lemma pushEvent_wellFormed (event : ICAL.Event) (start end_ : Date)
    (cid cname col : jsstring) (occurrenceId : option jsstring)
    (ev : CalendarEvent) :
  pushEvent [] event start end_ cid cname col occurrenceId = Returns [ev] ->
  wellFormedEvent cid cname col ev.
Proof.
  unfold pushEvent. destruct (ICAL.startDate event); [|discriminate].
  intros [= <-]. unfold wellFormedEvent. cbn.
  pose proof (orElse_placeholder (ICAL.summary event)) as [Hne Htrim].
  repeat split; try assumption.
  - destruct (ICAL.location event) as [l|]; simpl; [|discriminate].
    destruct (trim l); simpl; discriminate.
  - destruct (truthy occurrenceId); eexists; rewrite <- ?app_assoc; reflexivity.
Qed.

Lemma parseVEvent_wellFormed (LocalTZA : Z -> bool -> Z) (clock : nat -> Date)
    (cid cname col : jsstring) (vevent : ICAL.VEvent) :
  Forall (wellFormedEvent cid cname col)
    (parseVEvent LocalTZA clock cid cname col [] vevent).
Proof.
  unfold parseVEvent.
  destruct (ICAL.hasRecurrenceId vevent); [constructor|].
  destruct (ICAL.event vevent) as [event|msg]; [|constructor].
  destruct (ICAL.startDate event) as [sd|] eqn:Hsd; [|constructor].
  destruct (ICAL.isRecurring vevent).
  - destruct (expandOccurrences_emitted LocalTZA clock cid cname col event
                (ICAL.iterator vevent) maxOccurrences 0) as [_ Hall].
    eapply Forall_impl; [exact Hall|]. simpl.
    intros ev (i & _ & occ & d & _ & _ & _ & Hpush).
    eapply pushEvent_wellFormed. exact Hpush.
  - destruct (pushEvent [] event _ _ cid cname col None) as [l|msg] eqn:Hpush;
      [|constructor].
    destruct (pushEvent_single _ _ _ _ _ _ _ _ Hpush) as [ev ->].
    constructor; [|constructor]. eapply pushEvent_wellFormed. exact Hpush.
Qed.

(** X16. Every event that [parseICSEvents] returns for a feed carries the
    id, the name and the color of the feed; its title is trimmed and not
    empty; its location, when it has one, is not the empty string; its id
    starts with the id of the feed and a hyphen. *)
Theorem parseICSEvents_wellFormed (LocalTZA : Z -> bool -> Z)
    (clock : nat -> Date) (cid cname col : jsstring) (comp : ICAL.Component) :
  Forall (wellFormedEvent cid cname col)
    (parseICSEvents LocalTZA clock cid cname col comp).
Proof.
  unfold parseICSEvents.
  destruct (ICAL.getAllSubcomponents comp) as [vevents|msg]; [|constructor].
  rewrite foldl_parseVEvent. cbn [app].
  induction vevents as [|v vs IH]; [constructor|].
  cbn [List.map concat]. apply Forall_app. split; [|exact IH].
  apply parseVEvent_wellFormed.
Qed.

Lemma parseVEvent_passedOver (LocalTZA : Z -> bool -> Z) (clock : nat -> Date)
    (cid cname col : jsstring) (vevent : ICAL.VEvent) :
  passedOver vevent -> parseVEvent LocalTZA clock cid cname col [] vevent = [].
Proof.
  unfold parseVEvent.
  intros [Hrid|[(msg & Hev)|(event & Hev & Hstart)]].
  - rewrite Hrid. reflexivity.
  - rewrite Hev. destruct (ICAL.hasRecurrenceId vevent); reflexivity.
  - rewrite Hev, Hstart. destruct (ICAL.hasRecurrenceId vevent); reflexivity.
Qed.

(** X17. A record of a calendar that is a recurrence override, or on
    which [new ICAL.Event] throws, or that has no start, adds no event of
    its own and does not stop the loop: the events of the calendar are
    those of the records before it, then those of the records after it,
    each record as it stands in this calendar. *)
Theorem parseICSEvents_passes_over (LocalTZA : Z -> bool -> Z)
    (clock : nat -> Date) (cid cname col : jsstring)
    (before after : list ICAL.VEvent) (vevent : ICAL.VEvent) :
  passedOver vevent ->
  parseVEvent LocalTZA clock cid cname col [] vevent = []
  /\ parseICSEvents LocalTZA clock cid cname col
       {| ICAL.getAllSubcomponents := Returns (before ++ vevent :: after) |}
     = concat (List.map (parseVEvent LocalTZA clock cid cname col []) before)
       ++ concat (List.map (parseVEvent LocalTZA clock cid cname col []) after).
Proof.
  intros Hskip. split; [apply parseVEvent_passedOver, Hskip|].
  unfold parseICSEvents. cbn [ICAL.getAllSubcomponents].
  rewrite !foldl_parseVEvent, !map_app, !concat_app.
  cbn [List.map concat app]. rewrite parseVEvent_passedOver by exact Hskip.
  reflexivity.
Qed.

(** A record without [DTSTART] between the dentist and the holiday. *)
Lemma parseICSEvents_passes_over_witness :
  List.map ev_title
    (parseICSEvents UTCzone Sample.noon2024 (lit "home") (lit "Home") (lit "#3b82f6")
       {| ICAL.getAllSubcomponents :=
            Returns ([Sample.dentist] ++ Cases.noStart :: [Sample.holiday]) |})
  = [lit "Dentist"; lit "Holiday"].
Proof.
  destruct (parseICSEvents_passes_over UTCzone Sample.noon2024
              (lit "home") (lit "Home") (lit "#3b82f6")
              [Sample.dentist] [Sample.holiday] Cases.noStart) as [_ Heq].
  - right. right. eexists. split; reflexivity.
  - rewrite Heq. vm_compute. reflexivity.
Defined.

(** An override, a record that cannot be read and a record without a
    start, one after the other: the dentist and the holiday are all that
    the calendar yields. *)
Example parseICSEvents_three_passed_over :
  List.map ev_title
    (parseICSEvents UTCzone Sample.noon2024 (lit "home") (lit "Home") (lit "#3b82f6")
       {| ICAL.getAllSubcomponents :=
            Returns [Sample.dentist; Cases.override; Cases.unreadable;
                     Cases.noStart; Sample.holiday] |})
  = [lit "Dentist"; lit "Holiday"].
Proof. vm_compute. reflexivity. Qed.

Lemma emittedAt_from (LocalTZA : Z -> bool -> Z) (clock : nat -> Date)
    (cid cname col : jsstring) (event : ICAL.Event) (iter : nat -> ICAL.Next)
    (from from' i : nat) (ev : CalendarEvent) :
  (from <= from')%nat ->
  emittedAt LocalTZA clock cid cname col event iter from i ev ->
  emittedAt LocalTZA clock cid cname col event iter from' i ev.
Proof.
  intros Hle (occ & d & Hi & Hwin & Hbefore & Hpush).
  exists occ, d. repeat split; try assumption; try apply Hwin.
  intros j Hj. apply Hbefore. lia.
Qed.

Lemma expandOccurrences_complete (LocalTZA : Z -> bool -> Z) (clock : nat -> Date)
    (cid cname col : jsstring) (event : ICAL.Event) (iter : nat -> ICAL.Next)
    (i : nat) (ev : CalendarEvent) (budget : nat) :
  forall count,
    (count <= i < count + budget)%nat ->
    emittedAt LocalTZA clock cid cname col event iter count i ev ->
    noThrowBefore LocalTZA clock cid cname col event iter count i ->
    ev ∈ expandOccurrences LocalTZA clock cid cname col event iter budget count [].
Proof.
  induction budget as [|b IH]; intros count Hi Hem Hno; [lia|].
  cbn [expandOccurrences]. unfold getTime.
  destruct (decide (count = i)) as [->|Hne].
  - destruct Hem as (occ & d & Hiter & Hwin & _ & Hpush). rewrite Hiter.
    destruct (Z.ltb_spec (rangeEndTime LocalTZA clock) (ICAL.toJSDate occ)); [lia|].
    destruct (Z.ltb_spec (ICAL.toJSDate occ) (rangeStartTime LocalTZA clock)); [lia|].
    rewrite Hpush, expandOccurrences_app. left.
  - assert (Hrest : ev ∈ expandOccurrences LocalTZA clock cid cname col event iter
                          b (S count) []).
    { apply IH; [lia| |].
      - eapply emittedAt_from; [|exact Hem]. lia.
      - intros j occ details Hj. apply Hno. lia. }
    destruct Hem as (_ & _ & _ & _ & Hbefore & _).
    destruct (Hbefore count ltac:(lia)) as (occ & details & Hiter & Hend).
    rewrite Hiter.
    destruct (Z.ltb_spec (rangeEndTime LocalTZA clock) (ICAL.toJSDate occ)); [lia|].
    destruct (Z.ltb_spec (ICAL.toJSDate occ) (rangeStartTime LocalTZA clock));
      [exact Hrest|].
    destruct (Hno count occ details ltac:(lia) Hiter ltac:(lia))
      as (d & e & -> & Hpush).
    rewrite Hpush, expandOccurrences_app. right. exact Hrest.
Qed.

(** X18. The expander loses no occurrence of the window: for a recurring
    [vevent] with a start, the event of an occurrence that lies in the
    window, comes among the first 500 of the walk and after no occurrence
    beyond the end of the window, is among the events returned, as long as
    no occurrence of the window before it raises an exception. *)
Theorem recurring_expansion_complete (LocalTZA : Z -> bool -> Z)
    (clock : nat -> Date) (cid cname col : jsstring)
    (vevent : ICAL.VEvent) (event : ICAL.Event) (startDate : ICAL.Time)
    (i : nat) (ev : CalendarEvent) :
  ICAL.hasRecurrenceId vevent = false ->
  ICAL.event vevent = Returns event ->
  ICAL.startDate event = Some startDate ->
  ICAL.isRecurring vevent = true ->
  (i < maxOccurrences)%nat ->
  emittedAt LocalTZA clock cid cname col event (ICAL.iterator vevent) 0 i ev ->
  noThrowBefore LocalTZA clock cid cname col event (ICAL.iterator vevent) 0 i ->
  ev ∈ parseVEvent LocalTZA clock cid cname col [] vevent.
Proof.
  intros Hrid Hevent Hstart Hrec Hi Hem Hno.
  unfold parseVEvent. rewrite Hrid, Hevent, Hstart, Hrec.
  apply (expandOccurrences_complete LocalTZA clock cid cname col event
           (ICAL.iterator vevent) i ev maxOccurrences 0); [lia|assumption..].
Qed.

(** The fourth class of the series, on 23 January 2024. *)
Lemma recurring_expansion_complete_witness :
  exists ev,
    ev ∈ parseVEvent UTCzone Sample.noon2024 (lit "home") (lit "Home")
           (lit "#3b82f6") [] Sample.classVEvent
    /\ ev_start ev = utcDate 2024 0 23 18 0.
Proof.
  eexists. split.
  - apply (recurring_expansion_complete UTCzone Sample.noon2024
             (lit "home") (lit "Home") (lit "#3b82f6")
             Sample.classVEvent Sample.class
             (Sample.timeAt (utcDate 2024 0 2 18 0)) 3).
    + reflexivity.
    + reflexivity.
    + reflexivity.
    + reflexivity.
    + unfold maxOccurrences. lia.
    + eexists. eexists. split; [reflexivity|]. split; [|split].
      * split; vm_compute; discriminate.
      * intros j Hj.
        destruct j as [|[|[|j]]]; [| | |lia];
          (eexists; eexists; split; [reflexivity|vm_compute; discriminate]).
      * lazy. reflexivity.
    + intros j occ details Hj Hiter _.
      destruct j as [|[|[|j]]]; [| | |lia];
        (injection Hiter as <- <-; eexists; eexists; split; reflexivity).
  - reflexivity.
Defined.

(* ===================================================================== *)
(** * More on the calendar hook *)
(* ===================================================================== *)

Section ObjMore.

Context {V : Type}.
Implicit Types (o : list (jsstring * V)) (k : jsstring) (v : V).

Lemma Obj_keys_set o k v k' :
  k' ∈ Obj.keys (Obj.set o k v) <-> k' = k \/ k' ∈ Obj.keys o.
Proof.
  unfold Obj.keys. induction o as [|[k0 v0] r IH]; cbn [Obj.set List.map fst].
  - rewrite list_elem_of_singleton. split; [tauto|].
    intros [H|H]; [exact H|inversion H].
  - destruct (decide (k0 = k)) as [->|Hne]; cbn [List.map fst].
    + rewrite !elem_of_cons. tauto.
    + rewrite !elem_of_cons, IH. tauto.
Qed.

Lemma Obj_set_NoDup o k v : NoDup (Obj.keys o) -> NoDup (Obj.keys (Obj.set o k v)).
Proof.
  unfold Obj.keys. induction o as [|[k0 v0] r IH]; cbn [Obj.set List.map fst].
  - intros _. apply NoDup_singleton.
  - rewrite NoDup_cons. intros [Hk0 Hr].
    destruct (decide (k0 = k)) as [->|Hne]; cbn [List.map fst].
    + apply NoDup_cons. split; assumption.
    + apply NoDup_cons. split; [|apply IH, Hr].
      intros Hin. apply (Obj_keys_set r k v k0) in Hin.
      destruct Hin as [Heq|Hin]; [congruence|contradiction].
Qed.

Lemma Obj_elem_of_set o k v k' v' :
  (k', v') ∈ Obj.set o k v -> (k', v') = (k, v) \/ (k', v') ∈ o.
Proof.
  induction o as [|[k0 v0] r IH]; cbn [Obj.set].
  - rewrite list_elem_of_singleton. tauto.
  - destruct (decide (k0 = k)) as [->|Hne]; rewrite !elem_of_cons.
    + tauto.
    + intros [H|H]; [tauto|]. destruct (IH H); tauto.
Qed.

Lemma Obj_get_elem_of o k v : Obj.get o k = Some v -> (k, v) ∈ o.
Proof.
  induction o as [|[k0 v0] r IH]; cbn [Obj.get]; [discriminate|].
  destruct (decide (k0 = k)) as [->|Hne].
  - intros [= ->]. left.
  - intros H. right. apply IH, H.
Qed.

End ObjMore.

Lemma mergeUpdates_keys (config : list CalendarConfig)
    (updates prev next : list (jsstring * list CalendarEvent)) (k : jsstring) :
  k ∈ Obj.keys
        (foldl
           (fun next cal =>
              Obj.set next (cfg_id cal)
                (default (default [] (Obj.get prev (cfg_id cal)))
                         (Obj.get updates (cfg_id cal))))
           next config)
  <-> k ∈ Obj.keys next \/ k ∈ List.map cfg_id config.
Proof.
  revert next. induction config as [|c config IH]; intros next; cbn [foldl List.map].
  - split; [tauto|]. intros [H|H]; [exact H|inversion H].
  - rewrite IH, Obj_keys_set, elem_of_cons. tauto.
Qed.

Lemma mergeUpdates_NoDup (config : list CalendarConfig)
    (updates prev next : list (jsstring * list CalendarEvent)) :
  NoDup (Obj.keys next) ->
  NoDup (Obj.keys
           (foldl
              (fun next cal =>
                 Obj.set next (cfg_id cal)
                   (default (default [] (Obj.get prev (cfg_id cal)))
                            (Obj.get updates (cfg_id cal))))
              next config)).
Proof.
  revert next. induction config as [|c config IH]; intros next Hnd; cbn [foldl].
  - exact Hnd.
  - apply IH, Obj_set_NoDup, Hnd.
Qed.

Section HookMore.

Variable LocalTZA : Z -> bool -> Z.
Variable ICAL_parse : jsstring -> outcome ICAL.Component.
Variable clock : nat -> Date.
Variable relay : jsstring -> HttpResult.

Lemma fetchAll_events (config : list CalendarConfig) (st : HookState) :
  exists updates,
    eventsByCalendar (fetchAll LocalTZA ICAL_parse clock relay config st)
    = mergeUpdates config updates (eventsByCalendar st)
    /\ updates = (foldl (fetchStep LocalTZA ICAL_parse clock relay) ([], None) config).1.
Proof.
  unfold fetchAll. destruct config as [|c cs].
  - exists []. split; reflexivity.
  - destruct (foldl _ _ (c :: cs)) as [updates err] eqn:Hfold.
    exists updates. split; reflexivity.
Qed.

End HookMore.

(** X19. After a refresh of all feeds whose ids are plain keys, the state
    holds the feeds of the configuration, each once, and no other: the
    events of a feed that has left the configuration are dropped. *)
Theorem fetchAll_keeps_configured_feeds (LocalTZA : Z -> bool -> Z)
    (ICAL_parse : jsstring -> outcome ICAL.Component)
    (clock : nat -> Date) (relay : jsstring -> HttpResult)
    (config : list CalendarConfig) (st : HookState) :
  Forall plainKey (List.map cfg_id config) ->
  (forall k : jsstring,
     k ∈ Obj.keys
           (eventsByCalendar (fetchAll LocalTZA ICAL_parse clock relay config st))
     <-> k ∈ List.map cfg_id config)
  /\ NoDup
       (Obj.keys
          (eventsByCalendar (fetchAll LocalTZA ICAL_parse clock relay config st)))
  /\ forall k : jsstring,
       plainKey k ->
       k ∉ List.map cfg_id config ->
       Obj.get
         (eventsByCalendar (fetchAll LocalTZA ICAL_parse clock relay config st)) k
       = None.
Proof.
  intros _.
  destruct (fetchAll_events LocalTZA ICAL_parse clock relay config st)
    as (updates & -> & _).
  unfold mergeUpdates.
  assert (Hkeys : forall k : jsstring,
             k ∈ Obj.keys
                   (foldl
                      (fun next cal =>
                         Obj.set next (cfg_id cal)
                           (default (default [] (Obj.get (eventsByCalendar st)
                                                   (cfg_id cal)))
                                    (Obj.get updates (cfg_id cal))))
                      [] config)
             <-> k ∈ List.map cfg_id config).
  { intros k. rewrite mergeUpdates_keys. split; [|tauto].
    intros [H|H]; [cbn in H; inversion H|exact H]. }
  split; [exact Hkeys|]. split.
  - apply mergeUpdates_NoDup. constructor.
  - intros k _ Hk. apply Obj_get_None. rewrite Hkeys. exact Hk.
Qed.

(** The work feed has left the configuration: its cached event is gone
    after the refresh. *)
Lemma fetchAll_keeps_configured_feeds_witness :
  Obj.get
    (eventsByCalendar
       (fetchAll UTCzone (Sample.parserFinding [Sample.holiday]) Sample.noon2024
          Sample.relayDown2 [Sample.feed1; Sample.feed2] Sample.cached))
    (cfg_id Sample.feed3)
  = None.
Proof.
  apply (fetchAll_keeps_configured_feeds UTCzone
           (Sample.parserFinding [Sample.holiday]) Sample.noon2024
           Sample.relayDown2 [Sample.feed1; Sample.feed2] Sample.cached).
  - apply (bool_decide_unpack _). vm_compute. exact I.
  - apply (bool_decide_unpack _). vm_compute. exact I.
  - apply (bool_decide_unpack _). vm_compute. exact I.
Defined.

Section HookInvariant.

Variable LocalTZA : Z -> bool -> Z.
Variable ICAL_parse : jsstring -> outcome ICAL.Component.

Lemma fetchOneCalendar_tagged (clock : nat -> Date) (relay : jsstring -> HttpResult)
    (cal : CalendarConfig) (parsed : list CalendarEvent) (ev : CalendarEvent) :
  fetchOneCalendar LocalTZA ICAL_parse clock relay cal = Returns parsed ->
  ev ∈ parsed -> calendarId ev = cfg_id cal.
Proof.
  unfold fetchOneCalendar, parseICS.
  destruct (relay (cfg_url cal)) as [msg|ok status text]; [discriminate|].
  destruct ok; cbn [negb]; [|discriminate].
  destruct (negb _); [discriminate|].
  destruct (ICAL_parse _) as [comp|msg]; [|discriminate].
  intros [= <-] Hev.
  unfold parseICSEvents in Hev.
  destruct (ICAL.getAllSubcomponents comp) as [vevents|msg]; [|inversion Hev].
  rewrite foldl_parseVEvent in Hev. cbn [app] in Hev.
  apply list_elem_of_In, in_concat in Hev. destruct Hev as (l & Hl & Hev).
  apply in_map_iff in Hl. destruct Hl as (v & <- & _).
  pose proof (parseVEvent_wellFormed LocalTZA clock (cfg_id cal) (cfg_name cal)
                (cfg_color cal) v) as Hwf.
  rewrite Forall_forall in Hwf.
  apply list_elem_of_In in Hev. apply Hwf in Hev. apply Hev.
Qed.

Lemma storeTagged_set (o : list (jsstring * list CalendarEvent)) (k : jsstring)
    (l : list CalendarEvent) :
  storeTagged o -> (forall ev, ev ∈ l -> calendarId ev = k) ->
  storeTagged (Obj.set o k l).
Proof.
  intros Ho Hl k' l' ev Hin Hev.
  apply Obj_elem_of_set in Hin. destruct Hin as [[= -> ->]|Hin].
  - apply Hl, Hev.
  - apply (Ho k' l' ev Hin Hev).
Qed.

Lemma storeTagged_get (o : list (jsstring * list CalendarEvent)) (k : jsstring)
    (ev : CalendarEvent) :
  storeTagged o -> ev ∈ default [] (Obj.get o k) -> calendarId ev = k.
Proof.
  intros Ho Hev. destruct (Obj.get o k) as [l|] eqn:Hget; [|inversion Hev].
  apply Obj_get_elem_of in Hget. apply (Ho k l ev Hget Hev).
Qed.

Lemma fetchStep_storeTagged (clock : nat -> Date) (relay : jsstring -> HttpResult)
    (config : list CalendarConfig)
    (acc : list (jsstring * list CalendarEvent) * option jsstring) :
  storeTagged acc.1 ->
  storeTagged (foldl (fetchStep LocalTZA ICAL_parse clock relay) acc config).1.
Proof.
  revert acc. induction config as [|c config IH]; intros [updates err] Hacc;
    cbn [foldl]; [exact Hacc|].
  apply IH. unfold fetchStep.
  destruct (fetchOneCalendar LocalTZA ICAL_parse clock relay c) as [parsed|msg] eqn:Hc;
    cbn [fst]; [|exact Hacc].
  apply storeTagged_set; [exact Hacc|].
  intros ev Hev. apply (fetchOneCalendar_tagged clock relay c parsed ev Hc Hev).
Qed.

Lemma mergeUpdates_storeTagged (config : list CalendarConfig)
    (updates prev : list (jsstring * list CalendarEvent)) :
  storeTagged updates -> storeTagged prev ->
  storeTagged (mergeUpdates config updates prev).
Proof.
  intros Hu Hp. unfold mergeUpdates.
  assert (Hnil : storeTagged []) by (intros k l ev Hin; inversion Hin).
  revert Hnil. generalize (@nil (jsstring * list CalendarEvent)) as next.
  induction config as [|c config IH]; intros next Hnext; cbn [foldl]; [exact Hnext|].
  apply IH. apply storeTagged_set; [exact Hnext|].
  intros ev Hev.
  destruct (Obj.get updates (cfg_id c)) as [l|] eqn:Hget; cbn [default] in Hev.
  - apply Obj_get_elem_of in Hget. apply (Hu _ _ _ Hget Hev).
  - apply (storeTagged_get prev (cfg_id c) ev Hp Hev).
Qed.

Lemma fetchAll_storeTagged (clock : nat -> Date) (relay : jsstring -> HttpResult)
    (config : list CalendarConfig) (st : HookState) :
  storeTagged (eventsByCalendar st) ->
  storeTagged (eventsByCalendar (fetchAll LocalTZA ICAL_parse clock relay config st)).
Proof.
  intros Hst.
  destruct (fetchAll_events LocalTZA ICAL_parse clock relay config st)
    as (updates & -> & ->).
  apply mergeUpdates_storeTagged; [|exact Hst].
  apply fetchStep_storeTagged. intros k l ev Hin. inversion Hin.
Qed.

Lemma fetchCalendar_storeTagged (clock : nat -> Date) (relay : jsstring -> HttpResult)
    (cal : CalendarConfig) (st : HookState) :
  storeTagged (eventsByCalendar st) ->
  storeTagged (eventsByCalendar (fetchCalendar LocalTZA ICAL_parse clock relay cal st)).
Proof.
  intros Hst. unfold fetchCalendar.
  destruct (fetchOneCalendar LocalTZA ICAL_parse clock relay cal) as [parsed|msg] eqn:Hc;
    cbn [eventsByCalendar]; [|exact Hst].
  apply storeTagged_set; [exact Hst|].
  intros ev Hev. apply (fetchOneCalendar_tagged clock relay cal parsed ev Hc Hev).
Qed.

Lemma fetchAll_NoDup (clock : nat -> Date) (relay : jsstring -> HttpResult)
    (config : list CalendarConfig) (st : HookState) :
  NoDup (Obj.keys (eventsByCalendar (fetchAll LocalTZA ICAL_parse clock relay config st))).
Proof.
  destruct (fetchAll_events LocalTZA ICAL_parse clock relay config st)
    as (updates & -> & _).
  apply mergeUpdates_NoDup. constructor.
Qed.

Lemma fetchAll_keys (clock : nat -> Date) (relay : jsstring -> HttpResult)
    (config : list CalendarConfig) (st : HookState) (k : jsstring) :
  k ∈ Obj.keys (eventsByCalendar (fetchAll LocalTZA ICAL_parse clock relay config st))
  <-> k ∈ List.map cfg_id config.
Proof.
  destruct (fetchAll_events LocalTZA ICAL_parse clock relay config st)
    as (updates & -> & _).
  unfold mergeUpdates. rewrite mergeUpdates_keys. split; [|tauto].
  intros [H|H]; [cbn in H; inversion H|exact H].
Qed.

Lemma elem_of_mergedEvents (o : list (jsstring * list CalendarEvent))
    (ev : CalendarEvent) :
  ev ∈ mergedEvents o <-> exists k l, (k, l) ∈ o /\ ev ∈ l.
Proof.
  rewrite mergedEvents_concat, list_elem_of_In, in_concat. split.
  - intros (l & Hl & Hev). apply in_map_iff in Hl. destruct Hl as ([k l'] & <- & Hin).
    exists k, l'. split; apply list_elem_of_In; assumption.
  - intros (k & l & Hin & Hev). exists l. split; [|apply list_elem_of_In, Hev].
    apply in_map_iff. exists (k, l). split; [reflexivity|apply list_elem_of_In, Hin].
Qed.

Lemma reachable_invariant (st : HookState) :
  reachable LocalTZA ICAL_parse st ->
  storeTagged (eventsByCalendar st) /\ NoDup (Obj.keys (eventsByCalendar st)).
Proof.
  induction 1 as [|clock relay config st _ Hst [IHt IHn]|clock relay cal st Hst [IHt IHn]].
  - split; [intros k l ev Hin; inversion Hin|constructor].
  - split; [apply fetchAll_storeTagged, IHt|apply fetchAll_NoDup].
  - split; [apply fetchCalendar_storeTagged, IHt|].
    unfold fetchCalendar.
    destruct (fetchOneCalendar LocalTZA ICAL_parse clock relay cal);
      cbn [eventsByCalendar]; [apply Obj_set_NoDup, IHn|exact IHn].
Qed.

End HookInvariant.


Lemma addError_changes (e : option jsstring) (name : jsstring) :
  addError e name <> e.
Proof.
  unfold addError. destruct e as [[|c p]|]; cbn [truthy default].
  - discriminate.
  - intros [= H]. apply (f_equal length) in H.
    rewrite !length_app in H. cbn [length] in H. lia.
  - discriminate.
Qed.




(** X21. The timer of one feed writes that feed alone: every other feed
    keeps what it held; the feed holds the events just parsed or, when the
    fetch or the parse failed, what it held before; the loading flag is
    not touched; and the error message is left as it was when, and only
    when, the refresh succeeded, so a success does not clear the message of
    an earlier failure. *)
Theorem fetchCalendar_writes_one_feed (LocalTZA : Z -> bool -> Z)
    (ICAL_parse : jsstring -> outcome ICAL.Component)
    (clock : nat -> Date) (relay : jsstring -> HttpResult)
    (cal : CalendarConfig) (st : HookState) :
  (forall k : jsstring,
     k <> cfg_id cal ->
     Obj.get (eventsByCalendar
                (fetchCalendar LocalTZA ICAL_parse clock relay cal st)) k
     = Obj.get (eventsByCalendar st) k)
  /\ default []
       (Obj.get (eventsByCalendar
                   (fetchCalendar LocalTZA ICAL_parse clock relay cal st))
          (cfg_id cal))
     = refreshed LocalTZA ICAL_parse clock relay (eventsByCalendar st) cal
  /\ loading (fetchCalendar LocalTZA ICAL_parse clock relay cal st) = loading st
  /\ (error (fetchCalendar LocalTZA ICAL_parse clock relay cal st) = error st
      <-> exists parsed,
            fetchOneCalendar LocalTZA ICAL_parse clock relay cal = Returns parsed).
Proof.
  unfold fetchCalendar, refreshed.
  destruct (fetchOneCalendar LocalTZA ICAL_parse clock relay cal) as [parsed|msg];
    cbn [eventsByCalendar loading error].
  - split; [|split; [|split]].
    + intros k Hk. apply Obj_get_set_ne. congruence.
    + rewrite Obj_get_set_eq. reflexivity.
    + reflexivity.
    + split; [eauto|reflexivity].
  - split; [|split; [|split]]; try reflexivity.
    split.
    + intros H. exfalso. exact (addError_changes _ _ H).
    + intros [parsed Hp]. discriminate.
Qed.

(** X22. In every state that the refreshes of the hook lead to from the
    mounted one, whatever the configurations (with plain keys for the ids
    of the feeds of the cycles of [fetchAll]), the clocks and the answers
    of the relay were, the feeds held are distinct and an event held under
    a feed names that feed; so every event of the merged list names a feed
    that is held, and after a refresh of all feeds every event of the
    merged list names a feed of the configuration of that refresh. *)
Theorem reachable_events_name_their_feed (LocalTZA : Z -> bool -> Z)
    (ICAL_parse : jsstring -> outcome ICAL.Component) (st : HookState) :
  reachable LocalTZA ICAL_parse st ->
  storeTagged (eventsByCalendar st)
  /\ NoDup (Obj.keys (eventsByCalendar st))
  /\ (forall ev : CalendarEvent,
        ev ∈ mergedEvents (eventsByCalendar st) ->
        calendarId ev ∈ Obj.keys (eventsByCalendar st))
  /\ forall (clock : nat -> Date) (relay : jsstring -> HttpResult)
       (config : list CalendarConfig) (ev : CalendarEvent),
       Forall plainKey (List.map cfg_id config) ->
       ev ∈ mergedEvents
              (eventsByCalendar
                 (fetchAll LocalTZA ICAL_parse clock relay config st)) ->
       calendarId ev ∈ List.map cfg_id config.
Proof.
  intros Hst.
  assert (Hmerged : forall s : HookState,
             storeTagged (eventsByCalendar s) ->
             forall ev : CalendarEvent,
               ev ∈ mergedEvents (eventsByCalendar s) ->
               calendarId ev ∈ Obj.keys (eventsByCalendar s)).
  { intros s Hs ev Hev. apply elem_of_mergedEvents in Hev.
    destruct Hev as (k & l & Hin & Hev). rewrite (Hs k l ev Hin Hev).
    unfold Obj.keys. apply list_elem_of_In, in_map_iff.
    exists (k, l). split; [reflexivity|apply list_elem_of_In, Hin]. }
  destruct (reachable_invariant LocalTZA ICAL_parse st Hst) as [Ht Hn].
  split; [exact Ht|]. split; [exact Hn|]. split; [apply Hmerged, Ht|].
  intros clock relay config ev _ Hev.
  apply (fetchAll_keys LocalTZA ICAL_parse clock relay config st).
  apply Hmerged; [|exact Hev].
  apply fetchAll_storeTagged, Ht.
Qed.

(** The state after a cycle over the family and the school feed, the
    second of which is down, and a timer of the work feed. *)
Lemma reachable_events_name_their_feed_witness :
  NoDup
    (Obj.keys
       (eventsByCalendar
          (fetchCalendar UTCzone Cases.laxParser Sample.noon2024 Sample.relayDown2
             Sample.feed3
             (fetchAll UTCzone Cases.laxParser Sample.noon2024 Sample.relayDown2
                [Sample.feed1; Sample.feed2] initialHookState))))
  /\ List.map calendarId
       (mergedEvents
          (eventsByCalendar
             (fetchCalendar UTCzone Cases.laxParser Sample.noon2024
                Sample.relayDown2 Sample.feed3
                (fetchAll UTCzone Cases.laxParser Sample.noon2024
                   Sample.relayDown2 [Sample.feed1; Sample.feed2]
                   initialHookState))))
     = [lit "f1"; lit "f3"].
Proof.
  split.
  - apply (reachable_events_name_their_feed UTCzone Cases.laxParser
             (fetchCalendar UTCzone Cases.laxParser Sample.noon2024
                Sample.relayDown2 Sample.feed3
                (fetchAll UTCzone Cases.laxParser Sample.noon2024
                   Sample.relayDown2 [Sample.feed1; Sample.feed2]
                   initialHookState))).
    apply reach_fetchCalendar, reach_fetchAll; [|apply reach_initial].
    apply (bool_decide_unpack _). vm_compute. exact I.
  - vm_compute. reflexivity.
Defined.

(* ===================================================================== *)
(** * Properties of the relay *)
(* ===================================================================== *)

Lemma trimEnd_fixpoint (s : jsstring) :
  trimEnd s = s <-> s = [] \/ exists r c, s = r ++ [c] /\ isSpace c = false.
Proof.
  split.
  - intros H.
    assert (Hrev : trimStart (rev s) = rev s).
    { unfold trimEnd in H. rewrite <- H at 2. rewrite rev_involutive. reflexivity. }
    apply trimStart_fixpoint in Hrev. destruct Hrev as [Hnil|(c & r & Hrev & Hc)].
    + left. apply (f_equal (@rev N)) in Hnil. rewrite rev_involutive in Hnil.
      exact Hnil.
    + right. exists (rev r), c. split; [|exact Hc].
      apply (f_equal (@rev N)) in Hrev. rewrite rev_involutive in Hrev.
      exact Hrev.
  - intros [->|(r & c & -> & Hc)]; [reflexivity|apply trimEnd_snoc, Hc].
Qed.

Lemma trimStart_spaces (ws s : jsstring) :
  Forall (fun c => isSpace c = true) ws -> trimStart (ws ++ s) = trimStart s.
Proof.
  induction 1 as [|c ws Hc _ IH]; [reflexivity|].
  cbn [app trimStart]. rewrite Hc. exact IH.
Qed.

Lemma trimEnd_spaces (s ws : jsstring) :
  Forall (fun c => isSpace c = true) ws -> trimEnd (s ++ ws) = trimEnd s.
Proof.
  intros Hws. unfold trimEnd. rewrite rev_app_distr, trimStart_spaces; [reflexivity|].
  apply Forall_rev, Hws.
Qed.

Lemma trimEnd_cons (c : N) (r : jsstring) :
  isSpace c = false -> trimEnd (c :: r) = c :: trimEnd r.
Proof.
  intros Hc. destruct (trimEnd_split r) as (ws & Hsplit & Hws).
  rewrite Hsplit at 1.
  change (c :: trimEnd r ++ ws) with ((c :: trimEnd r) ++ ws).
  rewrite trimEnd_spaces by exact Hws.
  apply trimEnd_fixpoint. right.
  pose proof (trimEnd_idempotent r) as Hid.
  apply trimEnd_fixpoint in Hid. destruct Hid as [Hnil|(r' & c' & Heq & Hc')].
  - rewrite Hnil. exists [], c. split; [reflexivity|exact Hc].
  - rewrite Heq. exists (c :: r'), c'. split; [reflexivity|exact Hc'].
Qed.

(** [trimEnd] leaves alone what stands before a unit that is no space. *)
Lemma trimEnd_after (p : jsstring) (c : N) (r : jsstring) :
  isSpace c = false -> trimEnd (p ++ c :: r) = p ++ c :: trimEnd r.
Proof.
  intros Hc. rewrite <- (trimEnd_cons c r Hc).
  destruct (trimEnd_split (c :: r)) as (ws & Hsplit & Hws).
  rewrite Hsplit at 1. rewrite app_assoc, trimEnd_spaces by exact Hws.
  apply trimEnd_fixpoint. right.
  pose proof (trimEnd_idempotent (c :: r)) as Hid.
  apply trimEnd_fixpoint in Hid. destruct Hid as [Hnil|(r' & c' & Heq & Hc')].
  - rewrite (trimEnd_cons c r Hc) in Hnil. discriminate.
  - exists (p ++ r'), c'. split; [|exact Hc'].
    rewrite Heq, app_assoc. reflexivity.
Qed.

Lemma isSpace_lowerASCII (c : N) :
  isSpace c = true -> Server.lowerASCII c = c.
Proof.
  unfold Server.lowerASCII.
  destruct (N.leb_spec 65 c) as [Hlo|Hlo]; [|reflexivity].
  destruct (N.leb_spec c 90) as [Hhi|Hhi]; [|reflexivity].
  cbn [andb]. unfold isSpace, isWhiteSpace, isLineTerminator.
  repeat match goal with
         | |- context [N.eqb c ?k] =>
             destruct (N.eqb_spec c k); [lia|]
         | |- context [N.leb ?a c] =>
             destruct (N.leb_spec a c); [|]
         | |- context [N.leb c ?a] =>
             destruct (N.leb_spec c a); [|]
         end; cbn; try discriminate; lia.
Qed.

Lemma webcal_no_space (p : jsstring) :
  List.map Server.lowerASCII p = lit "webcal://" ->
  exists c0 p' c8, p = c0 :: p' ++ [c8] /\ length p' = 7%nat
                   /\ isSpace c0 = false /\ isSpace c8 = false.
Proof.
  intros H.
  destruct p as [|c0 [|c1 [|c2 [|c3 [|c4 [|c5 [|c6 [|c7 [|c8 [|c9 p]]]]]]]]]];
    try discriminate H.
  exists c0, [c1; c2; c3; c4; c5; c6; c7], c8.
  split; [reflexivity|]. split; [reflexivity|].
  injection H as H0 _ _ _ _ _ _ _ H8.
  split.
  - destruct (isSpace c0) eqn:Hs; [|reflexivity].
    rewrite (isSpace_lowerASCII c0 Hs) in H0. subst c0. discriminate Hs.
  - destruct (isSpace c8) eqn:Hs; [|reflexivity].
    rewrite (isSpace_lowerASCII c8 Hs) in H8. subst c8. discriminate Hs.
Qed.

Lemma startsWith_app (p s : jsstring) : startsWith p (p ++ s) = true.
Proof.
  induction p as [|a p IH]; [reflexivity|].
  cbn [app startsWith]. rewrite N.eqb_refl. exact IH.
Qed.

Lemma trim_https (r : jsstring) :
  trimEnd r = r -> trim (lit "https://" ++ r) = lit "https://" ++ r.
Proof.
  intros Hr. unfold trim.
  change (lit "https://") with ([104; 116; 116; 112; 115; 58; 47] ++ [47])%N.
  rewrite <- app_assoc. cbn [app trimStart]. 
  change (isSpace 104) with false. cbn iota.
  destruct r as [|c r].
  - reflexivity.
  - apply trimEnd_fixpoint in Hr.
    destruct Hr as [Hnil|(r' & c' & Heq & Hc')]; [discriminate|].
    rewrite Heq.
    change (104 :: 116 :: 116 :: 112 :: 115 :: 58 :: 47 :: 47 :: r' ++ [c'])%N
      with (([104; 116; 116; 112; 115; 58; 47; 47] ++ r') ++ [c'])%N.
    apply trimEnd_snoc, Hc'.
Qed.

Lemma trimEnd_skipn (n : nat) (s : jsstring) :
  trimEnd s = s -> trimEnd (skipn n s) = skipn n s.
Proof.
  intros Hs. destruct (skipn n s) as [|c r] eqn:Hskip; [reflexivity|].
  apply trimEnd_fixpoint in Hs. apply trimEnd_fixpoint. right.
  destruct Hs as [->|(t & c' & -> & Hc')].
  - rewrite skipn_nil in Hskip. discriminate.
  - destruct (Nat.le_gt_cases n (length t)) as [Hle|Hgt].
    + rewrite skipn_app in Hskip.
      replace (n - length t)%nat with 0%nat in Hskip by lia. cbn [skipn] in Hskip.
      exists (skipn n t), c'. split; [symmetry; exact Hskip|exact Hc'].
    + rewrite skipn_all2 in Hskip by (rewrite length_app; cbn [length]; lia).
      discriminate.
Qed.

(** X23. The address that the relay fetches is trimmed and never has the
    scheme [webcal://], in whatever case it was written; normalizing it
    again changes nothing; and an address with the scheme [webcal://], in
    any case, becomes the same address under [https://], without the white
    space at its end. *)
Theorem normalizeCalendarUrl_canonical (url : jsstring) :
  trim (Server.normalizeCalendarUrl url) = Server.normalizeCalendarUrl url
  /\ startsWith (lit "webcal://")
       (List.map Server.lowerASCII (Server.normalizeCalendarUrl url)) = false
  /\ Server.normalizeCalendarUrl (Server.normalizeCalendarUrl url)
     = Server.normalizeCalendarUrl url
  /\ forall scheme rest : jsstring,
       List.map Server.lowerASCII scheme = lit "webcal://" ->
       Server.normalizeCalendarUrl (scheme ++ rest) = lit "https://" ++ trimEnd rest.
Proof.
  assert (Hfirst : forall u : jsstring,
             trim (Server.normalizeCalendarUrl u) = Server.normalizeCalendarUrl u
             /\ startsWith (lit "webcal://")
                  (List.map Server.lowerASCII (Server.normalizeCalendarUrl u)) = false).
  { intros u. unfold Server.normalizeCalendarUrl.
    destruct u as [|c r]; [split; reflexivity|].
    destruct (startsWith _ (List.map _ (trim (c :: r)))) eqn:Htest.
    - split.
      + apply trim_https, trimEnd_skipn, trimEnd_idempotent.
      + reflexivity.
    - split; [apply trim_idempotent|exact Htest]. }
  destruct (Hfirst url) as [Htrim Hscheme].
  split; [exact Htrim|]. split; [exact Hscheme|]. split.
  - unfold Server.normalizeCalendarUrl at 1.
    destruct (Server.normalizeCalendarUrl url) as [|c r] eqn:Hn; [reflexivity|].
    rewrite Htrim, Hscheme. reflexivity.
  - intros scheme rest Hs.
    destruct (webcal_no_space scheme Hs) as (c0 & p' & c8 & -> & Hlen & Hc0 & Hc8).
    assert (Htrimmed : trim ((c0 :: p' ++ [c8]) ++ rest)
                       = (c0 :: p' ++ [c8]) ++ trimEnd rest).
    { unfold trim. cbn [app trimStart]. rewrite Hc0.
      rewrite <- !app_assoc. cbn [app].
      change (c0 :: p' ++ c8 :: rest) with ((c0 :: p') ++ c8 :: rest).
      rewrite (trimEnd_after (c0 :: p') c8 rest Hc8). reflexivity. }
    unfold Server.normalizeCalendarUrl. cbn [app]. cbn [app] in Htrimmed.
    rewrite Htrimmed.
    change (c0 :: (p' ++ [c8]) ++ trimEnd rest)
      with ((c0 :: p' ++ [c8]) ++ trimEnd rest).
    rewrite List.map_app, Hs, startsWith_app.
    f_equal. rewrite skipn_app, skipn_all2 by (cbn [length]; rewrite length_app; cbn [length]; lia).
    cbn [app]. replace (9 - length (c0 :: p' ++ [c8]))%nat with 0%nat
      by (cbn [length]; rewrite length_app; cbn [length]; lia).
    reflexivity.
Qed.

Lemma test_BEGIN_VCALENDAR_trim (t : jsstring) :
  Regex.test_BEGIN_VCALENDAR (trim t) = true -> Regex.test_BEGIN_VCALENDAR t = true.
Proof.
  rewrite !test_BEGIN_VCALENDAR_true. intros (pre & w & suf & Heq & Hw).
  destruct (trimStart_split t) as (ws & Ht & _).
  destruct (trimEnd_split (trimStart t)) as (ws' & Ht' & _).
  exists (ws ++ pre), w, (suf ++ ws'). split; [|exact Hw].
  rewrite Ht at 1. rewrite Ht' at 1. unfold trim in Heq. rewrite Heq.
  rewrite <- !app_assoc. reflexivity.
Qed.

(** X24. The relay forwards a text only when the parameter [url] was
    there and was not the empty string, the fetch of its normalized value
    answered with success and the text, less its byte order mark, holds
    the marker [BEGIN:VCALENDAR]; the text forwarded is the answer less
    that mark; and the client never refuses a forwarded text as not a
    calendar: parsing it goes on to the parser of ical.js, and fails only
    when that parser does. *)
Theorem relay_forwards_calendars_only (fetch : Server.QueryValue -> HttpResult)
    (rawUrl : option Server.QueryValue) (text : jsstring) :
  Server.apiIcal fetch rawUrl = Server.Calendar text ->
  (exists (url : Server.QueryValue) (raw : jsstring) (status : Z),
      rawUrl = Some url /\ url <> Server.QString []
      /\ fetch (Server.normalizeQueryValue url) = Response true status raw
      /\ text = stripBOM raw)
  /\ Regex.test_BEGIN_VCALENDAR text = true
  /\ forall (LocalTZA : Z -> bool -> Z)
       (ICAL_parse : jsstring -> outcome ICAL.Component) (clock : nat -> Date)
       (calendarId calendarName color : jsstring),
       parseICS LocalTZA ICAL_parse clock calendarId calendarName color text
       = match ICAL_parse (normalizeICSText text) with
         | Throws msg => Throws (lit "Calendar parse failed: " ++ msg)
         | Returns comp =>
             Returns (parseICSEvents LocalTZA clock calendarId calendarName color comp)
         end.
Proof.
  unfold Server.apiIcal.
  destruct rawUrl as [url|]; [|discriminate].
  destruct (Server.missing (Some url)) eqn:Hmissing; [discriminate|].
  destruct (fetch _) as [msg|ok status raw] eqn:Hfetch; [discriminate|].
  destruct ok; cbn [negb]; [|discriminate].
  destruct (_ || _)%bool eqn:Htest; [discriminate|].
  intros [= <-].
  apply orb_false_iff in Htest. destruct Htest as [_ Hbegin].
  apply negb_false_iff, test_BEGIN_VCALENDAR_trim in Hbegin.
  split; [|split].
  - exists url, raw, status. repeat split; [|exact Hfetch].
    intros ->. discriminate Hmissing.
  - exact Hbegin.
  - intros LocalTZA ICAL_parse clock calendarId calendarName color.
    unfold parseICS. rewrite (normalizeICSText_begin _ Hbegin). reflexivity.
Qed.

(** The relay forwards a calendar of iCloud asked for under [webcal://]. *)
Lemma relay_forwards_calendars_only_witness :
  Regex.test_BEGIN_VCALENDAR
    (lit "BEGIN:VCALENDAR" ++ [13%N; 10%N] ++ lit "END:VCALENDAR" ++ [10%N]) = true.
Proof.
  apply (relay_forwards_calendars_only
           (fun url =>
              match url with
              | Server.QString s =>
                  if decide (s = lit "https://p01.icloud.com/cal.ics")
                  then Response true 200
                         ([65279%N] ++ lit "BEGIN:VCALENDAR" ++ [13%N; 10%N]
                          ++ lit "END:VCALENDAR" ++ [10%N])
                  else NetworkError (lit "fetch failed")
              | _ => NetworkError (lit "Failed to parse URL")
              end)
           (Some (Server.QString (lit " WebCal://p01.icloud.com/cal.ics ")))).
  vm_compute. reflexivity.
Defined.
